(** * bprof: the event-attribution core of [src/demo.cpp]

    A shallow embedding of the profiler engine (classes [BaseFunction],
    [LineState], [LineRecord], [Function], [FrameState] and [Module]) and
    the verification of its accounting properties.

    Conventions of the embedding.
    - [size_t] values are integers in [0, 2^64); every [size_t] operation of
      the source is followed by [to_size_t], its wrap-around.
    - [duration] is [std::chrono::nanoseconds], a signed 64-bit tick count.
      Signed overflow is undefined in C++, so durations are plain integers:
      the model is exact as long as no accumulator leaves the signed range.
    - [std::vector::at] and [std::unordered_map::at] throw
      [std::out_of_range]; [std::stack::top] on an empty stack is undefined
      behaviour.  Both are outcomes of the model, see [outcome].
    - the call stack is a list whose head is the top of [frame_stack_];
    - clock readings are integers, in nanoseconds: [Module::profile] takes
      the two readings of [clock::now()] as arguments.

    The first part gives the model, class by class, then the definitions
    used to state the properties; the second part proves them. *)

From stdpp Require Import base gmap list strings.
From Stdlib Require Import ZArith Lia.

Local Open Scope Z_scope.

(** ** Machine integers, durations and outcomes *)

Definition to_size_t (z : Z) : Z := z mod 2 ^ 64.

Definition duration : Type := Z.

Inductive exn : Type :=
  | out_of_range
  | runtime_error.

(** The result of running a piece of the engine on a state of type [S]:
    normal completion, a C++ exception (with the state reached when it was
    thrown), or undefined behaviour. *)
Inductive outcome (S : Type) : Type :=
  | Done (s : S)
  | Throw (e : exn) (s : S)
  | Undefined.

Arguments Done {S} s.
Arguments Throw {S} e s.
Arguments Undefined {S}.

Definition and_then {S : Type} (r : outcome S) (k : S → outcome S) : outcome S :=
  match r with
  | Done s => k s
  | Throw e s => Throw e s
  | Undefined => Undefined
  end.

Notation "'let*' s := r 'in' k" := (and_then r (λ s, k))
  (at level 10, s name, r at level 200, k at level 200, only parsing).

Definition is_done {S : Type} (r : outcome S) : Prop :=
  match r with Done _ => True | _ => False end.

(** ** class BaseFunction *)

Module BaseFunction.
Record t : Type := mk {
  n_calls_ : Z;
  name_ : string;
  internal_time_ : duration;
}.

Definition make (name : string) : t := mk 0 name 0.

Definition add_elapsed_internal (time : duration) (f : t) : t :=
  mk (n_calls_ f) (name_ f) (internal_time_ f + time).

Definition overhead (f : t) : duration := internal_time_ f.

Definition add_call (f : t) : t :=
  mk (to_size_t (n_calls_ f + 1)) (name_ f) (internal_time_ f).
End BaseFunction.

(** ** class LineState *)

Module LineState.
Record t : Type := mk {
  n_calls_ : Z;
  internal_ : duration;
  external_ : duration;
}.

Definition zero : t := mk 0 0 0.

Definition add_internal (dur : duration) (l : t) : t :=
  mk (n_calls_ l) (internal_ l + dur) (external_ l).

Definition add_external (dur : duration) (l : t) : t :=
  mk (n_calls_ l) (internal_ l) (external_ l + dur).

Definition add_call (l : t) : t :=
  mk (to_size_t (n_calls_ l + 1)) (internal_ l) (external_ l).

(** [operator+=] *)
Definition plus_assign (lhs rhs : t) : t :=
  mk (to_size_t (n_calls_ lhs + n_calls_ rhs))
     (internal_ lhs + internal_ rhs)
     (external_ lhs + external_ rhs).
End LineState.

(** ** class LineRecord : public LineState *)

Module LineRecord.
Record t : Type := mk {
  state : LineState.t;
  line_ : string;
}.

Definition make (line : string) : t := mk LineState.zero line.

Definition text (r : t) : string := line_ r.

(** the inherited [operator+=] *)
Definition plus_assign (lhs : t) (rhs : LineState.t) : t :=
  mk (LineState.plus_assign (state lhs) rhs) (line_ lhs).
End LineRecord.

(** ** class Function : public BaseFunction *)

Module Function.
Record t : Type := mk {
  base : BaseFunction.t;
  code_ : Z;
  lines_ : list LineRecord.t;
}.

(** The constructor appends one fresh record per line text. *)
Definition make (name : string) (lines : list string) (code : Z) : t :=
  mk (BaseFunction.make name) code
     (foldl (λ lines_ line, lines_ ++ [LineRecord.make line]) [] lines).

Definition n_lines (f : t) : nat := length (lines_ f).

(** [lines_.at(line_number)]; [None] stands for [std::out_of_range]. *)
Definition line (line_number : nat) (f : t) : option LineRecord.t :=
  lines_ f !! line_number.

Definition set_line (line_number : nat) (r : LineRecord.t) (f : t) : t :=
  mk (base f) (code_ f) (<[line_number := r]> (lines_ f)).

Definition add_elapsed_internal (time : duration) (f : t) : t :=
  mk (BaseFunction.add_elapsed_internal time (base f)) (code_ f) (lines_ f).

Definition add_call (f : t) : t :=
  mk (BaseFunction.add_call (base f)) (code_ f) (lines_ f).
End Function.

(** ** enum class Instruction *)

Inductive Instruction : Type :=
  | kOrigin
  | kLine
  | kCall
  | kReturn
  | kException
  | kCCall
  | kCReturn
  | kCException
  | kInvalid.

(** ** class FrameState *)

Module FrameState.
Record t : Type := mk {
  starting_line_ : Z;
  current_line_ : Z;
  function_key_ : Z;
  lines_ : list LineState.t;
  internal_ : duration;
}.

(** The constructor: [lines_.resize(n_lines)], cursor at 0. *)
Definition make (code : Z) (n_lines : nat) (starting_line : Z) : t :=
  mk starting_line 0 code (replicate n_lines LineState.zero) 0.

Definition key (fr : t) : Z := function_key_ fr.

(** The index [current_line_-starting_line_-1], computed in [size_t]. *)
Definition current_index (fr : t) : Z :=
  to_size_t (current_line_ fr - starting_line_ fr - 1).

(** [lines_.at(...)]; [None] stands for [std::out_of_range]. *)
Definition current_line (fr : t) : option LineState.t :=
  lines_ fr !! Z.to_nat (current_index fr).

(** Writing through the reference returned by [current_line()]. *)
Definition set_current (l : LineState.t) (fr : t) : t :=
  mk (starting_line_ fr) (current_line_ fr) (function_key_ fr)
     (<[Z.to_nat (current_index fr) := l]> (lines_ fr)) (internal_ fr).

(** The assignment half of [set_current_line]. *)
Definition move_to (line_number : Z) (fr : t) : t :=
  mk (starting_line_ fr) line_number (function_key_ fr) (lines_ fr)
     (internal_ fr).

Definition add_internal (dur : duration) (fr : t) : t :=
  mk (starting_line_ fr) (current_line_ fr) (function_key_ fr) (lines_ fr)
     (internal_ fr + dur).

Definition internal (fr : t) : duration := internal_ fr.

Definition lines (fr : t) : list LineState.t := lines_ fr.

Definition total_time (fr : t) : duration :=
  foldl (λ result line,
           result + LineState.internal_ line + LineState.external_ line)
        0 (lines_ fr).
End FrameState.

(** ** The host: frames, callables and trace events *)

(** What the engine reads from a [PyFrameObject*]: the code object's
    address, [PyFrame_GetLineNumber], the code name, and the answer of
    [inspect.getsourcelines] for the code object ([None] when the call
    fails). *)
Record PyFrameObject : Type := {
  f_code : Z;
  f_lineno : Z;
  co_name : string;
  getsourcelines : option (list string * Z);
}.

(** The [arg] of a C call: its [__module__] and [__qualname__]. *)
Record PyObject : Type := {
  module__ : string;
  qualname__ : string;
}.

(** The [what] argument of the hooks; [PyTrace_other] is any other int. *)
Inductive What : Type :=
  | PyTrace_CALL
  | PyTrace_EXCEPTION
  | PyTrace_LINE
  | PyTrace_RETURN
  | PyTrace_C_CALL
  | PyTrace_C_EXCEPTION
  | PyTrace_C_RETURN
  | PyTrace_OPCODE
  | PyTrace_other.

(** [PyLong_AsUnsignedLongLong]: the value when it fits, else the error
    value [(unsigned long long)-1] (the pending error is not checked). *)
Definition PyLong_AsUnsignedLongLong (z : Z) : Z :=
  if bool_decide (0 ≤ z < 2 ^ 64) then z else 2 ^ 64 - 1.

(** ** class Module

    The members [parent_] and [inspect_] are handles on the host and are
    not part of the state; what the host answers is carried by the
    events. *)

Record ModuleState : Type := {
  functions_ : gmap Z Function.t;
  c_functions_ : gmap string BaseFunction.t;
  frame_stack_ : list FrameState.t;
  last_instruction_ : Instruction;
  last_instruction_start_ : Z;
  last_instruction_end_ : Z;
  last_c_name_ : string;
}.

Definition with_functions (fs : gmap Z Function.t) (m : ModuleState) :=
  {| functions_ := fs; c_functions_ := c_functions_ m;
     frame_stack_ := frame_stack_ m;
     last_instruction_ := last_instruction_ m;
     last_instruction_start_ := last_instruction_start_ m;
     last_instruction_end_ := last_instruction_end_ m;
     last_c_name_ := last_c_name_ m |}.

Definition with_c_functions (cs : gmap string BaseFunction.t) (m : ModuleState) :=
  {| functions_ := functions_ m; c_functions_ := cs;
     frame_stack_ := frame_stack_ m;
     last_instruction_ := last_instruction_ m;
     last_instruction_start_ := last_instruction_start_ m;
     last_instruction_end_ := last_instruction_end_ m;
     last_c_name_ := last_c_name_ m |}.

Definition with_frame_stack (st : list FrameState.t) (m : ModuleState) :=
  {| functions_ := functions_ m; c_functions_ := c_functions_ m;
     frame_stack_ := st;
     last_instruction_ := last_instruction_ m;
     last_instruction_start_ := last_instruction_start_ m;
     last_instruction_end_ := last_instruction_end_ m;
     last_c_name_ := last_c_name_ m |}.

Definition with_last_instruction (i : Instruction) (m : ModuleState) :=
  {| functions_ := functions_ m; c_functions_ := c_functions_ m;
     frame_stack_ := frame_stack_ m;
     last_instruction_ := i;
     last_instruction_start_ := last_instruction_start_ m;
     last_instruction_end_ := last_instruction_end_ m;
     last_c_name_ := last_c_name_ m |}.

Definition with_last_instruction_start (now : Z) (m : ModuleState) :=
  {| functions_ := functions_ m; c_functions_ := c_functions_ m;
     frame_stack_ := frame_stack_ m;
     last_instruction_ := last_instruction_ m;
     last_instruction_start_ := now;
     last_instruction_end_ := last_instruction_end_ m;
     last_c_name_ := last_c_name_ m |}.

Definition with_last_instruction_end (now : Z) (m : ModuleState) :=
  {| functions_ := functions_ m; c_functions_ := c_functions_ m;
     frame_stack_ := frame_stack_ m;
     last_instruction_ := last_instruction_ m;
     last_instruction_start_ := last_instruction_start_ m;
     last_instruction_end_ := now;
     last_c_name_ := last_c_name_ m |}.

Definition with_last_c_name (name : string) (m : ModuleState) :=
  {| functions_ := functions_ m; c_functions_ := c_functions_ m;
     frame_stack_ := frame_stack_ m;
     last_instruction_ := last_instruction_ m;
     last_instruction_start_ := last_instruction_start_ m;
     last_instruction_end_ := last_instruction_end_ m;
     last_c_name_ := name |}.

(** The state built by the constructor [Module::Module]. *)
Definition Module_init : ModuleState :=
  {| functions_ := ∅; c_functions_ := ∅; frame_stack_ := [];
     last_instruction_ := kInvalid;
     last_instruction_start_ := 0; last_instruction_end_ := 0;
     last_c_name_ := EmptyString |}.

Definition elapsed (m : ModuleState) : duration :=
  last_instruction_end_ m - last_instruction_start_ m.

Definition start (m : ModuleState) : ModuleState :=
  with_last_instruction kOrigin m.

Definition stop (m : ModuleState) : ModuleState := m.

(** *** get_lines *)

(** The loop [for (i = 1; i < n_lines; ++i) lines.emplace_back(item i)],
    started at [i] with [fuel] iterations left at most. *)
Fixpoint get_lines_loop (lines_py : list string) (fuel i : nat)
    (lines : list string) : list string :=
  match fuel with
  | O => lines
  | S fuel' =>
    if bool_decide (i < length lines_py)%nat then
      match lines_py !! i with
      | Some line_py => get_lines_loop lines_py fuel' (S i) (lines ++ [line_py])
      | None => lines
      end
    else lines
  end.

(** [get_lines(frame, &line_start)]: the stored texts and the starting
    line; [None] when [inspect.getsourcelines] fails ([runtime_error]). *)
Definition get_lines (frame : PyFrameObject) : option (list string * Z) :=
  match getsourcelines frame with
  | None => None
  | Some (lines_py, line_start_py) =>
    Some (get_lines_loop lines_py (length lines_py) 1 [],
          PyLong_AsUnsignedLongLong line_start_py)
  end.

(** *** Registry *)

Definition add_function (frame : PyFrameObject) (m : ModuleState)
    : outcome ModuleState :=
  let code := f_code frame in
  match functions_ m !! code with
  | Some _ => Done m
  | None =>
    match get_lines frame with
    | None => Throw runtime_error m
    | Some (lines, _) =>
      Done (with_functions
              (<[code := Function.make (co_name frame) lines code]>
                 (functions_ m)) m)
    end
  end.

(** [c_functions_.emplace]: an existing entry is kept. *)
Definition add_c_function (name : string) (m : ModuleState) : ModuleState :=
  match c_functions_ m !! name with
  | Some _ => m
  | None =>
    with_c_functions (<[name := BaseFunction.make name]> (c_functions_ m)) m
  end.

(** *** Call stack *)

Definition emplace_frame (frame : PyFrameObject) (m : ModuleState)
    : outcome ModuleState :=
  match get_lines frame with
  | None => Throw runtime_error m
  | Some (lines, starting_line) =>
    Done (with_frame_stack
            (FrameState.make (f_code frame) (length lines) starting_line
               :: frame_stack_ m) m)
  end.

(** [frame_stack_.top().current_line().op(...)]: apply [op] to the current
    line of the top frame. *)
Definition top_current_line (op : LineState.t → LineState.t)
    (m : ModuleState) : outcome ModuleState :=
  match frame_stack_ m with
  | [] => Undefined
  | top :: rest =>
    match FrameState.current_line top with
    | None => Throw out_of_range m
    | Some line =>
      Done (with_frame_stack (FrameState.set_current (op line) top :: rest) m)
    end
  end.

(** [frame_stack_.top().add_internal(dur)] *)
Definition top_add_internal (dur : duration) (m : ModuleState)
    : outcome ModuleState :=
  match frame_stack_ m with
  | [] => Undefined
  | top :: rest =>
    Done (with_frame_stack (FrameState.add_internal dur top :: rest) m)
  end.

(** The loop of [pop_frame]: [function.line(i++) += line] for each line of
    the frame. *)
Fixpoint merge_lines (i : nat) (lines : list LineState.t)
    (function : Function.t) : outcome Function.t :=
  match lines with
  | [] => Done function
  | line :: lines' =>
    match Function.line i function with
    | None => Throw out_of_range function
    | Some line_record =>
      merge_lines (S i) lines'
        (Function.set_line i (LineRecord.plus_assign line_record line) function)
    end
  end.

(** The first half of [pop_frame]: the frame's overhead and line states
    are merged into its [Function]. *)
Definition flush_frame (frame : FrameState.t) (m : ModuleState)
    : outcome ModuleState :=
  match functions_ m !! FrameState.key frame with
  | None => Throw out_of_range m
  | Some function =>
    let function :=
      Function.add_elapsed_internal (FrameState.internal frame) function in
    match merge_lines 0 (FrameState.lines frame) function with
    | Done function =>
      Done (with_functions
              (<[FrameState.key frame := function]> (functions_ m)) m)
    | Throw e function =>
      Throw e (with_functions
                 (<[FrameState.key frame := function]> (functions_ m)) m)
    | Undefined => Undefined
    end
  end.

Definition pop_frame (m : ModuleState) : outcome ModuleState :=
  match frame_stack_ m with
  | [] => Undefined
  | frame :: rest =>
    let* m := flush_frame frame m in
    let total := FrameState.total_time frame in
    let m := with_frame_stack rest m in
    match frame_stack_ m with
    | [] => Done m
    | _ :: _ => top_current_line (LineState.add_external total) m
    end
  end.

(** *** Begin steps *)

Definition profile_call (frame : PyFrameObject) (m : ModuleState)
    : outcome ModuleState :=
  let* m := add_function frame m in
  let m :=
    with_functions (alter Function.add_call (f_code frame) (functions_ m)) m in
  let* m := emplace_frame frame m in
  Done (with_last_instruction kCall m).

Definition profile_line (frame : PyFrameObject) (m : ModuleState)
    : outcome ModuleState :=
  let m := with_last_instruction kLine m in
  match frame_stack_ m with
  | [] => Done m
  | top :: rest =>
    let line_number := to_size_t (f_lineno frame) in
    let m :=
      with_frame_stack (FrameState.move_to line_number top :: rest) m in
    top_current_line LineState.add_call m
  end.

Definition profile_return (frame : PyFrameObject) (m : ModuleState)
    : outcome ModuleState :=
  Done (with_last_instruction kReturn m).

(** The name built by [PyUnicode_FromFormat], taken to succeed. *)
Definition c_call_name (arg : PyObject) : string :=
  "<C-function " +:+ module__ arg +:+ "." +:+ qualname__ arg +:+ ">".

Definition profile_c_call (frame : PyFrameObject) (arg : PyObject)
    (m : ModuleState) : outcome ModuleState :=
  let m := with_last_c_name (c_call_name arg) m in
  let m := add_c_function (last_c_name_ m) m in
  let m :=
    with_c_functions
      (alter BaseFunction.add_call (last_c_name_ m) (c_functions_ m)) m in
  Done (with_last_instruction kCCall m).

Definition profile_c_return (frame : PyFrameObject) (m : ModuleState)
    : outcome ModuleState :=
  Done (with_last_instruction kCReturn m).

(** *** Finish steps *)

Definition finish_origin (frame : PyFrameObject) (m : ModuleState)
    : outcome ModuleState :=
  Done m.

Definition finish_call (frame : PyFrameObject) (m : ModuleState)
    : outcome ModuleState :=
  match functions_ m !! f_code frame with
  | None => Throw out_of_range m
  | Some function =>
    Done (with_functions
            (<[f_code frame := Function.add_elapsed_internal (elapsed m) function]>
               (functions_ m)) m)
  end.

Definition finish_ccall (frame : PyFrameObject) (m : ModuleState)
    : outcome ModuleState :=
  match c_functions_ m !! last_c_name_ m with
  | None => Throw out_of_range m
  | Some c_function =>
    let m :=
      with_c_functions
        (<[last_c_name_ m :=
             BaseFunction.add_elapsed_internal (elapsed m) c_function]>
           (c_functions_ m)) m in
    top_current_line (LineState.add_external (elapsed m)) m
  end.

Definition finish_line (frame : PyFrameObject) (m : ModuleState)
    : outcome ModuleState :=
  match frame_stack_ m with
  | [] => Done m
  | _ :: _ => top_current_line (LineState.add_internal (elapsed m)) m
  end.

Definition finish_return (frame : PyFrameObject) (m : ModuleState)
    : outcome ModuleState :=
  let* m := top_add_internal (elapsed m) m in
  pop_frame m.

Definition finish_creturn (frame : PyFrameObject) (m : ModuleState)
    : outcome ModuleState :=
  top_add_internal (elapsed m) m.

(** *** Dispatch *)

(** The first [switch] of [profile], on [last_instruction_]. *)
Definition finish (frame : PyFrameObject) (m : ModuleState)
    : outcome ModuleState :=
  match last_instruction_ m with
  | kOrigin => finish_origin frame m
  | kLine => finish_line frame m
  | kCall => finish_call frame m
  | kReturn => finish_return frame m
  | kException => Done m
  | kCCall => finish_ccall frame m
  | kCReturn => finish_creturn frame m
  | kCException => Done m
  | kInvalid => Done m
  end.

(** The second [switch] of [profile], on [what]. *)
Definition begin (what : What) (frame : PyFrameObject) (arg : PyObject)
    (m : ModuleState) : outcome ModuleState :=
  match what with
  | PyTrace_LINE => profile_line frame m
  | PyTrace_CALL => profile_call frame m
  | PyTrace_RETURN => profile_return frame m
  | PyTrace_C_CALL => profile_c_call frame arg m
  | PyTrace_C_RETURN => profile_c_return frame m
  | PyTrace_EXCEPTION => Done m
  | PyTrace_C_EXCEPTION => profile_c_return frame m
  | PyTrace_OPCODE => Done m
  | PyTrace_other => Throw runtime_error m
  end.

(** [Module::profile].  [now_in] and [now_out] are the two readings of
    [clock::now()], on entry and on exit. *)
Definition profile (now_in now_out : Z) (what : What) (frame : PyFrameObject)
    (arg : PyObject) (m : ModuleState) : outcome ModuleState :=
  let m := with_last_instruction_end now_in m in
  let* m := finish frame m in
  let* m := begin what frame arg m in
  Done (with_last_instruction_start now_out m).

Definition profile_func := profile.

(** [trace_func] forwards line events only. *)
Definition trace_func (now_in now_out : Z) (what : What)
    (frame : PyFrameObject) (arg : PyObject) (m : ModuleState)
    : outcome ModuleState :=
  match what with
  | PyTrace_LINE => profile_func now_in now_out what frame arg m
  | _ => Done m
  end.

(** ** Sessions *)

(** The two hooks installed by [start]. *)
Inductive Hook : Type :=
  | SetProfile
  | SetTrace.

(** One notification by the host, with the clock readings the engine
    takes if it processes it. *)
Record Event : Type := {
  hook : Hook;
  now_in : Z;
  now_out : Z;
  what : What;
  frame : PyFrameObject;
  arg : PyObject;
}.

Definition deliver (ev : Event) (m : ModuleState) : outcome ModuleState :=
  match hook ev with
  | SetProfile =>
    profile_func (now_in ev) (now_out ev) (what ev) (frame ev) (arg ev) m
  | SetTrace =>
    trace_func (now_in ev) (now_out ev) (what ev) (frame ev) (arg ev) m
  end.

Fixpoint run (evs : list Event) (m : ModuleState) : outcome ModuleState :=
  match evs with
  | [] => Done m
  | ev :: evs' => let* m := deliver ev m in run evs' m
  end.

(** ** Reporter *)

Record LineReport : Type := {
  line_str : string;
  line_n_calls : Z;
  line_internal_ns : Z;
  line_external_ns : Z;
}.

Record FunctionReport : Type := {
  name : string;
  n_calls : Z;
  internal_ns : Z;
  lines : option (list LineReport);
}.

Record Report : Type := {
  functions : gmap Z FunctionReport;
  c_functions : gmap string FunctionReport;
}.

(** The tick count ([long long]) is passed as [unsigned long long]. *)
Definition PyLong_FromUnsignedLongLong (z : Z) : Z := to_size_t z.

Definition CreateFunctionDict (function : BaseFunction.t) : FunctionReport :=
  {| name := BaseFunction.name_ function;
     n_calls := PyLong_FromUnsignedLongLong (BaseFunction.n_calls_ function);
     internal_ns :=
       PyLong_FromUnsignedLongLong (BaseFunction.overhead function);
     lines := None |}.

Definition line_dict (line : LineRecord.t) : LineReport :=
  {| line_str := LineRecord.text line;
     line_n_calls :=
       PyLong_FromUnsignedLongLong (LineState.n_calls_ (LineRecord.state line));
     line_internal_ns :=
       PyLong_FromUnsignedLongLong (LineState.internal_ (LineRecord.state line));
     line_external_ns :=
       PyLong_FromUnsignedLongLong (LineState.external_ (LineRecord.state line)) |}.

Definition function_dict (function : Function.t) : FunctionReport :=
  let function_py := CreateFunctionDict (Function.base function) in
  let lines_py :=
    foldl (λ lines_py line, lines_py ++ [line_dict line]) []
          (Function.lines_ function) in
  {| name := name function_py; n_calls := n_calls function_py;
     internal_ns := internal_ns function_py; lines := Some lines_py |}.

(** [Module::dump]: the report and the state of the module afterwards.
    The two loops run over the maps in an unspecified order and fill
    dictionaries keyed by the same keys. *)
Definition dump (path : string) (m : ModuleState) : Report * ModuleState :=
  let functions :=
    map_fold (λ key function functions,
                <[key := function_dict function]> functions)
             ∅ (functions_ m) in
  let c_functions :=
    map_fold (λ key function c_functions,
                <[key := CreateFunctionDict function]> c_functions)
             ∅ (c_functions_ m) in
  ({| functions := functions; c_functions := c_functions |}, m).

(** ** Closed forms used in the statements *)

(** Line-wise merge of the states of a frame into the records of its
    function: record [i] receives state [i], records without a state are
    kept. *)
Definition merged_lines (records : list LineRecord.t)
    (lines : list LineState.t) : list LineRecord.t :=
  imap (λ i record,
          match lines !! i with
          | Some line => LineRecord.plus_assign record line
          | None => record
          end) records.

(** State of the records while the loop runs: the states [lines] are
    merged at the indices [i], [i+1], ... *)
Definition merged_from (i : nat) (records : list LineRecord.t)
    (lines : list LineState.t) : list LineRecord.t :=
  imap (λ j record,
          if bool_decide (i ≤ j)%nat then
            match lines !! (j - i)%nat with
            | Some line => LineRecord.plus_assign record line
            | None => record
            end
          else record) records.

(** The function after a frame has been merged into it. *)
Definition merged_function (frame : FrameState.t) (function : Function.t)
    : Function.t :=
  Function.mk
    (BaseFunction.add_elapsed_internal (FrameState.internal frame)
       (Function.base function))
    (Function.code_ function)
    (merged_lines (Function.lines_ function) (FrameState.lines frame)).

(** Flushing several popped frames one after the other. *)
Fixpoint flush_all (frames : list FrameState.t) (m : ModuleState)
    : outcome ModuleState :=
  match frames with
  | [] => Done m
  | frame :: frames' => let* m := flush_frame frame m in flush_all frames' m
  end.

(** The sum over the lines of internal plus external time. *)
Definition observed_time (lines : list LineState.t) : duration :=
  foldr (λ line sum, LineState.internal_ line + LineState.external_ line + sum)
        0 lines.

(** The state an outcome ends in, when there is one. *)
Definition final_state {S : Type} (r : outcome S) : option S :=
  match r with
  | Done s | Throw _ s => Some s
  | Undefined => None
  end.

(** The keys of the two registries. *)
Definition registry_keys (m : ModuleState) : gset Z * gset string :=
  (dom (functions_ m), dom (c_functions_ m)).

(** The line numbers of a frame fit in [size_t]: its starting line, its
    cursor, and the number of its last line. *)
Definition representable (fr : FrameState.t) : Prop :=
  0 ≤ FrameState.starting_line_ fr ∧
  0 ≤ FrameState.current_line_ fr < 2 ^ 64 ∧
  FrameState.starting_line_ fr + Z.of_nat (length (FrameState.lines fr))
    < 2 ^ 64.

(** ** A sample session

    Callable [g] (code object at 8192, source lines 20 to 23) calls [f]
    (code object at 4096, source lines 10 to 12) from its line 22; [f]
    calls the native [len] from its line 11. *)

Definition source_f : list string :=
  ["def f(x):"; "    n = len(x)"; "    return n"].

Definition source_g : list string :=
  ["def g(x):"; "    y = x"; "    z = f(y)"; "    return z"].

Definition frame_f (lineno : Z) : PyFrameObject :=
  {| f_code := 4096; f_lineno := lineno; co_name := "f";
     getsourcelines := Some (source_f, 10) |}.

Definition frame_g (lineno : Z) : PyFrameObject :=
  {| f_code := 8192; f_lineno := lineno; co_name := "g";
     getsourcelines := Some (source_g, 20) |}.

Definition len_arg : PyObject :=
  {| module__ := "builtins"; qualname__ := "len" |}.

Definition event (h : Hook) (t_in t_out : Z) (w : What)
    (fr : PyFrameObject) : Event :=
  {| hook := h; now_in := t_in; now_out := t_out; what := w; frame := fr;
     arg := len_arg |}.

(** [g] is entered, reaches line 22 and calls [f]. *)
Definition session_enter : list Event :=
  [ event SetProfile 100 102 PyTrace_CALL (frame_g 20);
    event SetTrace 110 111 PyTrace_LINE (frame_g 21);
    event SetTrace 120 121 PyTrace_LINE (frame_g 22);
    event SetProfile 130 132 PyTrace_CALL (frame_f 10);
    event SetTrace 140 141 PyTrace_LINE (frame_f 11) ].

(** [f] calls [len], which returns; [f] reaches line 12 and returns. *)
Definition session_native : list Event :=
  [ event SetProfile 150 152 PyTrace_C_CALL (frame_f 11);
    event SetProfile 160 161 PyTrace_C_RETURN (frame_f 11);
    event SetTrace 170 171 PyTrace_LINE (frame_f 12);
    event SetProfile 180 181 PyTrace_RETURN (frame_f 12) ].

(** Back in [g], which reaches line 23 and returns. *)
Definition session_leave : list Event :=
  [ event SetTrace 190 191 PyTrace_LINE (frame_g 23);
    event SetProfile 200 201 PyTrace_RETURN (frame_g 23);
    event SetTrace 210 211 PyTrace_LINE (frame_g 23) ].

(** The state in which an outcome ends, [Module_init] when undefined. *)
Definition state_of (r : outcome ModuleState) : ModuleState :=
  match final_state r with
  | Some m => m
  | None => Module_init
  end.

Definition after_enter : ModuleState :=
  Eval vm_compute in state_of (run session_enter (start Module_init)).

Definition after_native : ModuleState :=
  Eval vm_compute in state_of (run session_native after_enter).

Definition after_leave : ModuleState :=
  Eval vm_compute in state_of (run session_leave after_native).

Definition after_c_call : ModuleState :=
  Eval vm_compute in
    state_of (profile 150 152 PyTrace_C_CALL (frame_f 11) len_arg after_enter).

(** The top frame, the frames under it, and the current line of the top
    frame, with defaults for an empty stack. *)
Definition top_of (m : ModuleState) : FrameState.t :=
  hd (FrameState.make 0 0 0) (frame_stack_ m).

Definition rest_of (m : ModuleState) : list FrameState.t :=
  tl (frame_stack_ m).


Definition function_of (code : Z) (m : ModuleState) : Function.t :=
  default (Function.make "" [] code) (functions_ m !! code).

(** ** The steps as relations

    [finished m m'] lists the ways in which the Finish phase takes [m] to
    [m'] when it completes, [begun what frame arg m m'] those of the Begin
    phase.  [finish_Done_inv] and [begin_Done_inv] below show that they
    cover [finish] and [begin]. *)

(** The kinds whose Finish step does nothing, and the kinds that a Begin
    step can record. *)
Definition finishes_nothing (k : Instruction) : Prop :=
  match k with
  | kOrigin | kException | kCException | kInvalid => True
  | _ => False
  end.

Definition recordable (k : Instruction) : Prop :=
  match k with
  | kLine | kCall | kReturn | kCCall | kCReturn => True
  | _ => False
  end.

Inductive finished (frame : PyFrameObject) (m : ModuleState)
    : ModuleState → Prop :=
  | finished_nothing :
      finishes_nothing (last_instruction_ m) →
      finished frame m m
  | finished_line_empty :
      last_instruction_ m = kLine → frame_stack_ m = [] →
      finished frame m m
  | finished_line top rest line :
      last_instruction_ m = kLine → frame_stack_ m = top :: rest →
      FrameState.current_line top = Some line →
      finished frame m
        (with_frame_stack
           (FrameState.set_current (LineState.add_internal (elapsed m) line)
              top :: rest) m)
  | finished_call function :
      last_instruction_ m = kCall →
      functions_ m !! f_code frame = Some function →
      finished frame m
        (with_functions
           (<[f_code frame :=
                Function.add_elapsed_internal (elapsed m) function]>
              (functions_ m)) m)
  | finished_return_last top function :
      last_instruction_ m = kReturn → frame_stack_ m = [top] →
      functions_ m !! FrameState.key top = Some function →
      (length (FrameState.lines top) ≤ Function.n_lines function)%nat →
      finished frame m
        (with_frame_stack []
           (with_functions
              (<[FrameState.key top :=
                   merged_function
                     (FrameState.add_internal (elapsed m) top) function]>
                 (functions_ m)) m))
  | finished_return top caller rest function line :
      last_instruction_ m = kReturn →
      frame_stack_ m = top :: caller :: rest →
      functions_ m !! FrameState.key top = Some function →
      (length (FrameState.lines top) ≤ Function.n_lines function)%nat →
      FrameState.current_line caller = Some line →
      finished frame m
        (with_frame_stack
           (FrameState.set_current
              (LineState.add_external
                 (observed_time (FrameState.lines top)) line) caller :: rest)
           (with_functions
              (<[FrameState.key top :=
                   merged_function
                     (FrameState.add_internal (elapsed m) top) function]>
                 (functions_ m)) m))
  | finished_ccall c_function top rest line :
      last_instruction_ m = kCCall →
      c_functions_ m !! last_c_name_ m = Some c_function →
      frame_stack_ m = top :: rest →
      FrameState.current_line top = Some line →
      finished frame m
        (with_frame_stack
           (FrameState.set_current (LineState.add_external (elapsed m) line)
              top :: rest)
           (with_c_functions
              (<[last_c_name_ m :=
                   BaseFunction.add_elapsed_internal (elapsed m) c_function]>
                 (c_functions_ m)) m))
  | finished_creturn top rest :
      last_instruction_ m = kCReturn → frame_stack_ m = top :: rest →
      finished frame m
        (with_frame_stack
           (FrameState.add_internal (elapsed m) top :: rest) m).

Inductive begun (frame : PyFrameObject) (arg : PyObject) (m : ModuleState)
    : What → ModuleState → Prop :=
  | begun_line_empty :
      frame_stack_ m = [] →
      begun frame arg m PyTrace_LINE (with_last_instruction kLine m)
  | begun_line top rest line :
      frame_stack_ m = top :: rest →
      FrameState.current_line
        (FrameState.move_to (to_size_t (f_lineno frame)) top) = Some line →
      begun frame arg m PyTrace_LINE
        (with_frame_stack
           (FrameState.set_current (LineState.add_call line)
              (FrameState.move_to (to_size_t (f_lineno frame)) top) :: rest)
           (with_last_instruction kLine m))
  | begun_call lines starting_line :
      get_lines frame = Some (lines, starting_line) →
      begun frame arg m PyTrace_CALL
        (with_last_instruction kCall
           (with_frame_stack
              (FrameState.make (f_code frame) (length lines) starting_line
                 :: frame_stack_ m)
              (with_functions
                 (alter Function.add_call (f_code frame)
                    (match functions_ m !! f_code frame with
                     | Some _ => functions_ m
                     | None =>
                       <[f_code frame :=
                           Function.make (co_name frame) lines (f_code frame)]>
                         (functions_ m)
                     end)) m)))
  | begun_return :
      begun frame arg m PyTrace_RETURN (with_last_instruction kReturn m)
  | begun_c_call :
      begun frame arg m PyTrace_C_CALL
        (with_last_instruction kCCall
           (with_c_functions
              (alter BaseFunction.add_call (c_call_name arg)
                 (match c_functions_ m !! c_call_name arg with
                  | Some _ => c_functions_ m
                  | None =>
                    <[c_call_name arg := BaseFunction.make (c_call_name arg)]>
                      (c_functions_ m)
                  end))
              (with_last_c_name (c_call_name arg) m)))
  | begun_c_return :
      begun frame arg m PyTrace_C_RETURN (with_last_instruction kCReturn m)
  | begun_c_exception :
      begun frame arg m PyTrace_C_EXCEPTION (with_last_instruction kCReturn m)
  | begun_exception : begun frame arg m PyTrace_EXCEPTION m
  | begun_opcode : begun frame arg m PyTrace_OPCODE m.

(** ** Time totals *)

Definition line_times (l : LineState.t) : duration * duration :=
  (LineState.internal_ l, LineState.external_ l).

Definition frame_times (fr : FrameState.t)
    : duration * list (duration * duration) :=
  (FrameState.internal fr, line_times <$> FrameState.lines fr).

Definition function_times (f : Function.t)
    : duration * list (duration * duration) :=
  (BaseFunction.internal_time_ (Function.base f),
   (λ r, line_times (LineRecord.state r)) <$> Function.lines_ f).

(** Every time accumulator of the module: those of the functions and
    their line records, of the native functions, and of the frames and
    their line states. *)
Definition time_totals (m : ModuleState) :=
  (function_times <$> functions_ m,
   BaseFunction.internal_time_ <$> c_functions_ m,
   frame_times <$> frame_stack_ m).

Definition is_exception (w : What) : Prop :=
  w = PyTrace_EXCEPTION ∨ w = PyTrace_C_EXCEPTION.

(** "The interval ending at an exception event is added nowhere." *)
Definition exception_ending_unattributed : Prop :=
  ∀ t_in t_out w fr a m m',
    is_exception w →
    profile t_in t_out w fr a m = Done m' →
    time_totals m' = time_totals m.

(** "The interval beginning at an exception event is added nowhere." *)
Definition exception_beginning_unattributed : Prop :=
  ∀ t_in t_out w fr a m m' t_next fr' m'',
    is_exception w →
    profile t_in t_out w fr a m = Done m' →
    finish fr' (with_last_instruction_end t_next m') = Done m'' →
    time_totals m'' = time_totals m'.

(** [len] raises: the session after the native call of [after_c_call]. *)
Definition after_c_exception : ModuleState :=
  Eval vm_compute in
    state_of
      (profile 160 161 PyTrace_C_EXCEPTION (frame_f 11) len_arg after_c_call).

(** ** Counters over a session *)

Definition calls_sum (ls : list LineState.t) : Z :=
  foldr (λ l s, LineState.n_calls_ l + s) 0 ls.

Definition record_calls_sum (rs : list LineRecord.t) : Z :=
  foldr (λ r s, LineState.n_calls_ (LineRecord.state r) + s) 0 rs.

(** Line hits still held by the frames of callable [k] on the stack. *)
Definition stack_calls (k : Z) (st : list FrameState.t) : Z :=
  foldr (λ fr s,
           (if decide (FrameState.key fr = k)
            then calls_sum (FrameState.lines fr) else 0) + s) 0 st.

(** Line hits already merged into the records of callable [k]. *)
Definition registered_calls (k : Z) (m : ModuleState) : Z :=
  match functions_ m !! k with
  | Some f => record_calls_sum (Function.lines_ f)
  | None => 0
  end.

Definition line_le (a b : LineState.t) : Prop :=
  LineState.n_calls_ a ≤ LineState.n_calls_ b ∧
  LineState.internal_ a ≤ LineState.internal_ b ∧
  LineState.external_ a ≤ LineState.external_ b.

Definition record_le (a b : LineRecord.t) : Prop :=
  LineRecord.text a = LineRecord.text b ∧
  line_le (LineRecord.state a) (LineRecord.state b).

Definition base_le (a b : BaseFunction.t) : Prop :=
  BaseFunction.n_calls_ a ≤ BaseFunction.n_calls_ b ∧
  BaseFunction.internal_time_ a ≤ BaseFunction.internal_time_ b.

Definition function_le (f f' : Function.t) : Prop :=
  base_le (Function.base f) (Function.base f') ∧
  Forall2 record_le (Function.lines_ f) (Function.lines_ f').

(** Every function, native function and line record of [m] is still in
    [m'], with a call count and time accumulators that are not smaller. *)
Definition stats_le (m m' : ModuleState) : Prop :=
  (∀ k f, functions_ m !! k = Some f →
          ∃ f', functions_ m' !! k = Some f' ∧ function_le f f') ∧
  (∀ k c, c_functions_ m !! k = Some c →
          ∃ c', c_functions_ m' !! k = Some c' ∧ base_le c c').

Definition line_ok (l : LineState.t) : Prop :=
  0 ≤ LineState.n_calls_ l ∧ 0 ≤ LineState.internal_ l ∧
  0 ≤ LineState.external_ l.

Definition frame_ok (fr : FrameState.t) : Prop :=
  0 ≤ FrameState.internal fr ∧ Forall line_ok (FrameState.lines fr).

Definition record_ok (r : LineRecord.t) : Prop :=
  0 ≤ LineState.n_calls_ (LineRecord.state r).

(** What holds of the counters after at most [n] processed events. *)
Record counters_inv (n : Z) (m : ModuleState) : Prop := {
  inv_frames : Forall frame_ok (frame_stack_ m);
  inv_functions : ∀ k f,
    functions_ m !! k = Some f →
    0 ≤ BaseFunction.n_calls_ (Function.base f) ≤ n ∧
    Forall record_ok (Function.lines_ f);
  inv_c_functions : ∀ k c,
    c_functions_ m !! k = Some c → 0 ≤ BaseFunction.n_calls_ c ≤ n;
  inv_lines : ∀ k,
    registered_calls k m + stack_calls k (frame_stack_ m) ≤ n;
}.

(** The clock readings of the events do not go back, from [t] on. *)
Fixpoint clock_from (t : Z) (evs : list Event) : Prop :=
  match evs with
  | [] => True
  | ev :: evs' =>
    t ≤ now_in ev ∧ now_in ev ≤ now_out ev ∧ clock_from (now_out ev) evs'
  end.

(** No interval measured from state [m] up to time [t] is negative. *)
Definition clock_inv (t : Z) (m : ModuleState) : Prop :=
  finishes_nothing (last_instruction_ m) ∨ last_instruction_start_ m ≤ t.

(** ** The ledger of a session

    What the attribution rules charge to each frame, computed from the
    kinds and clock readings of the events alone.  A frame is a pair: the
    time charged to its lines and the time charged to its overhead. *)

Record Ledger : Type := {
  ledger_last : Instruction;
  ledger_start : Z;
  ledger_frames : list (duration * duration);
}.

(** Finish, at time [now]: the interval since [ledger_start] goes to the
    lines of the top frame after a Line or a NativeCall, to its overhead
    after a NativeReturn; after a Return the top frame goes and the time
    charged to its lines (not its overhead) is charged to the lines of its
    caller; after a Call, and after anything else, no frame is charged. *)
Definition ledger_finish (now : Z) (a : Ledger) : list (duration * duration) :=
  let d := now - ledger_start a in
  match ledger_last a, ledger_frames a with
  | kLine, (l, o) :: rest => (l + d, o) :: rest
  | kCCall, (l, o) :: rest => (l + d, o) :: rest
  | kCReturn, (l, o) :: rest => (l, o + d) :: rest
  | kReturn, [_] => []
  | kReturn, (l, _) :: (l', o') :: rest => (l' + l, o') :: rest
  | _, frames => frames
  end.

(** Begin: a Call pushes a frame charged with nothing. *)
Definition ledger_begin (w : What) (last : Instruction)
    (frames : list (duration * duration))
    : Instruction * list (duration * duration) :=
  match w with
  | PyTrace_CALL => (kCall, (0, 0) :: frames)
  | PyTrace_LINE => (kLine, frames)
  | PyTrace_RETURN => (kReturn, frames)
  | PyTrace_C_CALL => (kCCall, frames)
  | PyTrace_C_RETURN | PyTrace_C_EXCEPTION => (kCReturn, frames)
  | _ => (last, frames)
  end.

(** The events that reach [profile]: all those of the profile hook, the
    Line events of the trace hook. *)
Definition processed (ev : Event) : bool :=
  match hook ev, what ev with
  | SetProfile, _ => true
  | SetTrace, PyTrace_LINE => true
  | SetTrace, _ => false
  end.

Definition ledger_event (a : Ledger) (ev : Event) : Ledger :=
  if processed ev then
    let begun :=
      ledger_begin (what ev) (ledger_last a) (ledger_finish (now_in ev) a) in
    {| ledger_last := begun.1; ledger_start := now_out ev;
       ledger_frames := begun.2 |}
  else a.

Definition ledger_init : Ledger :=
  {| ledger_last := kOrigin; ledger_start := 0; ledger_frames := [] |}.

Definition ledger (evs : list Event) : Ledger :=
  foldl ledger_event ledger_init evs.

(** What a frame holds: the sum over its lines, and its overhead. *)
Definition frame_account (fr : FrameState.t) : duration * duration :=
  (observed_time (FrameState.lines fr), FrameState.internal fr).

Definition ledger_of (m : ModuleState) : Ledger :=
  {| ledger_last := last_instruction_ m;
     ledger_start := last_instruction_start_ m;
     ledger_frames := frame_account <$> frame_stack_ m |}.

(** The frame that the Finish phase of an event arriving at [now] pops,
    as [pop_frame] finds it on top of the stack. *)
Definition popped_frame (now : Z) (m : ModuleState) : option FrameState.t :=
  match last_instruction_ m, frame_stack_ m with
  | kReturn, top :: _ =>
    Some (FrameState.add_internal (now - last_instruction_start_ m) top)
  | _, _ => None
  end.

(** "The popped frame's line times plus its overhead are the span between
    its Call and its Return", for an invocation [call], [body], [ret] that
    makes no managed call, in a session whose dispatch takes no time. *)
Definition frame_time_is_call_return_span : Prop :=
  ∀ pre call body ret t_next m fr,
    hook call = SetProfile → what call = PyTrace_CALL →
    Forall (λ ev, what ev ≠ PyTrace_CALL ∧ what ev ≠ PyTrace_RETURN) body →
    hook ret = SetProfile → what ret = PyTrace_RETURN →
    Forall (λ ev, now_in ev = now_out ev) (pre ++ call :: body ++ [ret]) →
    now_out ret ≤ t_next →
    run (pre ++ call :: body ++ [ret]) (start Module_init) = Done m →
    popped_frame t_next m = Some fr →
    observed_time (FrameState.lines fr) + FrameState.internal fr =
    now_in ret - now_in call.

(** One call of [f], timed without dispatch overhead: the Call at 100,
    lines 11 and 12 at 110 and 120, the Return at 150. *)
Definition span_call : Event :=
  event SetProfile 100 100 PyTrace_CALL (frame_f 10).

Definition span_body : list Event :=
  [ event SetTrace 110 110 PyTrace_LINE (frame_f 11);
    event SetTrace 120 120 PyTrace_LINE (frame_f 12) ].

Definition span_return : Event :=
  event SetProfile 150 150 PyTrace_RETURN (frame_f 12).

Definition after_span : ModuleState :=
  Eval vm_compute in
    state_of (run (span_call :: span_body ++ [span_return])
                (start Module_init)).

(** Reduce the field projections of an updated module, and nothing else. *)
Ltac fields :=
  cbn [functions_ c_functions_ frame_stack_ last_instruction_
       last_instruction_start_ last_instruction_end_ last_c_name_
       with_functions with_c_functions with_frame_stack
       with_last_instruction with_last_instruction_start
       with_last_instruction_end with_last_c_name] in *.

(** ** The call nesting of a session

    The codes of the calls that are open after a list of events, innermost
    first, computed from the events alone: a processed Call event opens a
    call of its code, and the first event processed after a Return closes
    the innermost one. *)

Record Nesting : Type := {
  nesting_last : Instruction;
  nesting_codes : list Z;
}.

(** The kind that the Begin phase records for an event. *)
Definition kind_begun (w : What) (last : Instruction) : Instruction :=
  match w with
  | PyTrace_CALL => kCall
  | PyTrace_LINE => kLine
  | PyTrace_RETURN => kReturn
  | PyTrace_C_CALL => kCCall
  | PyTrace_C_RETURN | PyTrace_C_EXCEPTION => kCReturn
  | _ => last
  end.

Definition nesting_event (a : Nesting) (ev : Event) : Nesting :=
  if processed ev then
    let codes :=
      match nesting_last a with
      | kReturn => tail (nesting_codes a)
      | _ => nesting_codes a
      end in
    {| nesting_last := kind_begun (what ev) (nesting_last a);
       nesting_codes :=
         match what ev with
         | PyTrace_CALL => f_code (frame ev) :: codes
         | _ => codes
         end |}
  else a.

Definition nesting_init : Nesting :=
  {| nesting_last := kOrigin; nesting_codes := [] |}.

Definition nesting (evs : list Event) : Nesting :=
  foldl nesting_event nesting_init evs.

Definition nesting_of (m : ModuleState) : Nesting :=
  {| nesting_last := last_instruction_ m;
     nesting_codes := FrameState.key <$> frame_stack_ m |}.

(** ** Call counts of a session *)

#[global] Instance What_eq_dec : EqDecision What.
Proof. solve_decision. Defined.

(** A Call event for code [k] that reaches the engine. *)
Definition is_call_of (k : Z) (ev : Event) : bool :=
  match hook ev, what ev with
  | SetProfile, PyTrace_CALL => bool_decide (f_code (frame ev) = k)
  | _, _ => false
  end.

(** A NativeCall event for the name [name] that reaches the engine. *)
Definition is_c_call_of (name : string) (ev : Event) : bool :=
  match hook ev, what ev with
  | SetProfile, PyTrace_C_CALL => bool_decide (c_call_name (arg ev) = name)
  | _, _ => false
  end.

Definition count_events (p : Event → bool) (evs : list Event) : Z :=
  foldr (λ ev n, if p ev then n + 1 else n) 0 evs.

(** The stored call count of code [k], 0 when it is not registered. *)
Definition function_calls (k : Z) (m : ModuleState) : Z :=
  match functions_ m !! k with
  | Some f => BaseFunction.n_calls_ (Function.base f)
  | None => 0
  end.

Definition c_function_calls (name : string) (m : ModuleState) : Z :=
  match c_functions_ m !! name with
  | Some c => BaseFunction.n_calls_ c
  | None => 0
  end.

(** ** What identifies a function *)

Definition same_identity (f f' : Function.t) : Prop :=
  BaseFunction.name_ (Function.base f) = BaseFunction.name_ (Function.base f') ∧
  Function.code_ f = Function.code_ f' ∧
  LineRecord.text <$> Function.lines_ f = LineRecord.text <$> Function.lines_ f'.

(** The code of [f] is called again after the sample session, the host
    now answering with another name and another body. *)
Definition frame_f_edited (lineno : Z) : PyFrameObject :=
  {| f_code := 4096; f_lineno := lineno; co_name := "f_edited";
     getsourcelines := Some (["def f(x):"; "    return len(x)"], 10) |}.

Definition session_again : list Event :=
  [ event SetProfile 220 221 PyTrace_CALL (frame_f_edited 10);
    event SetTrace 230 231 PyTrace_LINE (frame_f_edited 11) ].

Definition after_again : ModuleState :=
  Eval vm_compute in state_of (run session_again after_leave).

(** ** Well-formed registries *)

Definition count_in_range (n : Z) : Prop := 0 ≤ n < 2 ^ 64.

(** Every entry is stored under its own identity, and every call count is
    a [size_t] value. *)
Definition registry_wf (m : ModuleState) : Prop :=
  (∀ k f, functions_ m !! k = Some f →
          Function.code_ f = k ∧
          count_in_range (BaseFunction.n_calls_ (Function.base f)) ∧
          Forall (λ r, count_in_range (LineState.n_calls_ (LineRecord.state r)))
                 (Function.lines_ f)) ∧
  (∀ k c, c_functions_ m !! k = Some c →
          BaseFunction.name_ c = k ∧
          count_in_range (BaseFunction.n_calls_ c)).

(** ** Line hits of a session *)

Definition is_line (w : What) : bool :=
  match w with
  | PyTrace_LINE => true
  | _ => false
  end.

(** The Line events that reach the engine while a call of code [k] is the
    innermost open call, counted along the call nesting. *)
Definition hits_event (k : Z) (acc : Nesting * Z) (ev : Event)
    : Nesting * Z :=
  let a := nesting_event acc.1 ev in
  (a,
   if processed ev && is_line (what ev)
      && bool_decide (head (nesting_codes a) = Some k)
   then acc.2 + 1 else acc.2).

Definition line_hits (k : Z) (evs : list Event) : Z :=
  (foldl (hits_event k) (nesting_init, 0) evs).2.

(** The line hits of callable [k] that the module holds: those merged into
    its line records and those still in its frames on the stack. *)
Definition held_hits (k : Z) (m : ModuleState) : Z :=
  registered_calls k m + stack_calls k (frame_stack_ m).

Definition hits_nonneg (ls : list LineState.t) : Prop :=
  Forall (λ l, 0 ≤ LineState.n_calls_ l) ls.

(** What holds of the hit counts after at most [n] processed events. *)
Record hits_inv (n : Z) (m : ModuleState) : Prop := {
  hits_frames :
    Forall (λ fr, hits_nonneg (FrameState.lines fr)) (frame_stack_ m);
  hits_functions : ∀ k f,
    functions_ m !! k = Some f → Forall record_ok (Function.lines_ f);
  hits_bound : ∀ k, held_hits k m ≤ n;
}.

(** ** The intervals of a session

    What decides where the interval that ends at an event is charged: the
    call nesting and the kind recorded before the event, the reading taken
    at the end of the previous processed event, and the name remembered
    from the last NativeCall. *)

#[global] Instance Instruction_eq_dec : EqDecision Instruction.
Proof. solve_decision. Defined.

Record Timing : Type := {
  timing_nesting : Nesting;
  timing_start : Z;
  timing_c_name : string;
}.

Definition timing_event (a : Timing) (ev : Event) : Timing :=
  if processed ev then
    {| timing_nesting := nesting_event (timing_nesting a) ev;
       timing_start := now_out ev;
       timing_c_name :=
         match what ev with
         | PyTrace_C_CALL => c_call_name (arg ev)
         | _ => timing_c_name a
         end |}
  else a.

Definition timing_init : Timing :=
  {| timing_nesting := nesting_init; timing_start := 0;
     timing_c_name := EmptyString |}.

Definition timing_of (m : ModuleState) : Timing :=
  {| timing_nesting := nesting_of m;
     timing_start := last_instruction_start_ m;
     timing_c_name := last_c_name_ m |}.

(** The sum over the events of a session of what a rule [charge] takes
    from each. *)
Definition charged (charge : Timing → Event → Z) (acc : Timing * Z)
    (ev : Event) : Timing * Z :=
  (timing_event acc.1 ev, acc.2 + charge acc.1 ev).

Definition total_charged (charge : Timing → Event → Z)
    (evs : list Event) : Z :=
  (foldl (charged charge) (timing_init, 0) evs).2.

(** The interval that ends at [ev], if [ev] reaches the engine. *)
Definition interval (a : Timing) (ev : Event) : Z :=
  if processed ev then now_in ev - timing_start a else 0.

(** The native function [name] is charged the intervals that end at an
    event processed while the recorded kind is NativeCall and the
    remembered name is [name]. *)
Definition native_charge (name : string) (a : Timing) (ev : Event) : Z :=
  if bool_decide (nesting_last (timing_nesting a) = kCCall ∧
                  timing_c_name a = name)
  then interval a ev else 0.

(** The callable [k] is charged, as self time, the interval after a Call
    when the next event comes from a frame of code [k], and the intervals
    after a NativeReturn and after a Return when the innermost open call
    is a call of [k]. *)
Definition self_charge (k : Z) (a : Timing) (ev : Event) : Z :=
  match nesting_last (timing_nesting a) with
  | kCall =>
    if bool_decide (f_code (frame ev) = k) then interval a ev else 0
  | kReturn | kCReturn =>
    if bool_decide (head (nesting_codes (timing_nesting a)) = Some k)
    then interval a ev else 0
  | _ => 0
  end.

(** The self time of native function [name], 0 when it is not registered. *)
Definition c_function_time (name : string) (m : ModuleState) : Z :=
  match c_functions_ m !! name with
  | Some c => BaseFunction.internal_time_ c
  | None => 0
  end.

Definition function_time (k : Z) (m : ModuleState) : Z :=
  match functions_ m !! k with
  | Some f => BaseFunction.internal_time_ (Function.base f)
  | None => 0
  end.

(** The overhead held by the frames of callable [k] on the stack. *)
Definition stack_overhead (k : Z) (st : list FrameState.t) : Z :=
  foldr (λ fr s,
           (if decide (FrameState.key fr = k)
            then FrameState.internal fr else 0) + s) 0 st.

(** The self time held for callable [k]: its aggregate and the overhead
    of its frames that are still on the stack. *)
Definition held_self_time (k : Z) (m : ModuleState) : Z :=
  function_time k m + stack_overhead k (frame_stack_ m).

(** A frame of [f] for which the host cannot find the source. *)
Definition frame_f_no_source : PyFrameObject :=
  {| f_code := 4096; f_lineno := 10; co_name := "f";
     getsourcelines := None |}.

(** * Properties *)

(** ** Arithmetic of [size_t] *)

Lemma to_size_t_range z : 0 ≤ to_size_t z < 2 ^ 64.
Proof. unfold to_size_t. apply Z.mod_pos_bound. lia. Qed.

Lemma to_size_t_small z : 0 ≤ z < 2 ^ 64 → to_size_t z = z.
Proof. intros. unfold to_size_t. by apply Z.mod_small. Qed.

Lemma to_size_t_add_l a b : to_size_t (to_size_t a + b) = to_size_t (a + b).
Proof. unfold to_size_t. by rewrite Zplus_mod_idemp_l. Qed.

Lemma to_size_t_add_r a b : to_size_t (a + to_size_t b) = to_size_t (a + b).
Proof. unfold to_size_t. by rewrite Zplus_mod_idemp_r. Qed.

(** ** The merge algebra *)

Lemma LineState_plus_assign_comm a b :
  LineState.plus_assign a b = LineState.plus_assign b a.
Proof. unfold LineState.plus_assign. f_equal; [f_equal|..]; lia. Qed.

Lemma LineState_plus_assign_assoc a b c :
  LineState.plus_assign (LineState.plus_assign a b) c =
  LineState.plus_assign a (LineState.plus_assign b c).
Proof.
  unfold LineState.plus_assign; simpl.
  rewrite to_size_t_add_l, to_size_t_add_r. f_equal; [f_equal|..]; lia.
Qed.

Lemma LineRecord_plus_assign_swap r a b :
  LineRecord.plus_assign (LineRecord.plus_assign r a) b =
  LineRecord.plus_assign (LineRecord.plus_assign r b) a.
Proof.
  unfold LineRecord.plus_assign; simpl. f_equal.
  rewrite !LineState_plus_assign_assoc. f_equal.
  apply LineState_plus_assign_comm.
Qed.

(** ** The loop of [pop_frame] *)

Lemma merged_lines_length records lines :
  length (merged_lines records lines) = length records.
Proof. unfold merged_lines. by rewrite length_imap. Qed.

Lemma merged_lines_lookup records lines i :
  merged_lines records lines !! i =
  (λ record, match lines !! i with
             | Some line => LineRecord.plus_assign record line
             | None => record
             end) <$> records !! i.
Proof. unfold merged_lines. by rewrite list_lookup_imap. Qed.

Lemma merged_from_nil i records : merged_from i records [] = records.
Proof.
  apply list_eq; intros j. unfold merged_from. rewrite list_lookup_imap.
  destruct (records !! j) as [r|]; simpl; [|done].
  case_bool_decide; [|done]. by destruct (j - i)%nat.
Qed.

Lemma merged_from_0 records lines :
  merged_from 0 records lines = merged_lines records lines.
Proof.
  apply list_eq; intros j. unfold merged_from, merged_lines.
  rewrite !list_lookup_imap.
  destruct (records !! j) as [r|]; simpl; [|done].
  by rewrite Nat.sub_0_r.
Qed.

Lemma merged_from_step i records r line lines :
  records !! i = Some r →
  merged_from (S i) (<[i := LineRecord.plus_assign r line]> records) lines =
  merged_from i records (line :: lines).
Proof.
  intros Hr. apply list_eq; intros j. unfold merged_from.
  rewrite !list_lookup_imap.
  destruct (decide (j = i)) as [->|Hne].
  - rewrite list_lookup_insert_eq by (by eapply lookup_lt_Some).
    rewrite Hr; simpl.
    rewrite bool_decide_false by lia. rewrite bool_decide_true by lia.
    by rewrite Nat.sub_diag.
  - rewrite list_lookup_insert_ne by done.
    destruct (records !! j) as [r'|]; simpl; [|done].
    destruct (decide (i < j)%nat).
    + rewrite !bool_decide_true by lia.
      replace (j - i)%nat with (S (j - S i)) by lia. done.
    + by rewrite !bool_decide_false by lia.
Qed.

(** The loop merges by index; it throws exactly when the frame has more
    line states than the function has records left, after merging those
    that fit. *)
Lemma merge_lines_closed lines : ∀ i function,
  (i ≤ Function.n_lines function)%nat →
  merge_lines i lines function =
  (if bool_decide (i + length lines ≤ Function.n_lines function)%nat
   then Done else Throw out_of_range)
    (Function.mk (Function.base function) (Function.code_ function)
       (merged_from i (Function.lines_ function) lines)).
Proof.
  induction lines as [|line lines IH]; intros i [b c records] Hi;
    unfold Function.n_lines in *; simpl in *.
  - rewrite bool_decide_true by lia. by rewrite merged_from_nil.
  - unfold Function.line; simpl.
    destruct (records !! i) as [r|] eqn:Hr.
    + pose proof (lookup_lt_Some _ _ _ Hr) as Hlt.
      rewrite IH by (simpl; rewrite length_insert; lia). simpl.
      rewrite length_insert, merged_from_step by done.
      by replace (i + S (length lines))%nat with (S (i + length lines)) by lia.
    + pose proof (lookup_ge_None_1 _ _ Hr) as Hge.
      rewrite bool_decide_false by lia. do 2 f_equal. symmetry.
      apply list_eq; intros j. unfold merged_from. rewrite list_lookup_imap.
      destruct (records !! j) as [r'|] eqn:Hj; simpl; [|done].
      apply lookup_lt_Some in Hj. by rewrite bool_decide_false by lia.
Qed.

Lemma flush_frame_closed frame m function :
  functions_ m !! FrameState.key frame = Some function →
  flush_frame frame m =
  (if bool_decide (length (FrameState.lines frame) ≤ Function.n_lines function)%nat
   then Done else Throw out_of_range)
    (with_functions
       (<[FrameState.key frame := merged_function frame function]>
          (functions_ m)) m).
Proof.
  intros Hf. unfold flush_frame. rewrite Hf.
  rewrite merge_lines_closed by (simpl; lia).
  unfold Function.n_lines, merged_function. simpl.
  rewrite merged_from_0. by case_bool_decide.
Qed.

Lemma flush_frame_Done_inv frame m m' :
  flush_frame frame m = Done m' →
  ∃ function,
    functions_ m !! FrameState.key frame = Some function ∧
    (length (FrameState.lines frame) ≤ Function.n_lines function)%nat ∧
    m' = with_functions
           (<[FrameState.key frame := merged_function frame function]>
              (functions_ m)) m.
Proof.
  intros H. destruct (functions_ m !! FrameState.key frame) as [f|] eqn:Hf.
  - rewrite (flush_frame_closed _ _ _ Hf) in H. case_bool_decide; [|done].
    exists f. by inversion H.
  - unfold flush_frame in H. by rewrite Hf in H.
Qed.

Lemma merged_function_swap a b function :
  merged_function b (merged_function a function) =
  merged_function a (merged_function b function).
Proof.
  unfold merged_function; simpl. f_equal.
  - unfold BaseFunction.add_elapsed_internal; simpl. f_equal. lia.
  - apply list_eq; intros j. rewrite !merged_lines_lookup.
    destruct (Function.lines_ function !! j) as [r|]; simpl; [|done].
    destruct (FrameState.lines a !! j), (FrameState.lines b !! j); try done.
    by rewrite LineRecord_plus_assign_swap.
Qed.

Lemma merged_function_n_lines frame function :
  Function.n_lines (merged_function frame function) = Function.n_lines function.
Proof. unfold Function.n_lines; simpl. apply merged_lines_length. Qed.

(** Two consecutive flushes commute, for the same callable or not. *)
Lemma flush_frame_swap a b m m1 m2 :
  flush_frame a m = Done m1 → flush_frame b m1 = Done m2 →
  ∃ m1', flush_frame b m = Done m1' ∧ flush_frame a m1' = Done m2.
Proof.
  intros Ha Hb.
  apply flush_frame_Done_inv in Ha as (fa & Hfa & Hla & ->).
  apply flush_frame_Done_inv in Hb as (fb & Hfb & Hlb & ->).
  simpl in Hfb.
  destruct (decide (FrameState.key a = FrameState.key b)) as [Heq|Hne].
  - rewrite Heq in Hfa, Hfb. rewrite lookup_insert_eq in Hfb.
    inversion Hfb; subst fb; clear Hfb.
    rewrite merged_function_n_lines in Hlb.
    eexists. split.
    + rewrite (flush_frame_closed b m fa Hfa). by rewrite bool_decide_true.
    + rewrite (flush_frame_closed a _ (merged_function b fa))
        by (simpl; rewrite Heq; apply lookup_insert_eq).
      rewrite merged_function_n_lines, bool_decide_true by done.
      simpl. rewrite Heq, !insert_insert_eq.
      by rewrite merged_function_swap.
  - rewrite lookup_insert_ne in Hfb by done.
    eexists. split.
    + erewrite flush_frame_closed by done. by rewrite bool_decide_true.
    + erewrite flush_frame_closed
        by (simpl; rewrite lookup_insert_ne by done; done).
      rewrite bool_decide_true by done. simpl.
      by rewrite insert_insert_ne.
Qed.

Lemma flush_all_Permutation frames frames' :
  frames ≡ₚ frames' →
  ∀ m m', flush_all frames m = Done m' → flush_all frames' m = Done m'.
Proof.
  induction 1 as [|a l l' _ IH|a b l|l l' l'' _ IH1 _ IH2]; intros m m' H.
  - done.
  - simpl in *. destruct (flush_frame a m) as [m1| |]; simpl in *; eauto.
  - simpl in *.
    destruct (flush_frame b m) as [m1| |] eqn:Hb; simpl in *; try done.
    destruct (flush_frame a m1) as [m2| |] eqn:Ha; simpl in *; try done.
    destruct (flush_frame_swap _ _ _ _ _ Hb Ha) as (m1' & -> & Hab); simpl.
    by rewrite Hab.
  - eauto.
Qed.

(** C6.  [LineState::operator+=] is commutative and associative, and the
    persistent totals obtained by merging any number of popped frames
    (of the same callable or of different ones) into the registry do not
    depend on the order in which they are merged. *)
Theorem merge_commutative_associative :
  (∀ a b, LineState.plus_assign a b = LineState.plus_assign b a) ∧
  (∀ a b c,
     LineState.plus_assign (LineState.plus_assign a b) c =
     LineState.plus_assign a (LineState.plus_assign b c)) ∧
  (∀ frames frames' m m',
     frames ≡ₚ frames' →
     flush_all frames m = Done m' → flush_all frames' m = Done m').
Proof.
  split; [|split].
  - apply LineState_plus_assign_comm.
  - apply LineState_plus_assign_assoc.
  - intros. by eapply flush_all_Permutation.
Qed.

(** ** Popping a frame *)

Lemma total_time_observed frame :
  FrameState.total_time frame = observed_time (FrameState.lines frame).
Proof.
  unfold FrameState.total_time, FrameState.lines.
  assert (∀ ls acc,
    foldl (λ result line,
             result + LineState.internal_ line + LineState.external_ line)
          acc ls = acc + observed_time ls) as H.
  { intros ls. induction ls as [|l ls IH]; intros acc; simpl; [lia|].
    rewrite IH. lia. }
  rewrite H. lia.
Qed.


(** ** The reporter *)

(** Filling a dictionary entry by entry gives the image of the map, in
    whatever order the entries are visited. *)
Lemma map_fold_insert_fmap {K : Type} {HeqK : EqDecision K}
    {HcntK : Countable K} {A B : Type} (f : A → B) (m : gmap K A) :
  map_fold (λ key x dict, <[key := f x]> dict) ∅ m = f <$> m.
Proof.
  induction m as [|i x m Hi IH] using map_ind.
  - by rewrite map_fold_empty, fmap_empty.
  - rewrite map_fold_insert_L; [|by intros; apply insert_insert_ne|done].
    by rewrite IH, fmap_insert.
Qed.

Lemma function_dict_lines function :
  lines (function_dict function) =
  Some (line_dict <$> Function.lines_ function).
Proof.
  unfold function_dict; simpl. f_equal.
  assert (∀ ls acc,
    foldl (λ lines_py line, lines_py ++ [line_dict line]) acc ls =
    acc ++ (line_dict <$> ls)) as H.
  { intros ls. induction ls as [|l ls IH]; intros acc; simpl.
    - by rewrite app_nil_r.
    - by rewrite IH, <- app_assoc. }
  by rewrite H.
Qed.

(** C7.  [dump] returns the module as it received it, so that a second
    [dump] with nothing in between gives the same report; the report has
    one entry per registry entry, computed from that entry alone. *)
Theorem dump_pure_read path path' m :
  (dump path m).2 = m ∧
  (dump path' (dump path m).2).1 = (dump path m).1 ∧
  (dump path' (dump path m).2).2 = m ∧
  (dump path m).1 =
    {| functions := function_dict <$> functions_ m;
       c_functions := CreateFunctionDict <$> c_functions_ m |}.
Proof.
  split; [done|]. split; [done|]. split; [done|].
  unfold dump; simpl. by rewrite !map_fold_insert_fmap.
Qed.

(** ** Source lines *)

Lemma get_lines_loop_drop lines_py : ∀ fuel i acc,
  (length lines_py ≤ i + fuel)%nat →
  get_lines_loop lines_py fuel i acc = acc ++ drop i lines_py.
Proof.
  induction fuel as [|fuel IH]; intros i acc Hlen; simpl.
  - rewrite drop_ge by lia. by rewrite app_nil_r.
  - case_bool_decide as Hi.
    + destruct (lines_py !! i) as [line_py|] eqn:Hl.
      * rewrite IH by lia. rewrite <- app_assoc. simpl.
        by rewrite (drop_S _ _ _ Hl).
      * apply lookup_ge_None_1 in Hl. lia.
    + rewrite drop_ge by lia. by rewrite app_nil_r.
Qed.

Lemma get_lines_Some frame lines_py line_start :
  getsourcelines frame = Some (lines_py, line_start) →
  get_lines frame =
  Some (drop 1 lines_py, PyLong_AsUnsignedLongLong line_start).
Proof.
  intros H. unfold get_lines. rewrite H.
  by rewrite get_lines_loop_drop by lia.
Qed.

Lemma Function_make_lines name0 texts code :
  Function.lines_ (Function.make name0 texts code) = map LineRecord.make texts.
Proof.
  unfold Function.make; simpl.
  assert (∀ ls acc,
    foldl (λ lines_ line, lines_ ++ [LineRecord.make line]) acc ls =
    acc ++ map LineRecord.make ls) as H.
  { intros ls. induction ls as [|l ls IH]; intros acc; simpl.
    - by rewrite app_nil_r.
    - by rewrite IH, <- app_assoc. }
  by rewrite H.
Qed.

(** C10.  A call event for a callable whose source query returns
    [lines_py] pushes a frame with [length lines_py - 1] line states; on
    first sight it registers a function whose records carry the returned
    texts without the first one, record [i] holding the text of returned
    line [i+1]; and a cursor on absolute line [line_start + 1 + i] selects
    index [i]. *)
Theorem source_lines_drop_first frame lines_py line_start m :
  getsourcelines frame = Some (lines_py, line_start) →
  ∃ m' top,
    profile_call frame m = Done m' ∧
    frame_stack_ m' = top :: frame_stack_ m ∧
    FrameState.key top = f_code frame ∧
    length (FrameState.lines top) = (length lines_py - 1)%nat ∧
    (0 ≤ line_start < 2 ^ 64 → FrameState.starting_line_ top = line_start) ∧
    (∀ i : nat,
       (i < length lines_py - 1)%nat →
       0 ≤ line_start → line_start + 1 + Z.of_nat i < 2 ^ 64 →
       FrameState.current_index
         (FrameState.move_to (to_size_t (line_start + 1 + Z.of_nat i)) top) =
       Z.of_nat i) ∧
    (functions_ m !! f_code frame = None →
     ∃ function,
       functions_ m' !! f_code frame = Some function ∧
       map LineRecord.text (Function.lines_ function) = drop 1 lines_py ∧
       Function.n_lines function = (length lines_py - 1)%nat ∧
       ∀ i, LineRecord.text <$> Function.line i function = lines_py !! S i).
Proof.
  intros Hsrc. pose proof (get_lines_Some _ _ _ Hsrc) as Hgl.
  assert (∃ m1, add_function frame m = Done m1 ∧
                frame_stack_ m1 = frame_stack_ m ∧
                (functions_ m !! f_code frame = None →
                 functions_ m1 !! f_code frame =
                 Some (Function.make (co_name frame) (drop 1 lines_py)
                         (f_code frame)))) as (m1 & Hadd & Hst1 & Hnew).
  { unfold add_function.
    destruct (functions_ m !! f_code frame) eqn:Hf; [by eexists|].
    rewrite Hgl. eexists. split; [done|]. split; [done|].
    intros _. simpl. by rewrite lookup_insert_eq. }
  unfold profile_call. rewrite Hadd. simpl.
  unfold emplace_frame. rewrite Hgl. simpl.
  eexists _, _. split; [done|]. simpl. rewrite Hst1.
  split; [done|]. split; [done|].
  split.
  { unfold FrameState.lines; simpl. by rewrite length_replicate, length_drop. }
  split.
  { intros Hr. unfold PyLong_AsUnsignedLongLong.
    by rewrite bool_decide_true. }
  split.
  { intros i Hi H0 Hmax. unfold FrameState.current_index; simpl.
    unfold PyLong_AsUnsignedLongLong. rewrite bool_decide_true by lia.
    rewrite (to_size_t_small (line_start + 1 + Z.of_nat i)) by lia.
    rewrite to_size_t_small; lia. }
  intros Hfresh. specialize (Hnew Hfresh).
  eexists. split.
  { rewrite lookup_alter. rewrite decide_True by done. rewrite Hnew. done. }
  unfold Function.n_lines, Function.line, Function.add_call.
  cbn [Function.lines_]. rewrite Function_make_lines.
  split; [|split].
  - rewrite map_map. simpl. apply map_id.
  - by rewrite length_map, length_drop.
  - intros i. rewrite list_lookup_fmap, lookup_drop.
    change (1 + i)%nat with (S i). by destruct (lines_py !! S i).
Qed.

(** ** Native calls *)


Lemma profile_Done_inv now_in0 now_out0 what0 frame0 arg0 m m' :
  profile now_in0 now_out0 what0 frame0 arg0 m = Done m' →
  ∃ m1 m2,
    finish frame0 (with_last_instruction_end now_in0 m) = Done m1 ∧
    begin what0 frame0 arg0 m1 = Done m2 ∧
    m' = with_last_instruction_start now_out0 m2.
Proof.
  unfold profile.
  destruct (finish frame0 (with_last_instruction_end now_in0 m))
    as [m1| |] eqn:Hf; cbn [and_then]; try done.
  destruct (begin what0 frame0 arg0 m1) as [m2| |] eqn:Hb;
    cbn [and_then]; try done.
  intros [= <-]. by exists m1, m2.
Qed.


(** ** Registry lookups *)

Lemma dom_insert_existing {K : Type} {HeqK : EqDecision K}
    {HcntK : Countable K} {A : Type} (m : gmap K A) k v v' :
  m !! k = Some v → dom (<[k := v']> m) = dom m.
Proof.
  intros Hk. rewrite dom_insert_L.
  apply subseteq_union_1_L, singleton_subseteq_l, elem_of_dom. eauto.
Qed.

Lemma top_current_line_keys op m s :
  final_state (top_current_line op m) = Some s →
  registry_keys s = registry_keys m.
Proof.
  unfold top_current_line.
  destruct (frame_stack_ m) as [|top rest]; [done|].
  destruct (FrameState.current_line top); by intros [= <-].
Qed.

Lemma top_add_internal_keys dur m s :
  final_state (top_add_internal dur m) = Some s →
  registry_keys s = registry_keys m.
Proof.
  unfold top_add_internal.
  destruct (frame_stack_ m) as [|top rest]; [done|]. by intros [= <-].
Qed.

Lemma flush_frame_keys frame m s :
  final_state (flush_frame frame m) = Some s →
  registry_keys s = registry_keys m.
Proof.
  destruct (functions_ m !! FrameState.key frame) as [f|] eqn:Hf.
  - rewrite (flush_frame_closed _ _ _ Hf).
    case_bool_decide; intros [= <-]; unfold registry_keys; simpl;
      by rewrite (dom_insert_existing _ _ _ _ Hf).
  - unfold flush_frame. rewrite Hf. by intros [= <-].
Qed.

Lemma pop_frame_keys m s :
  final_state (pop_frame m) = Some s →
  registry_keys s = registry_keys m.
Proof.
  unfold pop_frame. destruct (frame_stack_ m) as [|frame rest]; [done|].
  destruct (flush_frame frame m) as [m1|e m1|] eqn:Hfl; simpl; try done.
  - assert (registry_keys m1 = registry_keys m) as <-
      by (apply (flush_frame_keys frame); by rewrite Hfl).
    destruct rest as [|caller rest']; [by intros [= <-]|].
    intros Hs. by apply top_current_line_keys in Hs.
  - intros [= <-]. apply (flush_frame_keys frame). by rewrite Hfl.
Qed.

Lemma finish_keys frame m s :
  final_state (finish frame m) = Some s →
  registry_keys s = registry_keys m.
Proof.
  unfold finish. destruct (last_instruction_ m); simpl;
    try (by intros [= <-]).
  - unfold finish_line. destruct (frame_stack_ m) eqn:Hst; [by intros [= <-]|].
    apply top_current_line_keys.
  - unfold finish_call.
    destruct (functions_ m !! f_code frame) as [f|] eqn:Hf;
      intros [= <-]; [|done].
    unfold registry_keys; simpl. by rewrite (dom_insert_existing _ _ _ _ Hf).
  - unfold finish_return.
    destruct (top_add_internal (elapsed m) m) as [m1| |] eqn:Ht; simpl;
      try done.
    + assert (registry_keys m1 = registry_keys m) as <-
        by (apply (top_add_internal_keys (elapsed m)); by rewrite Ht).
      apply pop_frame_keys.
    + intros [= <-]. apply (top_add_internal_keys (elapsed m)).
      by rewrite Ht.
  - unfold finish_ccall.
    destruct (c_functions_ m !! last_c_name_ m) as [c|] eqn:Hc;
      [|by intros [= <-]].
    intros Hs. apply top_current_line_keys in Hs. rewrite Hs.
    unfold registry_keys; simpl. by rewrite (dom_insert_existing _ _ _ _ Hc).
  - apply top_add_internal_keys.
Qed.

Lemma begin_keys what0 frame0 arg0 m s :
  what0 ≠ PyTrace_CALL → what0 ≠ PyTrace_C_CALL →
  final_state (begin what0 frame0 arg0 m) = Some s →
  registry_keys s = registry_keys m.
Proof.
  intros H1 H2. destruct what0; simpl; try done; try (by intros [= <-]).
  unfold profile_line; simpl.
  destruct (frame_stack_ m) as [|top rest]; [by intros [= <-]|].
  intros Hs. by apply top_current_line_keys in Hs.
Qed.

(** C8.  A Call Finish whose code identity is missing from the function
    map, and a NativeCall Finish whose remembered name is missing from the
    native-function map, throw [out_of_range] and leave the module as it
    was; no Finish step, and no Begin step other than those of Call and
    NativeCall, changes the key set of either registry, whatever its
    outcome. *)
Theorem lookup_failure_is_loud :
  (∀ frame m,
     last_instruction_ m = kCall → functions_ m !! f_code frame = None →
     finish frame m = Throw out_of_range m) ∧
  (∀ frame m,
     last_instruction_ m = kCCall →
     c_functions_ m !! last_c_name_ m = None →
     finish frame m = Throw out_of_range m) ∧
  (∀ frame m s,
     final_state (finish frame m) = Some s →
     registry_keys s = registry_keys m) ∧
  (∀ what frame arg m s,
     what ≠ PyTrace_CALL → what ≠ PyTrace_C_CALL →
     final_state (begin what frame arg m) = Some s →
     registry_keys s = registry_keys m).
Proof.
  split; [|split; [|split]].
  - intros frame0 m Hk Hf. unfold finish, finish_call. by rewrite Hk, Hf.
  - intros frame0 m Hk Hf. unfold finish, finish_ccall. by rewrite Hk, Hf.
  - apply finish_keys.
  - apply begin_keys.
Qed.

(** ** Access to the top frame *)

Lemma current_index_underflow top :
  representable top →
  FrameState.current_line_ top ≤ FrameState.starting_line_ top →
  FrameState.current_index top =
    2 ^ 64 + FrameState.current_line_ top - FrameState.starting_line_ top - 1 ∧
  FrameState.current_line top = None.
Proof.
  intros (Hs & Hc & Hn) Hle. unfold FrameState.lines in Hn.
  assert (FrameState.current_index top =
          2 ^ 64 + FrameState.current_line_ top
            - FrameState.starting_line_ top - 1) as Hidx.
  { unfold FrameState.current_index, to_size_t.
    symmetry. apply (Z.mod_unique _ _ (-1)); lia. }
  split; [done|]. unfold FrameState.current_line. rewrite Hidx.
  apply lookup_ge_None_2. lia.
Qed.

Lemma top_current_line_done op m :
  is_done (top_current_line op m) →
  ∃ top rest,
    frame_stack_ m = top :: rest ∧ is_Some (FrameState.current_line top).
Proof.
  unfold top_current_line.
  destruct (frame_stack_ m) as [|top rest]; [done|].
  destruct (FrameState.current_line top) eqn:Hl; [|done].
  intros _. exists top, rest. by rewrite Hl.
Qed.

(** C9.  With an empty stack the two Line steps return normally and touch
    no frame, whereas the Finish steps of Return and NativeReturn run into
    [top()] of an empty stack and the Finish step of NativeCall cannot
    complete either.  NativeReturn's Finish completes on every non-empty
    stack.  NativeCall's Finish completes only if the stack is non-empty
    and the current line of the top frame is in range, which for a frame
    with representable line numbers requires a cursor strictly beyond the
    starting line: with a cursor at or before it (as in a fresh frame) the
    index wraps around to [2^64 + current - starting - 1] and the access
    is out of range. *)
Theorem top_frame_access_guards :
  (∀ frame m,
     frame_stack_ m = [] →
     finish_line frame m = Done m ∧
     profile_line frame m = Done (with_last_instruction kLine m)) ∧
  (∀ frame m,
     frame_stack_ m = [] →
     finish_return frame m = Undefined ∧
     finish_creturn frame m = Undefined ∧
     ¬ is_done (finish_ccall frame m)) ∧
  (∀ frame m, frame_stack_ m ≠ [] → is_done (finish_creturn frame m)) ∧
  (∀ frame m,
     is_done (finish_ccall frame m) →
     ∃ top rest,
       frame_stack_ m = top :: rest ∧
       is_Some (FrameState.current_line top) ∧
       (representable top →
        FrameState.starting_line_ top < FrameState.current_line_ top)) ∧
  (∀ top,
     representable top →
     FrameState.current_line_ top ≤ FrameState.starting_line_ top →
     FrameState.current_index top =
       2 ^ 64 + FrameState.current_line_ top
         - FrameState.starting_line_ top - 1 ∧
     FrameState.current_line top = None) ∧
  (∀ code n_lines starting_line,
     0 ≤ starting_line → starting_line + Z.of_nat n_lines < 2 ^ 64 →
     FrameState.current_line (FrameState.make code n_lines starting_line) =
     None).
Proof.
  split; [|split; [|split; [|split; [|split]]]].
  - intros frame0 m Hst. unfold finish_line, profile_line; simpl.
    by rewrite Hst.
  - intros frame0 m Hst.
    unfold finish_return, finish_creturn, finish_ccall, top_add_internal.
    rewrite Hst. split; [done|]. split; [done|].
    destruct (c_functions_ m !! last_c_name_ m); [|by auto].
    unfold top_current_line; simpl. rewrite Hst. by auto.
  - intros frame0 m Hst. unfold finish_creturn, top_add_internal.
    by destruct (frame_stack_ m).
  - intros frame0 m Hd. unfold finish_ccall in Hd.
    destruct (c_functions_ m !! last_c_name_ m); [|done].
    apply top_current_line_done in Hd as (top & rest & Hst & Hl).
    simpl in Hst. exists top, rest. split; [done|]. split; [done|].
    intros Hrep.
    destruct (Z_lt_le_dec (FrameState.starting_line_ top)
                (FrameState.current_line_ top)) as [|Hle]; [done|].
    destruct (current_index_underflow top Hrep Hle) as [_ Hnone].
    rewrite Hnone in Hl. by destruct Hl.
  - apply current_index_underflow.
  - intros code n_lines starting_line H0 Hn.
    apply current_index_underflow; simpl; [|lia].
    unfold representable, FrameState.lines; simpl.
    rewrite length_replicate. lia.
Qed.

(** ** The sample session *)

Example run_session_enter :
  run session_enter (start Module_init) = Done after_enter.
Proof. vm_compute. reflexivity. Qed.

Example run_session_native :
  run session_native after_enter = Done after_native.
Proof. vm_compute. reflexivity. Qed.

Example run_session_leave :
  run session_leave after_native = Done after_leave.
Proof. vm_compute. reflexivity. Qed.

Example run_c_call :
  profile 150 152 PyTrace_C_CALL (frame_f 11) len_arg after_enter =
  Done after_c_call.
Proof. vm_compute. reflexivity. Qed.

Example run_c_exception :
  profile 160 161 PyTrace_C_EXCEPTION (frame_f 11) len_arg after_c_call =
  Done after_c_exception.
Proof. vm_compute. reflexivity. Qed.

Example run_span :
  run (span_call :: span_body ++ [span_return]) (start Module_init) =
  Done after_span.
Proof. vm_compute. reflexivity. Qed.

(** The frame of [f] holds 40 ns on its lines when its Return is recorded;
    the 10 ns between its Call and its first line are in the aggregate of
    [f]. *)
Example span_accounts :
  frame_account (top_of after_span) = (40, 0) ∧
  BaseFunction.overhead (Function.base (function_of 4096 after_span)) = 10.
Proof. vm_compute. done. Qed.



Lemma merge_commutative_associative_witness :
  flush_all (rest_of after_native ++ [top_of after_native]) after_native =
  Done (state_of (flush_all (frame_stack_ after_native) after_native)).
Proof.
  apply (proj2 (proj2 merge_commutative_associative)
           (frame_stack_ after_native)
           (rest_of after_native ++ [top_of after_native])).
  - apply perm_swap.
  - vm_compute. reflexivity.
Defined.

Lemma lookup_failure_is_loud_witness :
  finish (frame_f 11) (with_last_instruction kCall Module_init) =
    Throw out_of_range (with_last_instruction kCall Module_init) ∧
  finish (frame_f 11) (with_last_instruction kCCall Module_init) =
    Throw out_of_range (with_last_instruction kCCall Module_init) ∧
  registry_keys after_leave = registry_keys after_native.
Proof.
  destruct lookup_failure_is_loud as (H1 & H2 & H3 & H4).
  split; [|split].
  - apply H1; reflexivity.
  - apply H2; reflexivity.
  - apply (H4 PyTrace_LINE (frame_g 23) len_arg
             (state_of (finish (frame_g 23)
                          (with_last_instruction_end 210 after_leave)))).
    + discriminate.
    + discriminate.
    + vm_compute. reflexivity.
Defined.

Lemma top_frame_access_guards_witness :
  finish_line (frame_g 20) Module_init = Done Module_init ∧
  finish_return (frame_g 20) Module_init = Undefined ∧
  is_done (finish_creturn (frame_f 11) after_c_call) ∧
  FrameState.starting_line_ (top_of after_c_call)
    < FrameState.current_line_ (top_of after_c_call) ∧
  FrameState.current_line (FrameState.make 4096 2 10) = None.
Proof.
  destruct top_frame_access_guards as (H1 & H2 & H3 & H4 & H5 & H6).
  split; [|split; [|split; [|split]]].
  - apply (H1 (frame_g 20) Module_init). reflexivity.
  - apply (H2 (frame_g 20) Module_init). reflexivity.
  - apply H3. discriminate.
  - destruct (H4 (frame_f 11) after_c_call) as (top & rest & Hst & _ & Hlt).
    + vm_compute. exact I.
    + unfold top_of. rewrite Hst. simpl. apply Hlt.
      vm_compute in Hst. injection Hst as <- _.
      unfold representable. vm_compute. repeat split; discriminate.
  - apply H6; [lia|]. vm_compute. reflexivity.
Defined.

Lemma source_lines_drop_first_witness :
  ∃ m' top,
    profile_call (frame_f 10) Module_init = Done m' ∧
    frame_stack_ m' = [top] ∧
    length (FrameState.lines top) = 2%nat ∧
    FrameState.current_index (FrameState.move_to 12 top) = 1.
Proof.
  destruct (source_lines_drop_first (frame_f 10) source_f 10 Module_init
              eq_refl) as (m' & top & Hp & Hst & _ & Hlen & _ & Hidx & _).
  exists m', top. split; [exact Hp|]. split; [exact Hst|].
  split; [exact Hlen|].
  apply (Hidx 1%nat); [simpl; lia | lia | lia].
Defined.

(** ** The steps, case by case *)

Lemma finish_return_closed frame0 m top rest function :
  frame_stack_ m = top :: rest →
  functions_ m !! FrameState.key top = Some function →
  finish_return frame0 m =
  let popped := FrameState.add_internal (elapsed m) top in
  let flushed :=
    with_functions
      (<[FrameState.key top := merged_function popped function]>
         (functions_ m)) m in
  if bool_decide (length (FrameState.lines top) ≤ Function.n_lines function)%nat
  then
    match rest with
    | [] => Done (with_frame_stack [] flushed)
    | caller :: rest' =>
      match FrameState.current_line caller with
      | Some line =>
        Done (with_frame_stack
                (FrameState.set_current
                   (LineState.add_external
                      (observed_time (FrameState.lines top)) line)
                   caller :: rest') flushed)
      | None => Throw out_of_range (with_frame_stack rest flushed)
      end
    end
  else
    Throw out_of_range
      (with_frame_stack (popped :: rest) flushed).
Proof.
  intros Hst Hf. unfold finish_return, top_add_internal. rewrite Hst.
  cbn [and_then]. unfold pop_frame. cbn [frame_stack_ with_frame_stack].
  rewrite (flush_frame_closed _ _ function) by exact Hf.
  change (FrameState.lines (FrameState.add_internal (elapsed m) top))
    with (FrameState.lines top).
  case_bool_decide; [|done]. cbn [and_then].
  rewrite total_time_observed.
  destruct rest as [|caller rest']; [done|].
  unfold top_current_line; simpl.
  by destruct (FrameState.current_line caller).
Qed.

Lemma finish_Done_inv frame0 m m' :
  finish frame0 m = Done m' → finished frame0 m m'.
Proof.
  unfold finish. destruct (last_instruction_ m) eqn:Hk.
  - intros [= <-]. apply finished_nothing. by rewrite Hk.
  - unfold finish_line, top_current_line.
    destruct (frame_stack_ m) as [|top rest] eqn:Hst.
    + intros [= <-]. by apply finished_line_empty.
    + destruct (FrameState.current_line top) eqn:Hl; [|done].
      intros [= <-]. by apply finished_line.
  - unfold finish_call.
    destruct (functions_ m !! f_code frame0) eqn:Hf; [|done].
    intros [= <-]. by apply finished_call.
  - destruct (frame_stack_ m) as [|top rest] eqn:Hst.
    { unfold finish_return, top_add_internal. by rewrite Hst. }
    destruct (functions_ m !! FrameState.key top) as [f|] eqn:Hf.
    + rewrite (finish_return_closed _ _ _ _ _ Hst Hf). cbn zeta.
      case_bool_decide; [|done].
      destruct rest as [|caller rest'].
      * intros [= <-]. by apply finished_return_last.
      * destruct (FrameState.current_line caller) eqn:Hl; [|done].
        intros [= <-]. by apply finished_return.
    + unfold finish_return, top_add_internal, pop_frame, flush_frame.
      rewrite Hst. simpl. unfold FrameState.key in *. simpl. by rewrite Hf.
  - intros [= <-]. apply finished_nothing. by rewrite Hk.
  - unfold finish_ccall, top_current_line. simpl.
    destruct (c_functions_ m !! last_c_name_ m) eqn:Hc; [|done].
    destruct (frame_stack_ m) as [|top rest] eqn:Hst; [done|].
    destruct (FrameState.current_line top) eqn:Hl; [|done].
    intros [= <-]. exact (finished_ccall frame0 m _ _ _ _ Hk Hc Hst Hl).
  - unfold finish_creturn, top_add_internal.
    destruct (frame_stack_ m) as [|top rest] eqn:Hst; [done|].
    intros [= <-]. by apply finished_creturn.
  - intros [= <-]. apply finished_nothing. by rewrite Hk.
  - intros [= <-]. apply finished_nothing. by rewrite Hk.
Qed.

Lemma begin_Done_inv what0 frame0 arg0 m m' :
  begin what0 frame0 arg0 m = Done m' → begun frame0 arg0 m what0 m'.
Proof.
  destruct what0; simpl.
  - unfold profile_call, add_function, emplace_frame.
    destruct (functions_ m !! f_code frame0) eqn:Hf; cbn [and_then].
    + simpl. destruct (get_lines frame0) as [[ls st]|] eqn:Hg; [|done].
      cbn [and_then]. intros [= <-].
      pose proof (begun_call frame0 arg0 m ls st Hg) as H.
      by rewrite Hf in H.
    + destruct (get_lines frame0) as [[ls st]|] eqn:Hg; [|done].
      cbn [and_then]. intros [= <-].
      pose proof (begun_call frame0 arg0 m ls st Hg) as H.
      by rewrite Hf in H.
  - intros [= <-]. constructor.
  - unfold profile_line, top_current_line. simpl.
    destruct (frame_stack_ m) as [|top rest] eqn:Hst.
    + intros [= <-]. by constructor.
    + destruct (FrameState.current_line _) eqn:Hl; [|done].
      intros [= <-]. by apply begun_line.
  - intros [= <-]. constructor.
  - unfold profile_c_call, add_c_function. simpl. intros [= <-].
    pose proof (begun_c_call frame0 arg0 m) as H.
    by destruct (c_functions_ m !! c_call_name arg0).
  - intros [= <-]. constructor.
  - intros [= <-]. constructor.
  - intros [= <-]. constructor.
  - done.
Qed.

(** ** Exception events *)

Lemma finished_fields frame0 m m' :
  finished frame0 m m' →
  last_instruction_ m' = last_instruction_ m ∧
  last_instruction_start_ m' = last_instruction_start_ m ∧
  last_instruction_end_ m' = last_instruction_end_ m ∧
  last_c_name_ m' = last_c_name_ m.
Proof. by destruct 1. Qed.

Lemma begun_last_instruction frame0 arg0 m what0 m' :
  begun frame0 arg0 m what0 m' →
  last_instruction_ m' = last_instruction_ m ∨
  recordable (last_instruction_ m').
Proof. destruct 1; simpl; first [by left | by right]. Qed.

Lemma deliver_last_instruction ev m m' :
  deliver ev m = Done m' →
  last_instruction_ m' = last_instruction_ m ∨
  recordable (last_instruction_ m').
Proof.
  assert (∀ t_in t_out w fr a,
    profile t_in t_out w fr a m = Done m' →
    last_instruction_ m' = last_instruction_ m ∨
    recordable (last_instruction_ m')) as Hp.
  { intros t_in t_out w fr a H.
    apply profile_Done_inv in H as (m1 & m2 & Hf & Hb & ->).
    apply finish_Done_inv, finished_fields in Hf as (Hk & _).
    apply begin_Done_inv, begun_last_instruction in Hb. simpl in *.
    by rewrite <- Hk. }
  unfold deliver, trace_func, profile_func.
  destruct (hook ev); [apply Hp|].
  destruct (what ev); try (intros [= <-]; by left). apply Hp.
Qed.

Lemma run_last_instruction evs : ∀ m m',
  run evs m = Done m' →
  last_instruction_ m' = last_instruction_ m ∨
  recordable (last_instruction_ m').
Proof.
  induction evs as [|ev evs IH]; intros m m'; simpl.
  - intros [= <-]. by left.
  - destruct (deliver ev m) as [m1| |] eqn:Hd; cbn [and_then]; try done.
    intros Hr. apply IH in Hr. apply deliver_last_instruction in Hd.
    destruct Hr as [->|Hr]; [done|]. by right.
Qed.

Lemma begun_exception_time_totals frame0 arg0 m what0 m' :
  is_exception what0 → begun frame0 arg0 m what0 m' →
  time_totals m' = time_totals m.
Proof. intros [->| ->]; by inversion 1. Qed.

(** C2, as the code has it.  The Finish step recorded for the kinds
    Exception and NativeException changes nothing, but no session ever
    records these kinds.  A NativeException event is begun exactly like a
    NativeReturn: it records the kind NativeReturn, so that the interval
    beginning at it is added to the overhead accumulator of the top frame.
    The Begin step of an Exception event changes nothing, and the trace
    hook drops the event before it reaches the engine.  On either event
    the Finish phase of the previously recorded kind runs as for any other
    event, and the totals after the event are those it leaves. *)
Theorem exception_events_processing :
  (∀ frame m,
     finish frame (with_last_instruction kException m) =
       Done (with_last_instruction kException m) ∧
     finish frame (with_last_instruction kCException m) =
       Done (with_last_instruction kCException m)) ∧
  (∀ frame arg m,
     begin PyTrace_C_EXCEPTION frame arg m =
       begin PyTrace_C_RETURN frame arg m ∧
     begin PyTrace_C_EXCEPTION frame arg m =
       Done (with_last_instruction kCReturn m)) ∧
  (∀ frame m top rest,
     last_instruction_ m = kCReturn → frame_stack_ m = top :: rest →
     finish frame m =
     Done (with_frame_stack
             (FrameState.add_internal (elapsed m) top :: rest) m)) ∧
  (∀ frame arg m, begin PyTrace_EXCEPTION frame arg m = Done m) ∧
  (∀ now_in now_out frame arg m,
     trace_func now_in now_out PyTrace_EXCEPTION frame arg m = Done m) ∧
  (∀ now_in now_out what frame arg m m',
     is_exception what →
     profile now_in now_out what frame arg m = Done m' →
     ∃ m1,
       finish frame (with_last_instruction_end now_in m) = Done m1 ∧
       time_totals m' = time_totals m1) ∧
  (∀ evs m,
     run evs (start Module_init) = Done m →
     last_instruction_ m ≠ kException ∧ last_instruction_ m ≠ kCException).
Proof.
  split; [done|]. split; [done|].
  split.
  { intros frame0 m top rest Hk Hst.
    unfold finish, finish_creturn, top_add_internal. by rewrite Hk, Hst. }
  split; [done|]. split; [done|].
  split.
  { intros t_in t_out w fr a m m' Hw Hp.
    apply profile_Done_inv in Hp as (m1 & m2 & Hf & Hb & ->).
    exists m1. split; [done|].
    apply begin_Done_inv in Hb.
    by rewrite <- (begun_exception_time_totals _ _ _ _ _ Hw Hb). }
  intros evs m Hr. apply run_last_instruction in Hr. simpl in Hr.
  destruct Hr as [->|Hr]; [done|].
  split; intros Heq; by rewrite Heq in Hr.
Qed.

Lemma exception_events_processing_witness :
  time_totals after_c_exception =
    time_totals
      (state_of
         (finish (frame_f 11) (with_last_instruction_end 160 after_c_call))) ∧
  last_instruction_ after_c_exception ≠ kCException.
Proof.
  destruct exception_events_processing as (_ & _ & _ & _ & _ & H6 & H7).
  split.
  - destruct (H6 160 161 PyTrace_C_EXCEPTION (frame_f 11) len_arg after_c_call
                after_c_exception) as (m1 & Hf & Ht).
    + right. reflexivity.
    + vm_compute. reflexivity.
    + rewrite Hf. exact Ht.
  - apply (H7 (session_enter ++
               [event SetProfile 150 152 PyTrace_C_CALL (frame_f 11);
                event SetProfile 160 161 PyTrace_C_EXCEPTION (frame_f 11)])).
    vm_compute. reflexivity.
Defined.

(** C2, as stated, fails.  When [len] raises in the sample session, the
    interval that ends at the NativeException event (8 ns) is added to
    the self time of [len] and to the external time of the calling line,
    and the interval that begins at it (9 ns, up to the next event) is
    added to the overhead accumulator of the frame of [f]. *)
Lemma exception_intervals_are_attributed :
  ¬ exception_ending_unattributed ∧ ¬ exception_beginning_unattributed.
Proof.
  split.
  - intros H.
    specialize (H 160 161 PyTrace_C_EXCEPTION (frame_f 11) len_arg
                  after_c_call after_c_exception (or_intror eq_refl) eq_refl).
    apply (f_equal snd) in H. vm_compute in H. discriminate H.
  - intros H.
    specialize (H 160 161 PyTrace_C_EXCEPTION (frame_f 11) len_arg
                  after_c_call after_c_exception 170 (frame_f 12)
                  (state_of (finish (frame_f 12)
                     (with_last_instruction_end 170 after_c_exception)))
                  (or_intror eq_refl) eq_refl eq_refl).
    apply (f_equal snd) in H. vm_compute in H. discriminate H.
Qed.

(** ** Monotone counters *)

Lemma calls_sum_nonneg ls : Forall line_ok ls → 0 ≤ calls_sum ls.
Proof.
  induction 1 as [|l ls [Hl _] _ IH]; simpl; lia.
Qed.

Lemma record_calls_sum_nonneg rs : Forall record_ok rs → 0 ≤ record_calls_sum rs.
Proof.
  unfold record_ok. induction 1 as [|r rs Hr _ IH]; simpl; lia.
Qed.

Lemma observed_time_nonneg ls : Forall line_ok ls → 0 ≤ observed_time ls.
Proof.
  induction 1 as [|l ls (_ & Hi & He) _ IH]; simpl; lia.
Qed.

Lemma calls_sum_insert ls i l l' :
  ls !! i = Some l →
  calls_sum (<[i := l']> ls) =
  calls_sum ls + LineState.n_calls_ l' - LineState.n_calls_ l.
Proof.
  revert i. induction ls as [|x ls IH]; intros [|i] H; simpl in *; try done.
  - injection H as ->. lia.
  - rewrite (IH _ H). lia.
Qed.

Lemma calls_sum_lookup_le ls i l :
  Forall line_ok ls → ls !! i = Some l → LineState.n_calls_ l ≤ calls_sum ls.
Proof.
  intros Hok. revert i.
  induction Hok as [|x ls [Hx _] Hok IH]; intros [|i] H; simpl in *;
    try done.
  - injection H as ->. pose proof (calls_sum_nonneg _ Hok). lia.
  - specialize (IH _ H). lia.
Qed.

Lemma calls_sum_replicate n : calls_sum (replicate n LineState.zero) = 0.
Proof. induction n as [|n IH]; simpl; [done|]. by rewrite IH. Qed.

Lemma Forall_line_ok_replicate n : Forall line_ok (replicate n LineState.zero).
Proof. apply Forall_replicate. by unfold line_ok. Qed.

Lemma stack_calls_nonneg k st : Forall frame_ok st → 0 ≤ stack_calls k st.
Proof.
  induction 1 as [|fr st [_ Hfr] _ IH]; simpl; [done|].
  pose proof (calls_sum_nonneg _ Hfr). case_decide; lia.
Qed.

Lemma merged_lines_nil_r records : merged_lines records [] = records.
Proof.
  apply list_eq; intros i. rewrite merged_lines_lookup.
  by destruct (records !! i).
Qed.

Lemma merged_lines_cons r records l ls :
  merged_lines (r :: records) (l :: ls) =
  LineRecord.plus_assign r l :: merged_lines records ls.
Proof.
  apply list_eq; intros i. rewrite merged_lines_lookup.
  destruct i as [|i]; [done|]. cbn [lookup list_lookup].
  by rewrite merged_lines_lookup.
Qed.

(** Without wrap-around the hits of the merged records are those of the
    records plus those of the frame, and no record decreases. *)
Lemma merged_lines_counters ls : ∀ records,
  (length ls ≤ length records)%nat →
  Forall line_ok ls → Forall record_ok records →
  record_calls_sum records + calls_sum ls < 2 ^ 64 →
  record_calls_sum (merged_lines records ls) =
    record_calls_sum records + calls_sum ls ∧
  Forall record_ok (merged_lines records ls) ∧
  Forall2 record_le records (merged_lines records ls).
Proof.
  induction ls as [|l ls IH]; intros records Hlen Hls Hrs Hsum.
  - rewrite merged_lines_nil_r. simpl. split; [lia|]. split; [done|].
    clear. induction records; by constructor.
  - destruct records as [|r records]; [simpl in Hlen; lia|].
    rewrite merged_lines_cons. simpl in *.
    inversion Hls as [|? ? (Hl0 & Hl1 & Hl2) Hls']; subst.
    inversion Hrs as [|? ? Hr Hrs']; subst. unfold record_ok in Hr.
    pose proof (calls_sum_nonneg _ Hls').
    pose proof (record_calls_sum_nonneg _ Hrs').
    destruct (IH records) as (IH1 & IH2 & IH3); [lia|done|done|lia|].
    rewrite IH1.
    rewrite (to_size_t_small
               (LineState.n_calls_ (LineRecord.state r) + LineState.n_calls_ l))
      by lia.
    split; [lia|]. split.
    + constructor; [|done]. unfold record_ok; simpl.
      apply to_size_t_range.
    + constructor; [|done]. unfold record_le, line_le; simpl.
      rewrite to_size_t_small by lia. split; [done|lia].
Qed.

Lemma record_le_refl r : record_le r r.
Proof. unfold record_le, line_le. split; [done|lia]. Qed.

Lemma base_le_refl b : base_le b b.
Proof. unfold base_le. lia. Qed.

Lemma function_le_refl f : function_le f f.
Proof.
  split; [apply base_le_refl|].
  induction (Function.lines_ f); constructor; auto using record_le_refl.
Qed.

Lemma record_le_trans a b c : record_le a b → record_le b c → record_le a c.
Proof.
  unfold record_le, line_le. intros [-> ?] [-> ?]. split; [done|lia].
Qed.

Lemma base_le_trans a b c : base_le a b → base_le b c → base_le a c.
Proof. unfold base_le. lia. Qed.

Lemma function_le_trans a b c :
  function_le a b → function_le b c → function_le a c.
Proof.
  intros [Hb1 Hl1] [Hb2 Hl2]. split; [by eapply base_le_trans|].
  revert Hl2. generalize (Function.lines_ c).
  induction Hl1 as [|x y l l' Hxy _ IH]; intros l'' Hl2;
    inversion Hl2; subst; constructor; eauto using record_le_trans.
Qed.

Lemma stats_le_refl m : stats_le m m.
Proof.
  split; intros k x Hx; exists x;
    eauto using function_le_refl, base_le_refl.
Qed.

Lemma stats_le_trans m1 m2 m3 :
  stats_le m1 m2 → stats_le m2 m3 → stats_le m1 m3.
Proof.
  intros [Hf1 Hc1] [Hf2 Hc2]. split.
  - intros k f Hf. destruct (Hf1 _ _ Hf) as (f' & Hf' & Hle).
    destruct (Hf2 _ _ Hf') as (f'' & Hf'' & Hle').
    eauto using function_le_trans.
  - intros k c Hc. destruct (Hc1 _ _ Hc) as (c' & Hc' & Hle).
    destruct (Hc2 _ _ Hc') as (c'' & Hc'' & Hle').
    eauto using base_le_trans.
Qed.

(** Replacing one function, or one native function, by a larger one. *)
Lemma stats_le_functions m m' k f f' :
  functions_ m !! k = Some f → function_le f f' →
  functions_ m' = <[k := f']> (functions_ m) →
  c_functions_ m' = c_functions_ m →
  stats_le m m'.
Proof.
  intros Hf Hle Hfs Hcs. split.
  - intros k0 f0 Hf0. rewrite Hfs.
    destruct (decide (k = k0)) as [<-|Hne].
    + rewrite lookup_insert_eq. rewrite Hf in Hf0. injection Hf0 as <-. eauto.
    + rewrite lookup_insert_ne by done. eauto using function_le_refl.
  - intros k0 c Hc. rewrite Hcs. eauto using base_le_refl.
Qed.

Lemma stats_le_c_functions m m' k c c' :
  c_functions_ m !! k = Some c → base_le c c' →
  c_functions_ m' = <[k := c']> (c_functions_ m) →
  functions_ m' = functions_ m →
  stats_le m m'.
Proof.
  intros Hc Hle Hcs Hfs. split.
  - intros k0 f Hf. rewrite Hfs. eauto using function_le_refl.
  - intros k0 c0 Hc0. rewrite Hcs.
    destruct (decide (k = k0)) as [<-|Hne].
    + rewrite lookup_insert_eq. rewrite Hc in Hc0. injection Hc0 as <-. eauto.
    + rewrite lookup_insert_ne by done. eauto using base_le_refl.
Qed.

Lemma stats_le_same m m' :
  functions_ m' = functions_ m → c_functions_ m' = c_functions_ m →
  stats_le m m'.
Proof.
  intros Hfs Hcs. split; intros k x Hx; exists x.
  - rewrite Hfs. eauto using function_le_refl.
  - rewrite Hcs. eauto using base_le_refl.
Qed.

Lemma counters_inv_weaken n n' m :
  n ≤ n' → counters_inv n m → counters_inv n' m.
Proof.
  intros Hn [H1 H2 H3 H4]. split; [done|..].
  - intros k f Hf. destruct (H2 _ _ Hf). split; [lia|done].
  - intros k c Hc. specialize (H3 _ _ Hc). lia.
  - intros k. specialize (H4 k). lia.
Qed.

(** A frame whose current line is rewritten. *)
Lemma set_current_ok fr l l' :
  frame_ok fr → FrameState.current_line fr = Some l → line_ok l' →
  frame_ok (FrameState.set_current l' fr).
Proof.
  intros [Hi Hls] Hl Hl'. split; [done|].
  unfold FrameState.lines, FrameState.set_current; simpl.
  by apply Forall_insert.
Qed.

Lemma set_current_calls fr l l' :
  FrameState.current_line fr = Some l →
  calls_sum (FrameState.lines (FrameState.set_current l' fr)) =
  calls_sum (FrameState.lines fr)
    + LineState.n_calls_ l' - LineState.n_calls_ l.
Proof.
  intros Hl. unfold FrameState.lines, FrameState.set_current; simpl.
  by apply calls_sum_insert.
Qed.

Lemma current_line_ok fr l :
  frame_ok fr → FrameState.current_line fr = Some l → line_ok l.
Proof.
  intros [_ Hls] Hl. unfold FrameState.current_line in Hl.
  rewrite Forall_lookup in Hls. by eapply Hls.
Qed.

Lemma stack_calls_head k fr fr' rest d :
  FrameState.key fr' = FrameState.key fr →
  calls_sum (FrameState.lines fr') = calls_sum (FrameState.lines fr) + d →
  stack_calls k (fr' :: rest) =
  stack_calls k (fr :: rest) + (if decide (FrameState.key fr = k) then d else 0).
Proof.
  intros Hk Hc. simpl. rewrite Hk, Hc. case_decide; lia.
Qed.

Lemma registered_calls_insert k k0 f m m' :
  functions_ m' = <[k := f]> (functions_ m) →
  registered_calls k0 m' =
  if decide (k = k0) then record_calls_sum (Function.lines_ f)
  else registered_calls k0 m.
Proof.
  intros Hfs. unfold registered_calls. rewrite Hfs.
  case_decide as Hk.
  - subst. by rewrite lookup_insert_eq.
  - by rewrite lookup_insert_ne.
Qed.

Lemma merged_function_counters top f :
  frame_ok top →
  (length (FrameState.lines top) ≤ Function.n_lines f)%nat →
  Forall record_ok (Function.lines_ f) →
  record_calls_sum (Function.lines_ f) + calls_sum (FrameState.lines top)
    < 2 ^ 64 →
  function_le f (merged_function top f) ∧
  Forall record_ok (Function.lines_ (merged_function top f)) ∧
  record_calls_sum (Function.lines_ (merged_function top f)) =
    record_calls_sum (Function.lines_ f) + calls_sum (FrameState.lines top).
Proof.
  intros [Hi Hls] Hlen Hrs Hsum.
  destruct (merged_lines_counters _ _ Hlen Hls Hrs Hsum) as (H1 & H2 & H3).
  split; [|by split].
  split; [|done]. unfold base_le, merged_function; simpl. lia.
Qed.

Lemma stack_calls_cons k fr st :
  stack_calls k (fr :: st) =
  (if decide (FrameState.key fr = k)
   then calls_sum (FrameState.lines fr) else 0) + stack_calls k st.
Proof. done. Qed.

Lemma stack_calls_head_same k fr fr' rest :
  FrameState.key fr' = FrameState.key fr →
  calls_sum (FrameState.lines fr') = calls_sum (FrameState.lines fr) →
  stack_calls k (fr' :: rest) = stack_calls k (fr :: rest).
Proof. intros Hk Hc. simpl. by rewrite Hk, Hc. Qed.

Lemma add_internal_ok d fr :
  0 ≤ d → frame_ok fr → frame_ok (FrameState.add_internal d fr).
Proof.
  intros Hd [Hi Hls]. split; [|done].
  unfold FrameState.internal, FrameState.add_internal in *; simpl. lia.
Qed.

(** The counters across a Finish phase that completes. *)
Lemma finished_counters frame0 n m m' :
  counters_inv n m → n < 2 ^ 64 →
  finishes_nothing (last_instruction_ m) ∨ 0 ≤ elapsed m →
  finished frame0 m m' →
  counters_inv n m' ∧ stats_le m m'.
Proof.
  intros Hinv Hn Hel Hfin.
  assert (∀ k, ¬ finishes_nothing k → last_instruction_ m = k →
               0 ≤ elapsed m) as Hd.
  { intros k Hk Heq. destruct Hel as [H|H]; [|done]. by rewrite Heq in H. }
  pose proof Hinv as [Hfr Hfs Hcs Hls].
  destruct Hfin as
    [ | | top rest line Hk Hst Hl | function Hk Hf
    | top function Hk Hst Hf Hlen
    | top caller rest function line Hk Hst Hf Hlen Hl
    | c top rest line Hk Hc Hst Hl | top rest Hk Hst ].
  - split; [done|apply stats_le_refl].
  - split; [done|apply stats_le_refl].
  - specialize (Hd kLine (λ x, x) Hk).
    rewrite Hst in Hfr. inversion Hfr as [|? ? Htop Hrest]; subst.
    pose proof (current_line_ok _ _ Htop Hl) as (L0 & L1 & L2).
    split; [|by apply stats_le_same].
    split; fields; [|done|done|].
    + constructor; [|done]. eapply set_current_ok; [done..|].
      unfold line_ok; simpl; lia.
    + intros k. specialize (Hls k). rewrite Hst in Hls.
      rewrite (stack_calls_head_same k top _ rest);
        [|done|rewrite (set_current_calls _ _ _ Hl); simpl; lia].
      by unfold registered_calls in *.
  - specialize (Hd kCall (λ x, x) Hk).
    destruct (Hfs _ _ Hf) as [Hn1 Hn2].
    split.
    + split; fields; [done| |done|].
      * intros k f.
        destruct (decide (f_code frame0 = k)) as [<-|Hne].
        -- rewrite lookup_insert_eq. by intros [= <-].
        -- rewrite lookup_insert_ne by done. apply Hfs.
      * intros k. specialize (Hls k).
        erewrite registered_calls_insert by reflexivity.
        case_decide; [|done]. subst k.
        unfold registered_calls in Hls. by rewrite Hf in Hls.
    + eapply (stats_le_functions m _ _ function); [done| |done|done].
      split; [|apply (function_le_refl function)].
      unfold base_le; simpl; lia.
  - specialize (Hd kReturn (λ x, x) Hk).
    rewrite Hst in Hfr. inversion Hfr as [|? ? Htop Hrest]; subst.
    destruct (Hfs _ _ Hf) as [Hn1 Hn2].
    pose proof (add_internal_ok _ _ Hd Htop) as Htop'.
    pose proof (Hls (FrameState.key top)) as Hkey.
    unfold registered_calls in Hkey. rewrite Hf, Hst in Hkey. simpl in Hkey.
    rewrite decide_True in Hkey by done.
    destruct (merged_function_counters
                (FrameState.add_internal (elapsed m) top) function)
      as (Hle & Hok & Hsum); [done|done|done| |].
    { change (FrameState.lines (FrameState.add_internal (elapsed m) top))
        with (FrameState.lines top). lia. }
    split.
    + split; fields; [done| |done|].
      * intros k f.
        destruct (decide (FrameState.key top = k)) as [<-|Hne].
        -- rewrite lookup_insert_eq. by intros [= <-].
        -- rewrite lookup_insert_ne by done. apply Hfs.
      * intros k. specialize (Hls k). rewrite Hst in Hls.
        cbn [stack_calls foldr] in Hls |- *.
        erewrite registered_calls_insert by reflexivity.
        rewrite Hsum.
        change (FrameState.lines (FrameState.add_internal (elapsed m) top))
          with (FrameState.lines top).
        repeat case_decide; lia.
    + by eapply (stats_le_functions m _ _ function).
  - specialize (Hd kReturn (λ x, x) Hk).
    rewrite Hst in Hfr. inversion Hfr as [|? ? Htop Hrest]; subst.
    inversion Hrest as [|? ? Hcaller Hrest']; subst.
    destruct (Hfs _ _ Hf) as [Hn1 Hn2].
    pose proof (add_internal_ok _ _ Hd Htop) as Htop'.
    pose proof (current_line_ok _ _ Hcaller Hl) as (L0 & L1 & L2).
    pose proof (observed_time_nonneg _ (proj2 Htop)) as Htot.
    pose proof (stack_calls_nonneg (FrameState.key top) _ Hrest) as Hnn.
    pose proof (Hls (FrameState.key top)) as Hkey.
    unfold registered_calls in Hkey. rewrite Hf, Hst in Hkey.
    rewrite stack_calls_cons, decide_True in Hkey by done.
    destruct (merged_function_counters
                (FrameState.add_internal (elapsed m) top) function)
      as (Hle & Hok & Hsum); [done|done|done| |].
    { change (FrameState.lines (FrameState.add_internal (elapsed m) top))
        with (FrameState.lines top). lia. }
    split.
    + split; fields; [| |done|].
      * constructor; [|done]. eapply set_current_ok; [done..|].
        unfold line_ok; simpl; lia.
      * intros k f.
        destruct (decide (FrameState.key top = k)) as [<-|Hne].
        -- rewrite lookup_insert_eq. by intros [= <-].
        -- rewrite lookup_insert_ne by done. apply Hfs.
      * intros k. specialize (Hls k). rewrite Hst in Hls.
        rewrite stack_calls_cons in Hls.
        rewrite (stack_calls_head_same k caller _ rest);
          [|done|rewrite (set_current_calls _ _ _ Hl); simpl; lia].
        erewrite registered_calls_insert by reflexivity.
        rewrite Hsum.
        change (FrameState.lines (FrameState.add_internal (elapsed m) top))
          with (FrameState.lines top).
        case_decide as Hkk;
          [subst k; unfold registered_calls in Hls; rewrite Hf in Hls|];
          repeat case_decide; lia.
    + by eapply (stats_le_functions m _ _ function).
  - specialize (Hd kCCall (λ x, x) Hk).
    rewrite Hst in Hfr. inversion Hfr as [|? ? Htop Hrest]; subst.
    pose proof (current_line_ok _ _ Htop Hl) as (L0 & L1 & L2).
    pose proof (Hcs _ _ Hc) as Hn1.
    split.
    + split; fields; [|done| |].
      * constructor; [|done]. eapply set_current_ok; [done..|].
        unfold line_ok; simpl; lia.
      * intros k c0.
        destruct (decide (last_c_name_ m = k)) as [<-|Hne].
        -- rewrite lookup_insert_eq. by intros [= <-].
        -- rewrite lookup_insert_ne by done. apply Hcs.
      * intros k. specialize (Hls k). rewrite Hst in Hls.
        rewrite (stack_calls_head_same k top _ rest);
          [|done|rewrite (set_current_calls _ _ _ Hl); simpl; lia].
        by unfold registered_calls in *.
    + eapply (stats_le_c_functions m _ _ c); [done| |done|done].
      unfold base_le; simpl; lia.
  - specialize (Hd kCReturn (λ x, x) Hk).
    rewrite Hst in Hfr. inversion Hfr as [|? ? Htop Hrest]; subst.
    split; [|by apply stats_le_same].
    split; fields; [|done|done|].
    + constructor; [|done]. by apply add_internal_ok.
    + intros k. specialize (Hls k). by rewrite Hst in Hls.
Qed.

Lemma Function_make_counters name0 texts code :
  BaseFunction.n_calls_ (Function.base (Function.make name0 texts code)) = 0 ∧
  Forall record_ok (Function.lines_ (Function.make name0 texts code)) ∧
  record_calls_sum (Function.lines_ (Function.make name0 texts code)) = 0.
Proof.
  rewrite Function_make_lines. split; [done|].
  induction texts as [|x texts [IH1 IH2]]; simpl; [by split|].
  split; [by constructor|]. by rewrite IH2.
Qed.

Lemma registered_calls_ext m m' k :
  functions_ m' = functions_ m →
  registered_calls k m' = registered_calls k m.
Proof. intros H. unfold registered_calls. by rewrite H. Qed.

(** The counters across a Begin phase that completes. *)
Lemma begun_counters frame0 arg0 n m what0 m' :
  counters_inv n m → 0 ≤ n → n + 1 < 2 ^ 64 →
  begun frame0 arg0 m what0 m' →
  counters_inv (n + 1) m' ∧ stats_le m m'.
Proof.
  intros Hinv H0 Hn Hbeg.
  pose proof (counters_inv_weaken n (n + 1) m ltac:(lia) Hinv) as Hweak.
  pose proof Hinv as [Hfr Hfs Hcs Hls].
  destruct Hbeg as
    [ Hst | top rest line Hst Hl | texts starting_line Hg | | | | | | ].
  - split; [|by apply stats_le_same]. by destruct Hweak.
  - rewrite Hst in Hfr. inversion Hfr as [|? ? Htop Hrest]; subst.
    set (moved := FrameState.move_to (to_size_t (f_lineno frame0)) top) in *.
    assert (frame_ok moved) as Hmoved by done.
    pose proof (current_line_ok _ _ Hmoved Hl) as (L0 & L1 & L2).
    assert (LineState.n_calls_ line ≤ n) as Hline.
    { pose proof (Hls (FrameState.key top)) as Hkey. rewrite Hst in Hkey.
      rewrite stack_calls_cons, decide_True in Hkey by done.
      pose proof (stack_calls_nonneg (FrameState.key top) _ Hrest).
      assert (0 ≤ registered_calls (FrameState.key top) m).
      { unfold registered_calls.
        destruct (functions_ m !! FrameState.key top) as [f|] eqn:Hf; [|done].
        apply record_calls_sum_nonneg. by destruct (Hfs _ _ Hf). }
      pose proof (calls_sum_lookup_le _ _ _ (proj2 Hmoved) Hl) as Hle.
      change (FrameState.lines moved) with (FrameState.lines top) in Hle.
      lia. }
    split; [|by apply stats_le_same].
    split; fields.
    + constructor; [|done]. eapply set_current_ok; [done..|].
      unfold line_ok; simpl. pose proof (to_size_t_range
        (LineState.n_calls_ line + 1)). lia.
    + intros k f Hf. destruct (Hfs _ _ Hf). split; [lia|done].
    + intros k c Hc. specialize (Hcs _ _ Hc). lia.
    + intros k. specialize (Hls k). rewrite Hst in Hls.
      rewrite (stack_calls_head k top _ rest 1); [|done|].
      * rewrite (registered_calls_ext m) by done.
        case_decide; lia.
      * rewrite (set_current_calls _ _ _ Hl). simpl.
        rewrite to_size_t_small by lia.
        unfold FrameState.lines. lia.
  - set (code := f_code frame0) in *.
    set (fs' := match functions_ m !! code with
                | Some _ => functions_ m
                | None =>
                  <[code := Function.make (co_name frame0) texts code]>
                    (functions_ m)
                end).
    assert (∀ k f, fs' !! k = Some f →
              0 ≤ BaseFunction.n_calls_ (Function.base f) ≤ n ∧
              Forall record_ok (Function.lines_ f) ∧
              record_calls_sum (Function.lines_ f) = registered_calls k m)
      as Hfs'.
    { intros k f. unfold fs', registered_calls.
      destruct (functions_ m !! code) eqn:Hc.
      - intros Hf. rewrite Hf. destruct (Hfs _ _ Hf). by split.
      - destruct (decide (code = k)) as [<-|Hne].
        + rewrite lookup_insert_eq, Hc. intros [= <-].
          destruct (Function_make_counters (co_name frame0) texts code)
            as (-> & ? & ->). split; [lia|done].
        + rewrite lookup_insert_ne by done. intros Hf. rewrite Hf.
          destruct (Hfs _ _ Hf). by split. }
    assert (∀ k f, functions_ m !! k = Some f → fs' !! k = Some f) as Hold.
    { intros k f Hf. unfold fs'.
      destruct (functions_ m !! code) eqn:Hc; [done|].
      rewrite lookup_insert_ne; [done|]. intros <-. congruence. }
    assert (∀ k, fs' !! k = None → functions_ m !! k = None) as Hnone.
    { intros k Hk. destruct (functions_ m !! k) eqn:Hf; [|done].
      apply Hold in Hf. congruence. }
    split.
    + split; fields.
      * constructor; [|done]. split; [done|].
        apply Forall_line_ok_replicate.
      * intros k f. rewrite lookup_alter. case_decide as Hk.
        -- subst k. destruct (fs' !! code) as [f0|] eqn:Hf0; [|done].
           intros [= <-]. destruct (Hfs' _ _ Hf0) as (Hc0 & Hok & _).
           split; [|done]. simpl. rewrite to_size_t_small by lia. lia.
        -- intros Hf. destruct (Hfs' _ _ Hf) as (Hc0 & Hok & _).
           split; [lia|done].
      * intros k c Hc. specialize (Hcs _ _ Hc). lia.
      * intros k. specialize (Hls k).
        rewrite stack_calls_cons.
        unfold FrameState.lines at 1; simpl. rewrite calls_sum_replicate.
        assert (registered_calls k
                  (with_last_instruction kCall
                     (with_frame_stack
                        (FrameState.make code (length texts) starting_line
                           :: frame_stack_ m)
                        (with_functions
                           (alter Function.add_call code fs') m))) =
                registered_calls k m) as ->.
        { unfold registered_calls at 1; fields. rewrite lookup_alter.
          case_decide as Hk.
          - subst k. destruct (fs' !! code) as [f0|] eqn:Hf0; simpl.
            + by destruct (Hfs' _ _ Hf0) as (_ & _ & ->).
            + unfold registered_calls. by rewrite (Hnone _ Hf0).
          - destruct (fs' !! k) as [f0|] eqn:Hf0.
            + by destruct (Hfs' _ _ Hf0) as (_ & _ & ->).
            + unfold registered_calls. by rewrite (Hnone _ Hf0). }
        case_decide; lia.
    + split; fields.
      * intros k f Hf. apply Hold in Hf. rewrite lookup_alter.
        case_decide as Hk.
        -- subst k. rewrite Hf. eexists. split; [done|].
           destruct (Hfs' _ _ Hf) as (Hc0 & _).
           split; [|apply (function_le_refl f)].
           unfold base_le; simpl. rewrite to_size_t_small by lia. lia.
        -- eauto using function_le_refl.
      * eauto using base_le_refl.
  - split; [|by apply stats_le_same]. by destruct Hweak.
  - set (cname := c_call_name arg0) in *.
    set (cs' := match c_functions_ m !! cname with
                | Some _ => c_functions_ m
                | None => <[cname := BaseFunction.make cname]> (c_functions_ m)
                end).
    assert (∀ k c, cs' !! k = Some c → 0 ≤ BaseFunction.n_calls_ c ≤ n)
      as Hcs'.
    { intros k c. unfold cs'.
      destruct (c_functions_ m !! cname) eqn:Hc; [apply Hcs|].
      destruct (decide (cname = k)) as [<-|Hne].
      - rewrite lookup_insert_eq. intros [= <-]. simpl. lia.
      - rewrite lookup_insert_ne by done. apply Hcs. }
    assert (∀ k c, c_functions_ m !! k = Some c → cs' !! k = Some c) as Hold.
    { intros k c Hc. unfold cs'.
      destruct (c_functions_ m !! cname) eqn:Hc0; [done|].
      rewrite lookup_insert_ne; [done|]. intros <-. congruence. }
    split.
    + split; fields; [done| | |].
      * intros k f Hf. destruct (Hfs _ _ Hf). split; [lia|done].
      * intros k c. rewrite lookup_alter. case_decide as Hk.
        -- subst k. destruct (cs' !! cname) as [c0|] eqn:Hc0; [|done].
           intros [= <-]. specialize (Hcs' _ _ Hc0). simpl.
           rewrite to_size_t_small by lia. lia.
        -- intros Hc. specialize (Hcs' _ _ Hc). lia.
      * intros k. specialize (Hls k). unfold registered_calls in *. fields.
        lia.
    + split; fields.
      * eauto using function_le_refl.
      * intros k c Hc. apply Hold in Hc. rewrite lookup_alter.
        case_decide as Hk.
        -- subst k. rewrite Hc. eexists. split; [done|].
           specialize (Hcs' _ _ Hc).
           unfold base_le; simpl. rewrite to_size_t_small by lia. lia.
        -- eauto using base_le_refl.
  - split; [|by apply stats_le_same]. by destruct Hweak.
  - split; [|by apply stats_le_same]. by destruct Hweak.
  - split; [done|apply stats_le_refl].
  - split; [done|apply stats_le_refl].
Qed.

Lemma counters_inv_ext n m m' :
  functions_ m' = functions_ m → c_functions_ m' = c_functions_ m →
  frame_stack_ m' = frame_stack_ m →
  counters_inv n m → counters_inv n m'.
Proof.
  intros Hf Hc Hs [H1 H2 H3 H4]. split.
  - by rewrite Hs.
  - intros k f. rewrite Hf. apply H2.
  - intros k c. rewrite Hc. apply H3.
  - intros k. rewrite Hs, (registered_calls_ext m) by done. apply H4.
Qed.

Lemma profile_counters t_in t_out w fr a n t m m' :
  counters_inv n m → 0 ≤ n → n + 1 < 2 ^ 64 →
  clock_inv t m → t ≤ t_in →
  profile t_in t_out w fr a m = Done m' →
  counters_inv (n + 1) m' ∧ stats_le m m' ∧
  last_instruction_start_ m' = t_out.
Proof.
  intros Hinv H0 Hn Hclk Ht Hp.
  apply profile_Done_inv in Hp as (m1 & m2 & Hf & Hb & ->).
  apply finish_Done_inv in Hf. apply begin_Done_inv in Hb.
  destruct (finished_counters fr n (with_last_instruction_end t_in m) m1)
    as [Hinv1 Hle1]; [by apply (counters_inv_ext n m)|lia| |done|].
  { destruct Hclk as [Hk|Hk]; [by left|right].
    unfold elapsed; simpl. lia. }
  destruct (begun_counters fr a n m1 w m2) as [Hinv2 Hle2]; [done..|].
  split; [by apply (counters_inv_ext (n + 1) m2)|]. split; [|done].
  eapply stats_le_trans; [|eapply stats_le_trans]; [|exact Hle1|].
  - by apply stats_le_same.
  - eapply stats_le_trans; [exact Hle2|]. by apply stats_le_same.
Qed.

Lemma deliver_counters ev n t m m' :
  counters_inv n m → 0 ≤ n → n + 1 < 2 ^ 64 →
  clock_inv t m → t ≤ now_in ev → now_in ev ≤ now_out ev →
  deliver ev m = Done m' →
  counters_inv (n + 1) m' ∧ stats_le m m' ∧ clock_inv (now_out ev) m'.
Proof.
  intros Hinv H0 Hn Hclk Ht Hio Hd.
  assert (deliver ev m =
            profile (now_in ev) (now_out ev) (what ev) (frame ev) (arg ev) m ∨
          m' = m) as [Heq| ->].
  { unfold deliver, trace_func, profile_func in *.
    destruct (hook ev); [by left|].
    destruct (what ev); first [by left | right; by injection Hd]. }
  - rewrite Heq in Hd.
    destruct (profile_counters _ _ _ _ _ n t m m' Hinv H0 Hn Hclk Ht Hd)
      as (H1 & H2 & H3).
    split; [done|]. split; [done|]. right. lia.
  - split; [by apply (counters_inv_weaken n); [lia|]|].
    split; [apply stats_le_refl|].
    destruct Hclk as [Hk|Hk]; [by left|right; lia].
Qed.

Lemma run_counters evs : ∀ n t m m',
  counters_inv n m → 0 ≤ n → n + Z.of_nat (length evs) < 2 ^ 64 →
  clock_inv t m → clock_from t evs →
  run evs m = Done m' →
  stats_le m m'.
Proof.
  induction evs as [|ev evs IH]; intros n t m m' Hinv H0 Hn Hclk Hfrom Hr.
  - injection Hr as <-. apply stats_le_refl.
  - simpl in Hr, Hfrom. destruct Hfrom as (Ht & Hio & Hfrom).
    rewrite length_cons, Nat2Z.inj_succ in Hn.
    destruct (deliver ev m) as [m1| |] eqn:Hd; cbn [and_then] in Hr;
      try done.
    destruct (deliver_counters ev n t m m1) as (H1 & H2 & H3);
      [done|done|lia|done..|].
    eapply stats_le_trans; [exact H2|].
    apply (IH (n + 1) (now_out ev) m1 m'); [done|lia|lia|done..].
Qed.

Lemma start_counters : counters_inv 0 (start Module_init).
Proof.
  split; simpl; [done|..].
  - intros k f. by rewrite lookup_empty.
  - intros k c. by rewrite lookup_empty.
  - intros k. unfold registered_calls; simpl. by rewrite lookup_empty.
Qed.

Lemma run_counters_from pre : ∀ n t m0 m post m',
  counters_inv n m0 → 0 ≤ n →
  n + Z.of_nat (length (pre ++ post)) < 2 ^ 64 →
  clock_inv t m0 → clock_from t (pre ++ post) →
  run pre m0 = Done m → run post m = Done m' →
  stats_le m m'.
Proof.
  induction pre as [|ev pre IH];
    intros n t m0 m post m' Hinv H0 Hn Hclk Hfrom Hpre Hpost.
  - injection Hpre as <-. by eapply run_counters.
  - simpl in Hpre, Hfrom, Hn. destruct Hfrom as (Ht & Hio & Hfrom).
    rewrite Nat2Z.inj_succ in Hn.
    destruct (deliver ev m0) as [m1| |] eqn:Hd; cbn [and_then] in Hpre;
      try done.
    destruct (deliver_counters ev n t m0 m1) as (H1 & H2 & H3);
      [done|done|lia|done..|].
    apply (IH (n + 1) (now_out ev) m1 m post m'); [done|lia|lia|done..].
Qed.

(** C5.  In a session whose clock readings never go back and which
    processes fewer than [2^64] events, every function, native function
    and line record that exists at some point is still there at every
    later point, with a call count, a self time, an internal time and an
    external time at least as large. *)
Theorem counters_never_decrease t pre post m m' :
  clock_from t (pre ++ post) →
  Z.of_nat (length (pre ++ post)) < 2 ^ 64 →
  run pre (start Module_init) = Done m →
  run post m = Done m' →
  stats_le m m'.
Proof.
  intros Hfrom Hlen Hpre Hpost.
  apply (run_counters_from pre 0 t (start Module_init) m post m');
    [apply start_counters|done|lia|by left|done..].
Qed.

Lemma counters_never_decrease_witness : stats_le after_enter after_leave.
Proof.
  apply (counters_never_decrease 0 session_enter
           (session_native ++ session_leave)).
  - simpl. lia.
  - vm_compute. reflexivity.
  - vm_compute. reflexivity.
  - vm_compute. reflexivity.
Defined.

(** ** What a popped frame holds *)

Lemma observed_time_insert ls i l l' :
  ls !! i = Some l →
  observed_time (<[i := l']> ls) =
  observed_time ls
    + (LineState.internal_ l' + LineState.external_ l')
    - (LineState.internal_ l + LineState.external_ l).
Proof.
  revert i. induction ls as [|x ls IH]; intros [|i] H; simpl in *; try done.
  - injection H as ->. lia.
  - rewrite (IH _ H). lia.
Qed.

Lemma observed_time_replicate n :
  observed_time (replicate n LineState.zero) = 0.
Proof. induction n as [|n IH]; simpl; [done|]. by rewrite IH. Qed.

Lemma set_current_account fr l l' d :
  FrameState.current_line fr = Some l →
  LineState.internal_ l' + LineState.external_ l' =
    LineState.internal_ l + LineState.external_ l + d →
  frame_account (FrameState.set_current l' fr) =
  ((frame_account fr).1 + d, (frame_account fr).2).
Proof.
  intros Hl Hd. unfold frame_account, FrameState.lines; simpl.
  rewrite (observed_time_insert _ _ _ _ Hl). f_equal. lia.
Qed.

Lemma finished_ledger frame0 m m' :
  finished frame0 m m' →
  ledger_of m' =
  {| ledger_last := last_instruction_ m;
     ledger_start := last_instruction_start_ m;
     ledger_frames := ledger_finish (last_instruction_end_ m) (ledger_of m) |}.
Proof.
  unfold ledger_of, ledger_finish.
  destruct 1 as
    [ Hk | Hk Hst | top rest line Hk Hst Hl | function Hk Hf
    | top function Hk Hst Hf Hlen
    | top caller rest function line Hk Hst Hf Hlen Hl
    | c top rest line Hk Hc Hst Hl | top rest Hk Hst ]; fields; f_equal;
    cbn [ledger_last ledger_start ledger_frames].
  - by destruct (last_instruction_ m).
  - by rewrite Hk, Hst.
  - rewrite Hk, Hst. cbn [fmap list_fmap].
    rewrite (set_current_account top line _ (elapsed m)) by (done || simpl; lia).
    done.
  - by rewrite Hk.
  - by rewrite Hk, Hst.
  - rewrite Hk, Hst. cbn [fmap list_fmap].
    rewrite (set_current_account caller line _
               (observed_time (FrameState.lines top)))
      by (done || simpl; lia).
    done.
  - rewrite Hk, Hst. cbn [fmap list_fmap].
    rewrite (set_current_account top line _ (elapsed m)) by (done || simpl; lia).
    done.
  - by rewrite Hk, Hst.
Qed.

Lemma begun_ledger frame0 arg0 m what0 m' :
  begun frame0 arg0 m what0 m' →
  last_instruction_start_ m' = last_instruction_start_ m ∧
  (last_instruction_ m', frame_account <$> frame_stack_ m') =
  ledger_begin what0 (last_instruction_ m) (frame_account <$> frame_stack_ m).
Proof.
  destruct 1 as
    [ Hst | top rest line Hst Hl | texts starting_line Hg | | | | | | ];
    fields; (split; [done|]); unfold ledger_begin; try done.
  - rewrite Hst. cbn [fmap list_fmap]. do 2 f_equal.
    rewrite (set_current_account _ line _ 0) by (done || simpl; lia).
    unfold frame_account, FrameState.lines, FrameState.internal; simpl.
    f_equal. lia.
  - cbn [fmap list_fmap]. do 2 f_equal.
    unfold frame_account, FrameState.lines; simpl.
    by rewrite observed_time_replicate.
Qed.

Lemma profile_ledger t_in t_out w fr a m m' :
  profile t_in t_out w fr a m = Done m' →
  ledger_of m' =
  let begun :=
    ledger_begin w (last_instruction_ m) (ledger_finish t_in (ledger_of m)) in
  {| ledger_last := begun.1; ledger_start := t_out; ledger_frames := begun.2 |}.
Proof.
  intros Hp. apply profile_Done_inv in Hp as (m1 & m2 & Hf & Hb & ->).
  apply finish_Done_inv, finished_ledger in Hf.
  apply begin_Done_inv, begun_ledger in Hb as [_ Hb].
  injection Hf as Hk Hs Hfr. fields.
  change (ledger_of (with_last_instruction_end t_in m)) with (ledger_of m)
    in Hfr.
  unfold ledger_of at 1; fields. rewrite Hk, Hfr in Hb.
  cbn zeta. by rewrite <- Hb.
Qed.

Lemma deliver_ledger ev m m' :
  deliver ev m = Done m' → ledger_of m' = ledger_event (ledger_of m) ev.
Proof.
  unfold deliver, trace_func, profile_func, ledger_event, processed.
  destruct (hook ev); [apply profile_ledger|].
  destruct (what ev); try (by intros [= <-]). apply profile_ledger.
Qed.

Lemma run_ledger evs : ∀ m m',
  run evs m = Done m' → ledger_of m' = foldl ledger_event (ledger_of m) evs.
Proof.
  induction evs as [|ev evs IH]; intros m m'; simpl.
  - by intros [= <-].
  - destruct (deliver ev m) as [m1| |] eqn:Hd; cbn [and_then]; try done.
    intros Hr. rewrite (IH _ _ Hr). by rewrite (deliver_ledger _ _ _ Hd).
Qed.

Lemma popped_frame_finish frame0 t_next m fr :
  popped_frame t_next m = Some fr →
  finish frame0 (with_last_instruction_end t_next m) =
  pop_frame
    (with_frame_stack (fr :: rest_of m) (with_last_instruction_end t_next m)).
Proof.
  unfold popped_frame, finish, finish_return, top_add_internal, rest_of.
  fields. destruct (last_instruction_ m); try done.
  destruct (frame_stack_ m) as [|top rest]; [done|]. by intros [= <-].
Qed.

(** C1, as the code has it.  The frame popped by the Finish phase of the
    event that follows a Return holds, as the sum of its lines' internal
    and external time plus its overhead, exactly what the ledger of the
    session charges to it: the intervals that follow the Line, NativeCall,
    NativeReturn and NativeException events processed while it is the top
    frame, the line totals of the frames popped from above it, and the
    interval that follows its own Return.  The interval that follows its
    Call is charged to no frame. *)
Theorem popped_frame_holds_its_ledger evs m t_next fr frame :
  run evs (start Module_init) = Done m →
  popped_frame t_next m = Some fr →
  finish frame (with_last_instruction_end t_next m) =
    pop_frame
      (with_frame_stack (fr :: rest_of m)
         (with_last_instruction_end t_next m)) ∧
  ∃ l o rest,
    ledger_last (ledger evs) = kReturn ∧
    ledger_frames (ledger evs) = (l, o) :: rest ∧
    observed_time (FrameState.lines fr) + FrameState.internal fr =
    l + o + (t_next - ledger_start (ledger evs)).
Proof.
  intros Hr Hp. split; [by apply popped_frame_finish|].
  apply run_ledger in Hr.
  change (ledger_of (start Module_init)) with ledger_init in Hr.
  fold (ledger evs) in Hr. rewrite <- Hr.
  unfold popped_frame in Hp. unfold ledger_of; simpl.
  destruct (last_instruction_ m); try done.
  destruct (frame_stack_ m) as [|top rest]; [done|].
  injection Hp as <-.
  exists (observed_time (FrameState.lines top)), (FrameState.internal top),
    (frame_account <$> rest).
  split; [done|]. split; [done|].
  unfold FrameState.internal, FrameState.lines; simpl. lia.
Qed.

Lemma popped_frame_holds_its_ledger_witness :
  ∃ l o rest,
    ledger_last (ledger (span_call :: span_body ++ [span_return])) = kReturn ∧
    ledger_frames (ledger (span_call :: span_body ++ [span_return])) =
      (l, o) :: rest ∧
    observed_time
      (FrameState.lines
         (FrameState.add_internal (156 - 150) (top_of after_span)))
    + FrameState.internal
        (FrameState.add_internal (156 - 150) (top_of after_span)) =
    l + o
    + (156 - ledger_start (ledger (span_call :: span_body ++ [span_return]))).
Proof.
  apply (popped_frame_holds_its_ledger
           (span_call :: span_body ++ [span_return]) after_span 156
           (FrameState.add_internal (156 - 150) (top_of after_span))
           (frame_g 23)).
  - vm_compute. reflexivity.
  - vm_compute. reflexivity.
Defined.

(** C1, as stated, fails.  In the sample call of [f] the popped frame
    holds 46 ns (40 on its lines, from the first Line event to the Return,
    and 6 of overhead, from the Return to the next event), whereas the
    Call and the Return are 50 ns apart: the 10 ns that follow the Call
    went to the aggregate of [f], not to the frame. *)
Lemma popped_frame_is_not_the_span : ¬ frame_time_is_call_return_span.
Proof.
  intros H.
  specialize (H [] span_call span_body span_return 156 after_span
                (FrameState.add_internal (156 - 150) (top_of after_span))).
  assert (46 = 50) as Habs; [|done].
  apply H; try reflexivity.
  - repeat constructor; discriminate.
  - repeat constructor.
  - vm_compute. discriminate.
Qed.

(** * Further properties of the engine *)

(** ** The stack and the call nesting *)

Lemma finished_nesting frame0 m m' :
  finished frame0 m m' →
  last_instruction_ m' = last_instruction_ m ∧
  FrameState.key <$> frame_stack_ m' =
  match last_instruction_ m with
  | kReturn => tail (FrameState.key <$> frame_stack_ m)
  | _ => FrameState.key <$> frame_stack_ m
  end.
Proof.
  destruct 1 as
    [ Hk | Hk Hst | top rest line Hk Hst Hl | function Hk Hf
    | top function Hk Hst Hf Hlen
    | top caller rest function line Hk Hst Hf Hlen Hl
    | c top rest line Hk Hc Hst Hl | top rest Hk Hst ]; fields;
    (split; [done|]).
  - by destruct (last_instruction_ m).
  - by rewrite Hk.
  - by rewrite Hk, Hst.
  - by rewrite Hk.
  - by rewrite Hk, Hst.
  - by rewrite Hk, Hst.
  - by rewrite Hk, Hst.
  - by rewrite Hk, Hst.
Qed.

Lemma begun_nesting frame0 arg0 m what0 m' :
  begun frame0 arg0 m what0 m' →
  last_instruction_ m' = kind_begun what0 (last_instruction_ m) ∧
  FrameState.key <$> frame_stack_ m' =
  match what0 with
  | PyTrace_CALL => f_code frame0 :: (FrameState.key <$> frame_stack_ m)
  | _ => FrameState.key <$> frame_stack_ m
  end.
Proof.
  destruct 1 as
    [ Hst | top rest line Hst Hl | texts starting_line Hg | | | | | | ];
    fields; (split; [done|]); try done.
  by rewrite Hst.
Qed.

Lemma profile_nesting t_in t_out w fr a m m' :
  profile t_in t_out w fr a m = Done m' →
  nesting_of m' =
  {| nesting_last := kind_begun w (last_instruction_ m);
     nesting_codes :=
       match w with
       | PyTrace_CALL =>
         f_code fr ::
           match last_instruction_ m with
           | kReturn => tail (FrameState.key <$> frame_stack_ m)
           | _ => FrameState.key <$> frame_stack_ m
           end
       | _ =>
         match last_instruction_ m with
         | kReturn => tail (FrameState.key <$> frame_stack_ m)
         | _ => FrameState.key <$> frame_stack_ m
         end
       end |}.
Proof.
  intros Hp. apply profile_Done_inv in Hp as (m1 & m2 & Hf & Hb & ->).
  apply finish_Done_inv, finished_nesting in Hf as [Hk1 Hs1].
  apply begin_Done_inv, begun_nesting in Hb as [Hk2 Hs2]. fields.
  unfold nesting_of; fields. rewrite Hk2, Hs2, Hk1, Hs1.
  by destruct w.
Qed.

Lemma deliver_nesting ev m m' :
  deliver ev m = Done m' → nesting_of m' = nesting_event (nesting_of m) ev.
Proof.
  unfold deliver, trace_func, profile_func, nesting_event, processed.
  destruct (hook ev).
  - intros Hp. rewrite (profile_nesting _ _ _ _ _ _ _ Hp).
    unfold nesting_of; simpl. by destruct (what ev).
  - destruct (what ev); try (by intros [= <-]).
    intros Hp. by rewrite (profile_nesting _ _ _ _ _ _ _ Hp).
Qed.

Lemma run_nesting evs : ∀ m m',
  run evs m = Done m' →
  nesting_of m' = foldl nesting_event (nesting_of m) evs.
Proof.
  induction evs as [|ev evs IH]; intros m m'; simpl.
  - by intros [= <-].
  - destruct (deliver ev m) as [m1| |] eqn:Hd; cbn [and_then]; try done.
    intros Hr. rewrite (IH _ _ Hr). by rewrite (deliver_nesting _ _ _ Hd).
Qed.

(** X1.  After any session that completes, the stack holds exactly one
    frame per open call, innermost first, each keyed by the code of the
    Call event that opened it: a frame is pushed by every processed Call,
    removed by the first event processed after a Return, and by nothing
    else. *)
Theorem stack_mirrors_call_nesting evs m :
  run evs (start Module_init) = Done m →
  last_instruction_ m = nesting_last (nesting evs) ∧
  FrameState.key <$> frame_stack_ m = nesting_codes (nesting evs).
Proof.
  intros Hr. apply run_nesting in Hr.
  change (nesting_of (start Module_init)) with nesting_init in Hr.
  fold (nesting evs) in Hr. rewrite <- Hr. done.
Qed.

Lemma stack_mirrors_call_nesting_witness :
  FrameState.key <$> frame_stack_ after_enter = [4096; 8192] ∧
  FrameState.key <$> frame_stack_ after_leave = [].
Proof.
  split.
  - apply (stack_mirrors_call_nesting session_enter after_enter).
    vm_compute. reflexivity.
  - apply (stack_mirrors_call_nesting
             (session_enter ++ session_native ++ session_leave) after_leave).
    vm_compute. reflexivity.
Defined.

(** ** One event, in two phases *)

Lemma profile_steps t_in t_out w fr a m m' :
  profile t_in t_out w fr a m = Done m' →
  ∃ m1 m2,
    finished fr (with_last_instruction_end t_in m) m1 ∧
    begun fr a m1 w m2 ∧
    m' = with_last_instruction_start t_out m2.
Proof.
  intros Hp. apply profile_Done_inv in Hp as (m1 & m2 & Hf & Hb & ->).
  exists m1, m2. split; [by apply finish_Done_inv|].
  split; [by apply begin_Done_inv|done].
Qed.

Lemma deliver_steps ev m m' :
  deliver ev m = Done m' →
  (processed ev = true ∧
   ∃ m1 m2,
     finished (frame ev) (with_last_instruction_end (now_in ev) m) m1 ∧
     begun (frame ev) (arg ev) m1 (what ev) m2 ∧
     m' = with_last_instruction_start (now_out ev) m2) ∨
  (processed ev = false ∧ m' = m).
Proof.
  unfold deliver, trace_func, profile_func, processed.
  destruct (hook ev).
  - intros Hp. left. split; [done|]. by apply profile_steps.
  - destruct (what ev); try (intros [= <-]; by right).
    intros Hp. left. split; [done|]. by apply profile_steps.
Qed.

(** ** What the steps do to the registries *)

Lemma merged_lines_text records ls :
  LineRecord.text <$> merged_lines records ls = LineRecord.text <$> records.
Proof.
  apply list_eq; intros i.
  rewrite !list_lookup_fmap, merged_lines_lookup.
  destruct (records !! i) as [r|]; simpl; [|done].
  by destruct (ls !! i).
Qed.

Lemma merged_function_identity frame0 f :
  same_identity f (merged_function frame0 f).
Proof.
  unfold same_identity, merged_function; simpl.
  by rewrite merged_lines_text.
Qed.

Lemma same_identity_refl f : same_identity f f.
Proof. by unfold same_identity. Qed.

Lemma same_identity_trans f g h :
  same_identity f g → same_identity g h → same_identity f h.
Proof. unfold same_identity. intros (-> & -> & ->) (-> & -> & ->). done. Qed.

(** A Finish phase creates no function, keeps the identity and the call
    count of every function, and touches line records only when it pops. *)
Lemma finished_functions frame0 m m' k :
  finished frame0 m m' →
  match functions_ m !! k with
  | Some f =>
    ∃ f',
      functions_ m' !! k = Some f' ∧ same_identity f f' ∧
      BaseFunction.n_calls_ (Function.base f') =
        BaseFunction.n_calls_ (Function.base f) ∧
      (last_instruction_ m ≠ kReturn →
       Function.lines_ f' = Function.lines_ f)
  | None => functions_ m' !! k = None
  end.
Proof.
  assert (∀ k0 f0 g (fs : gmap Z Function.t),
    fs !! k0 = Some f0 → same_identity f0 g →
    BaseFunction.n_calls_ (Function.base g) =
      BaseFunction.n_calls_ (Function.base f0) →
    (last_instruction_ m ≠ kReturn → Function.lines_ g = Function.lines_ f0) →
    match fs !! k with
    | Some f =>
      ∃ f',
        <[k0 := g]> fs !! k = Some f' ∧ same_identity f f' ∧
        BaseFunction.n_calls_ (Function.base f') =
          BaseFunction.n_calls_ (Function.base f) ∧
        (last_instruction_ m ≠ kReturn →
         Function.lines_ f' = Function.lines_ f)
    | None => <[k0 := g]> fs !! k = None
    end) as Hins.
  { intros k0 f0 g fs Hf0 Hid Hn Hl.
    destruct (decide (k0 = k)) as [->|Hne].
    - rewrite Hf0, lookup_insert_eq. by exists g.
    - rewrite lookup_insert_ne by done.
      destruct (fs !! k) as [f|]; [|done].
      exists f. by split; [|split; [apply same_identity_refl|]]. }
  assert (match functions_ m !! k with
          | Some f =>
            ∃ f',
              functions_ m !! k = Some f' ∧ same_identity f f' ∧
              BaseFunction.n_calls_ (Function.base f') =
                BaseFunction.n_calls_ (Function.base f) ∧
              (last_instruction_ m ≠ kReturn →
               Function.lines_ f' = Function.lines_ f)
          | None => functions_ m !! k = None
          end) as Hsame.
  { destruct (functions_ m !! k) as [f|]; [|done].
    exists f. by split; [|split; [apply same_identity_refl|]]. }
  destruct 1 as
    [ Hk | Hk Hst | top rest line Hk Hst Hl | function Hk Hf
    | top function Hk Hst Hf Hlen
    | top caller rest function line Hk Hst Hf Hlen Hl
    | c top rest line Hk Hc Hst Hl | top rest Hk Hst ]; fields;
    try exact Hsame.
  - by apply (Hins _ function).
  - apply (Hins _ function); [done|apply merged_function_identity|done|].
    by rewrite Hk.
  - apply (Hins _ function); [done|apply merged_function_identity|done|].
    by rewrite Hk.
Qed.

Lemma finished_c_functions frame0 m m' k :
  finished frame0 m m' →
  match c_functions_ m !! k with
  | Some c =>
    ∃ c',
      c_functions_ m' !! k = Some c' ∧
      BaseFunction.name_ c' = BaseFunction.name_ c ∧
      BaseFunction.n_calls_ c' = BaseFunction.n_calls_ c
  | None => c_functions_ m' !! k = None
  end.
Proof.
  assert (match c_functions_ m !! k with
          | Some c =>
            ∃ c',
              c_functions_ m !! k = Some c' ∧
              BaseFunction.name_ c' = BaseFunction.name_ c ∧
              BaseFunction.n_calls_ c' = BaseFunction.n_calls_ c
          | None => c_functions_ m !! k = None
          end) as Hsame.
  { destruct (c_functions_ m !! k) as [c|]; [|done]. by exists c. }
  destruct 1 as
    [ Hk | Hk Hst | top rest line Hk Hst Hl | function Hk Hf
    | top function Hk Hst Hf Hlen
    | top caller rest function line Hk Hst Hf Hlen Hl
    | c top rest line Hk Hc Hst Hl | top rest Hk Hst ]; fields;
    try exact Hsame.
  destruct (decide (last_c_name_ m = k)) as [<-|Hne].
  - rewrite Hc, lookup_insert_eq. by eexists.
  - by rewrite lookup_insert_ne.
Qed.

(** A Begin phase keeps every function as it is, except that a Call
    registers its code on first sight and adds one to its call count. *)
Lemma begun_functions frame0 arg0 m what0 m' k :
  begun frame0 arg0 m what0 m' →
  (∀ f, functions_ m !! k = Some f →
        ∃ f', functions_ m' !! k = Some f' ∧ same_identity f f' ∧
              Function.lines_ f' = Function.lines_ f) ∧
  function_calls k m' =
    (if bool_decide (what0 = PyTrace_CALL ∧ f_code frame0 = k)
     then to_size_t (function_calls k m + 1) else function_calls k m) ∧
  (is_Some (functions_ m' !! k) ↔
   is_Some (functions_ m !! k) ∨ (what0 = PyTrace_CALL ∧ f_code frame0 = k)).
Proof.
  assert ((∀ f, functions_ m !! k = Some f →
             ∃ f', functions_ m !! k = Some f' ∧ same_identity f f' ∧
                   Function.lines_ f' = Function.lines_ f) ∧
          (is_Some (functions_ m !! k) ↔ is_Some (functions_ m !! k) ∨ False))
    as [Hsame1 Hsame2].
  { split; [|tauto]. intros f Hf. exists f.
    by split; [|split; [apply same_identity_refl|]]. }
  destruct 1 as
    [ Hst | top rest line Hst Hl | texts starting_line Hg | | | | | | ];
    unfold function_calls; fields;
    try (rewrite bool_decide_false by (by intros [? _]);
         split; [exact Hsame1|]; split; [done|];
         rewrite Hsame2; clear; intuition congruence).
  rewrite lookup_alter. case_bool_decide as Hk; case_decide as Hk'.
  - destruct Hk as [_ Hk]. subst k.
    destruct (functions_ m !! f_code frame0) as [f|] eqn:Hf.
    + rewrite Hf. simpl. split; [|split; [done|]].
      * intros f0 [= <-]. eexists. split; [done|]. by split.
      * split; eauto.
    + rewrite lookup_insert_eq. simpl. split; [done|]. split; [done|].
      split; eauto.
  - destruct Hk'. by destruct Hk.
  - destruct Hk. by split.
  - assert (match functions_ m !! f_code frame0 with
            | Some _ => functions_ m
            | None =>
              <[f_code frame0 :=
                  Function.make (co_name frame0) texts (f_code frame0)]>
                (functions_ m)
            end !! k = functions_ m !! k) as ->.
    { destruct (functions_ m !! f_code frame0); [done|].
      by rewrite lookup_insert_ne. }
    split; [exact Hsame1|]. split; [done|].
    rewrite Hsame2. clear -Hk'. intuition congruence.
Qed.

Lemma begun_c_functions frame0 arg0 m what0 m' k :
  begun frame0 arg0 m what0 m' →
  (∀ c, c_functions_ m !! k = Some c →
        ∃ c', c_functions_ m' !! k = Some c' ∧
              BaseFunction.name_ c' = BaseFunction.name_ c ∧
              BaseFunction.internal_time_ c' = BaseFunction.internal_time_ c) ∧
  c_function_calls k m' =
    (if bool_decide (what0 = PyTrace_C_CALL ∧ c_call_name arg0 = k)
     then to_size_t (c_function_calls k m + 1) else c_function_calls k m) ∧
  (is_Some (c_functions_ m' !! k) ↔
   is_Some (c_functions_ m !! k) ∨
   (what0 = PyTrace_C_CALL ∧ c_call_name arg0 = k)).
Proof.
  assert ((∀ c, c_functions_ m !! k = Some c →
             ∃ c', c_functions_ m !! k = Some c' ∧
                   BaseFunction.name_ c' = BaseFunction.name_ c ∧
                   BaseFunction.internal_time_ c' =
                     BaseFunction.internal_time_ c) ∧
          (is_Some (c_functions_ m !! k) ↔
           is_Some (c_functions_ m !! k) ∨ False))
    as [Hsame1 Hsame2].
  { split; [|tauto]. intros c Hc. by exists c. }
  destruct 1 as
    [ Hst | top rest line Hst Hl | texts starting_line Hg | | | | | | ];
    unfold c_function_calls; fields;
    try (rewrite bool_decide_false by (by intros [? _]);
         split; [exact Hsame1|]; split; [done|];
         rewrite Hsame2; clear; intuition congruence).
  rewrite lookup_alter. case_bool_decide as Hk; case_decide as Hk'.
  - destruct Hk as [_ Hk]. subst k.
    destruct (c_functions_ m !! c_call_name arg0) as [c|] eqn:Hc.
    + rewrite Hc. simpl. split; [|split; [done|]].
      * intros c0 [= <-]. by eexists.
      * split; eauto.
    + rewrite lookup_insert_eq. simpl. split; [done|]. split; [done|].
      split; eauto.
  - destruct Hk'. by destruct Hk.
  - destruct Hk. by split.
  - assert (match c_functions_ m !! c_call_name arg0 with
            | Some _ => c_functions_ m
            | None =>
              <[c_call_name arg0 := BaseFunction.make (c_call_name arg0)]>
                (c_functions_ m)
            end !! k = c_functions_ m !! k) as ->.
    { destruct (c_functions_ m !! c_call_name arg0); [done|].
      by rewrite lookup_insert_ne. }
    split; [exact Hsame1|]. split; [done|].
    rewrite Hsame2. clear -Hk'. intuition congruence.
Qed.

Lemma function_calls_finished frame0 m m' k :
  finished frame0 m m' → function_calls k m' = function_calls k m.
Proof.
  intros Hf. pose proof (finished_functions _ _ _ k Hf) as H.
  unfold function_calls.
  destruct (functions_ m !! k) as [f|].
  - destruct H as (f' & -> & _ & -> & _). done.
  - by rewrite H.
Qed.

Lemma c_function_calls_finished frame0 m m' k :
  finished frame0 m m' → c_function_calls k m' = c_function_calls k m.
Proof.
  intros Hf. pose proof (finished_c_functions _ _ _ k Hf) as H.
  unfold c_function_calls.
  destruct (c_functions_ m !! k) as [c|].
  - destruct H as (c' & -> & _ & ->). done.
  - by rewrite H.
Qed.

Lemma is_call_of_spec k ev :
  is_call_of k ev = true ↔
  processed ev = true ∧ hook ev = SetProfile ∧ what ev = PyTrace_CALL ∧
  f_code (frame ev) = k.
Proof.
  unfold is_call_of, processed.
  destruct (hook ev), (what ev); try (split; [done|by intros (_ & ? & ? & _)]).
  rewrite bool_decide_eq_true. tauto.
Qed.

Lemma is_c_call_of_spec k ev :
  is_c_call_of k ev = true ↔
  processed ev = true ∧ hook ev = SetProfile ∧ what ev = PyTrace_C_CALL ∧
  c_call_name (arg ev) = k.
Proof.
  unfold is_c_call_of, processed.
  destruct (hook ev), (what ev); try (split; [done|by intros (_ & ? & ? & _)]).
  rewrite bool_decide_eq_true. tauto.
Qed.

Lemma processed_trace_is_line ev :
  processed ev = true → hook ev = SetTrace → what ev = PyTrace_LINE.
Proof.
  unfold processed. intros H Hh. rewrite Hh in H. by destruct (what ev).
Qed.

(** One event and the functions. *)
Lemma deliver_functions ev m m' k :
  deliver ev m = Done m' →
  (∀ f, functions_ m !! k = Some f →
        ∃ f', functions_ m' !! k = Some f' ∧ same_identity f f' ∧
              (last_instruction_ m ≠ kReturn →
               Function.lines_ f' = Function.lines_ f)) ∧
  function_calls k m' =
    (if is_call_of k ev then to_size_t (function_calls k m + 1)
     else function_calls k m) ∧
  (is_Some (functions_ m' !! k) ↔
   is_Some (functions_ m !! k) ∨ is_call_of k ev = true).
Proof.
  intros Hd.
  destruct (deliver_steps _ _ _ Hd) as [(Hp & m1 & m2 & Hf & Hb & ->)|[Hp ->]].
  - pose proof (finished_functions _ _ _ k Hf) as H1.
    pose proof (function_calls_finished _ _ _ k Hf) as H1c.
    destruct (begun_functions _ _ _ _ _ k Hb) as (H2 & H2c & H2s).
    fields.
    change (function_calls k (with_last_instruction_end (now_in ev) m))
      with (function_calls k m) in H1c.
    change (function_calls k (with_last_instruction_start (now_out ev) m2))
      with (function_calls k m2).
    assert (bool_decide (what ev = PyTrace_CALL ∧ f_code (frame ev) = k) =
            is_call_of k ev) as Hbd.
    { destruct (is_call_of k ev) eqn:Hc.
      - apply is_call_of_spec in Hc as (_ & _ & ? & ?).
        by rewrite bool_decide_true.
      - apply bool_decide_false. intros [Hw Hk].
        assert (is_call_of k ev = true); [|congruence].
        apply is_call_of_spec. split; [done|]. split; [|done].
        destruct (hook ev) eqn:Hh; [done|].
        pose proof (processed_trace_is_line _ Hp Hh). congruence. }
    rewrite Hbd in H2c. rewrite H1c in H2c.
    split; [|split; [done|]].
    + intros f Hf0. rewrite Hf0 in H1.
      destruct H1 as (f1 & Hf1 & Hid1 & _ & Hl1).
      destruct (H2 _ Hf1) as (f2 & Hf2 & Hid2 & Hl2).
      exists f2. split; [done|].
      split; [by eapply same_identity_trans|].
      intros Hk. rewrite Hl2. by apply Hl1.
    + rewrite H2s. rewrite <- Hbd, bool_decide_eq_true.
      destruct (functions_ m !! k) as [f|] eqn:Hf0.
      * destruct H1 as (f1 & -> & _). split; eauto.
      * rewrite H1. split; (intros [[? [=]]|?]; by right).
  - assert (is_call_of k ev = false) as ->.
    { destruct (is_call_of k ev) eqn:Hc; [|done].
      apply is_call_of_spec in Hc as [? _]. congruence. }
    split; [|split; [done|]].
    + intros f Hf. exists f. by split; [|split; [apply same_identity_refl|]].
    + split; [by left|]. by intros [?|?].
Qed.

Lemma deliver_c_functions ev m m' k :
  deliver ev m = Done m' →
  (∀ c, c_functions_ m !! k = Some c →
        ∃ c', c_functions_ m' !! k = Some c' ∧
              BaseFunction.name_ c' = BaseFunction.name_ c) ∧
  c_function_calls k m' =
    (if is_c_call_of k ev then to_size_t (c_function_calls k m + 1)
     else c_function_calls k m) ∧
  (is_Some (c_functions_ m' !! k) ↔
   is_Some (c_functions_ m !! k) ∨ is_c_call_of k ev = true).
Proof.
  intros Hd.
  destruct (deliver_steps _ _ _ Hd) as [(Hp & m1 & m2 & Hf & Hb & ->)|[Hp ->]].
  - pose proof (finished_c_functions _ _ _ k Hf) as H1.
    pose proof (c_function_calls_finished _ _ _ k Hf) as H1c.
    destruct (begun_c_functions _ _ _ _ _ k Hb) as (H2 & H2c & H2s).
    fields.
    change (c_function_calls k (with_last_instruction_end (now_in ev) m))
      with (c_function_calls k m) in H1c.
    change (c_function_calls k (with_last_instruction_start (now_out ev) m2))
      with (c_function_calls k m2).
    assert (bool_decide (what ev = PyTrace_C_CALL ∧ c_call_name (arg ev) = k) =
            is_c_call_of k ev) as Hbd.
    { destruct (is_c_call_of k ev) eqn:Hc.
      - apply is_c_call_of_spec in Hc as (_ & _ & ? & ?).
        by rewrite bool_decide_true.
      - apply bool_decide_false. intros [Hw Hk].
        assert (is_c_call_of k ev = true); [|congruence].
        apply is_c_call_of_spec. split; [done|]. split; [|done].
        destruct (hook ev) eqn:Hh; [done|].
        pose proof (processed_trace_is_line _ Hp Hh). congruence. }
    rewrite Hbd in H2c. rewrite H1c in H2c.
    split; [|split; [done|]].
    + intros c Hc0. rewrite Hc0 in H1.
      destruct H1 as (c1 & Hc1 & Hn1 & _).
      destruct (H2 _ Hc1) as (c2 & Hc2 & Hn2 & _).
      exists c2. split; [done|]. congruence.
    + rewrite H2s. rewrite <- Hbd, bool_decide_eq_true.
      destruct (c_functions_ m !! k) as [c|] eqn:Hc0.
      * destruct H1 as (c1 & -> & _). split; eauto.
      * rewrite H1. split; (intros [[? [=]]|?]; by right).
  - assert (is_c_call_of k ev = false) as ->.
    { destruct (is_c_call_of k ev) eqn:Hc; [|done].
      apply is_c_call_of_spec in Hc as [? _]. congruence. }
    split; [|split; [done|]].
    + intros c Hc. by exists c.
    + split; [by left|]. by intros [?|?].
Qed.

Lemma count_events_nonneg p evs : 0 ≤ count_events p evs.
Proof.
  induction evs as [|ev evs IH]; simpl; [done|]. destruct (p ev); lia.
Qed.

(** ** The identity of registered callables *)

(** X2.  Whatever a session does after a callable has been registered, the
    entry keeps its name, its code identity and its line texts (hence the
    number of its line records), even if later Call events of the same
    code come with another name or other source lines; a native function
    keeps its name. *)
Theorem registered_identity_is_fixed evs : ∀ m m',
  run evs m = Done m' →
  (∀ k f, functions_ m !! k = Some f →
          ∃ f', functions_ m' !! k = Some f' ∧ same_identity f f') ∧
  (∀ k c, c_functions_ m !! k = Some c →
          ∃ c', c_functions_ m' !! k = Some c' ∧
                BaseFunction.name_ c' = BaseFunction.name_ c).
Proof.
  induction evs as [|ev evs IH]; intros m m'; simpl.
  - intros [= <-]. split; intros k x Hx; by exists x.
  - destruct (deliver ev m) as [m1| |] eqn:Hd; cbn [and_then]; try done.
    intros Hr. destruct (IH _ _ Hr) as [IHf IHc]. split.
    + intros k f Hf.
      destruct (deliver_functions _ _ _ k Hd) as (H1 & _).
      destruct (H1 _ Hf) as (f1 & Hf1 & Hid1 & _).
      destruct (IHf _ _ Hf1) as (f2 & Hf2 & Hid2).
      exists f2. split; [done|]. by eapply same_identity_trans.
    + intros k c Hc.
      destruct (deliver_c_functions _ _ _ k Hd) as (H1 & _).
      destruct (H1 _ Hc) as (c1 & Hc1 & Hn1).
      destruct (IHc _ _ Hc1) as (c2 & Hc2 & Hn2).
      exists c2. split; [done|]. congruence.
Qed.

Lemma registered_identity_is_fixed_witness :
  ∃ f',
    functions_ after_again !! 4096 = Some f' ∧
    same_identity (function_of 4096 after_leave) f'.
Proof.
  apply (proj1 (registered_identity_is_fixed session_again after_leave
                  after_again eq_refl) 4096 (function_of 4096 after_leave)).
  vm_compute. reflexivity.
Defined.

(** ** Line records and the stack *)

Lemma deliver_last_not_return ev m m' :
  deliver ev m = Done m' →
  last_instruction_ m ≠ kReturn →
  (processed ev = true → what ev ≠ PyTrace_RETURN) →
  last_instruction_ m' ≠ kReturn.
Proof.
  intros Hd Hk Hw. apply deliver_nesting in Hd.
  apply (f_equal nesting_last) in Hd. simpl in Hd. rewrite Hd.
  unfold nesting_event. destruct (processed ev); [|done]. simpl.
  specialize (Hw eq_refl). by destruct (what ev).
Qed.

(** X3.  What a frame has gathered reaches the line records of its
    function through a pop only: across a session in which no Return
    event is processed, the line records of every registered function stay
    exactly as they were, whatever the frames on the stack hold. *)
Theorem line_records_wait_for_return evs : ∀ m m',
  run evs m = Done m' →
  last_instruction_ m ≠ kReturn →
  Forall (λ ev, processed ev = true → what ev ≠ PyTrace_RETURN) evs →
  ∀ k f,
    functions_ m !! k = Some f →
    ∃ f', functions_ m' !! k = Some f' ∧
          Function.lines_ f' = Function.lines_ f.
Proof.
  induction evs as [|ev evs IH]; intros m m'; simpl.
  - intros [= <-] _ _ k f Hf. by exists f.
  - destruct (deliver ev m) as [m1| |] eqn:Hd; cbn [and_then]; try done.
    intros Hr Hk Hall k f Hf.
    inversion Hall as [|? ? Hev Hall']; subst.
    destruct (deliver_functions _ _ _ k Hd) as (H1 & _).
    destruct (H1 _ Hf) as (f1 & Hf1 & _ & Hl1).
    destruct (IH _ _ Hr (deliver_last_not_return _ _ _ Hd Hk Hev) Hall'
                _ _ Hf1) as (f2 & Hf2 & Hl2).
    exists f2. split; [done|]. rewrite Hl2. by apply Hl1.
Qed.

Lemma line_records_wait_for_return_witness :
  ∃ f',
    functions_ after_c_exception !! 4096 = Some f' ∧
    Function.lines_ f' = Function.lines_ (function_of 4096 after_enter).
Proof.
  apply (line_records_wait_for_return
           [event SetProfile 150 152 PyTrace_C_CALL (frame_f 11);
            event SetProfile 160 161 PyTrace_C_EXCEPTION (frame_f 11)]
           after_enter after_c_exception).
  - vm_compute. reflexivity.
  - vm_compute. discriminate.
  - repeat constructor; discriminate.
  - vm_compute. reflexivity.
Defined.

(** ** Call counts *)

Lemma run_function_calls evs k : ∀ m m',
  run evs m = Done m' →
  0 ≤ function_calls k m < 2 ^ 64 →
  function_calls k m' =
    to_size_t (function_calls k m + count_events (is_call_of k) evs) ∧
  (is_Some (functions_ m' !! k) ↔
   is_Some (functions_ m !! k) ∨ 0 < count_events (is_call_of k) evs).
Proof.
  induction evs as [|ev evs IH]; intros m m'; simpl.
  - intros [= <-] Hr. rewrite Z.add_0_r, to_size_t_small by done.
    split; [done|]. split; [by left|]. intros [?|?]; [done|lia].
  - destruct (deliver ev m) as [m1| |] eqn:Hd; cbn [and_then]; try done.
    intros Hrun Hr.
    destruct (deliver_functions _ _ _ k Hd) as (_ & Hc & Hs).
    pose proof (count_events_nonneg (is_call_of k) evs) as Hnn.
    destruct (IH m1 m' Hrun) as [IHc IHs].
    { rewrite Hc. destruct (is_call_of k ev); [apply to_size_t_range|done]. }
    rewrite IHc, IHs, Hs, Hc. destruct (is_call_of k ev).
    + rewrite to_size_t_add_l. split; [f_equal; lia|].
      split; [intros _; right; lia|]. intros _. left. by right.
    + split; [done|]. split; [intros [[?|?]|?]; auto; done|].
      intros [?|?]; auto.
Qed.

Lemma run_c_function_calls evs k : ∀ m m',
  run evs m = Done m' →
  0 ≤ c_function_calls k m < 2 ^ 64 →
  c_function_calls k m' =
    to_size_t (c_function_calls k m + count_events (is_c_call_of k) evs) ∧
  (is_Some (c_functions_ m' !! k) ↔
   is_Some (c_functions_ m !! k) ∨ 0 < count_events (is_c_call_of k) evs).
Proof.
  induction evs as [|ev evs IH]; intros m m'; simpl.
  - intros [= <-] Hr. rewrite Z.add_0_r, to_size_t_small by done.
    split; [done|]. split; [by left|]. intros [?|?]; [done|lia].
  - destruct (deliver ev m) as [m1| |] eqn:Hd; cbn [and_then]; try done.
    intros Hrun Hr.
    destruct (deliver_c_functions _ _ _ k Hd) as (_ & Hc & Hs).
    pose proof (count_events_nonneg (is_c_call_of k) evs) as Hnn.
    destruct (IH m1 m' Hrun) as [IHc IHs].
    { rewrite Hc. destruct (is_c_call_of k ev); [apply to_size_t_range|done]. }
    rewrite IHc, IHs, Hs, Hc. destruct (is_c_call_of k ev).
    + rewrite to_size_t_add_l. split; [f_equal; lia|].
      split; [intros _; right; lia|]. intros _. left. by right.
    + split; [done|]. split; [intros [[?|?]|?]; auto; done|].
      intros [?|?]; auto.
Qed.

(** X4.  After a session that completes, a code identity is registered
    exactly when a Call event for it reached the engine, and its call
    count is the number of those events, modulo [2^64]; Call events seen
    by the trace hook do not count. *)
Theorem call_count_is_number_of_calls evs m k :
  run evs (start Module_init) = Done m →
  function_calls k m = to_size_t (count_events (is_call_of k) evs) ∧
  (is_Some (functions_ m !! k) ↔ 0 < count_events (is_call_of k) evs).
Proof.
  intros Hr.
  destruct (run_function_calls evs k _ _ Hr) as [Hc Hs]; [done|].
  split; [done|]. rewrite Hs. simpl. rewrite lookup_empty.
  split; [intros [[? [=]]|?]; done|by right].
Qed.

Lemma call_count_is_number_of_calls_witness :
  function_calls 4096 after_again = 2 ∧
  is_Some (functions_ after_again !! 4096).
Proof.
  destruct (call_count_is_number_of_calls
              (session_enter ++ session_native ++ session_leave ++
               session_again) after_again 4096) as [Hc Hs].
  - vm_compute. reflexivity.
  - split; [exact Hc|]. apply Hs. vm_compute. reflexivity.
Defined.

(** X5.  After a session that completes, a native function is registered
    under a name exactly when a NativeCall event whose callable formats to
    that name reached the engine, and its call count is the number of
    those events, modulo [2^64]: callables that format to the same name
    share one entry. *)
Theorem native_call_count_is_number_of_calls evs m name :
  run evs (start Module_init) = Done m →
  c_function_calls name m = to_size_t (count_events (is_c_call_of name) evs) ∧
  (is_Some (c_functions_ m !! name) ↔
   0 < count_events (is_c_call_of name) evs).
Proof.
  intros Hr.
  destruct (run_c_function_calls evs name _ _ Hr) as [Hc Hs]; [done|].
  split; [done|]. rewrite Hs. simpl. rewrite lookup_empty.
  split; [intros [[? [=]]|?]; done|by right].
Qed.

Lemma native_call_count_is_number_of_calls_witness :
  c_function_calls "<C-function builtins.len>" after_native = 1.
Proof.
  apply (native_call_count_is_number_of_calls
           (session_enter ++ session_native) after_native).
  vm_compute. reflexivity.
Defined.

(** ** Line events *)

Lemma current_line_set_current fr l l' :
  FrameState.current_line fr = Some l →
  FrameState.current_line (FrameState.set_current l' fr) = Some l'.
Proof.
  unfold FrameState.current_line, FrameState.set_current,
    FrameState.current_index; simpl.
  intros Hl. apply list_lookup_insert_eq. by eapply lookup_lt_Some.
Qed.

(** X6.  The Finish phase that follows a Line event never fails: when the
    Begin phase of the Line event has completed, either the stack is empty
    and the next Finish changes nothing, or the cursor of the top frame is
    on the line of the event, in range, and the next Finish adds the
    interval since the event to the internal time of that line and to
    nothing else. *)
Theorem line_finish_never_fails ev m m' t frame' :
  deliver ev m = Done m' →
  what ev = PyTrace_LINE →
  match frame_stack_ m' with
  | [] =>
    finish frame' (with_last_instruction_end t m') =
    Done (with_last_instruction_end t m')
  | top :: rest =>
    ∃ line,
      FrameState.current_line_ top = to_size_t (f_lineno (frame ev)) ∧
      FrameState.current_line top = Some line ∧
      finish frame' (with_last_instruction_end t m') =
      Done (with_frame_stack
              (FrameState.set_current
                 (LineState.add_internal (t - now_out ev) line) top :: rest)
              (with_last_instruction_end t m'))
  end.
Proof.
  intros Hd Hw.
  destruct (deliver_steps _ _ _ Hd) as [(Hp & m1 & m2 & Hf & Hb & ->)|[Hp _]].
  2: { unfold processed in Hp. rewrite Hw in Hp. by destruct (hook ev). }
  rewrite Hw in Hb. unfold finish, finish_line, top_current_line, elapsed.
  inversion Hb as [ Hst | top rest line Hst Hl | | | | | | | ]; subst; fields.
  - by rewrite Hst.
  - exists (LineState.add_call line). split; [done|].
    pose proof (current_line_set_current _ _ (LineState.add_call line) Hl)
      as Hl'.
    split; [done|]. by rewrite Hl'.
Qed.

Lemma line_finish_never_fails_witness :
  ∃ line,
    FrameState.current_line_ (top_of after_enter) = to_size_t 11 ∧
    FrameState.current_line (top_of after_enter) = Some line ∧
    finish (frame_f 11) (with_last_instruction_end 150 after_enter) =
    Done (with_frame_stack
            (FrameState.set_current
               (LineState.add_internal (150 - 141) line) (top_of after_enter)
               :: rest_of after_enter)
            (with_last_instruction_end 150 after_enter)).
Proof.
  exact (line_finish_never_fails
           (event SetTrace 140 141 PyTrace_LINE (frame_f 11))
           (state_of (run (take 4 session_enter) (start Module_init)))
           after_enter 150 (frame_f 11) eq_refl eq_refl).
Defined.

(** X7.  A Line event in a frame whose line numbers fit in [size_t]
    completes exactly when its line number lies strictly after the
    starting line of the top frame and at most [n] lines after it, [n]
    being the number of line states of the frame; it then moves the cursor
    and adds one hit to line state [line - starting_line - 1].  Any other
    line number, the starting line itself included, throws [out_of_range],
    after the cursor has been moved and the kind recorded, with no hit
    counted. *)
Theorem line_event_bounds frame m top rest :
  frame_stack_ m = top :: rest →
  0 ≤ FrameState.starting_line_ top →
  FrameState.starting_line_ top + Z.of_nat (length (FrameState.lines top))
    < 2 ^ 64 →
  0 ≤ f_lineno frame < 2 ^ 64 →
  let moved := FrameState.move_to (f_lineno frame) top in
  let index :=
    Z.to_nat (f_lineno frame - FrameState.starting_line_ top - 1) in
  (FrameState.starting_line_ top < f_lineno frame
     ≤ FrameState.starting_line_ top
       + Z.of_nat (length (FrameState.lines top)) →
   ∃ line,
     FrameState.lines top !! index = Some line ∧
     profile_line frame m =
     Done (with_frame_stack
             (FrameState.mk (FrameState.starting_line_ top) (f_lineno frame)
                (FrameState.function_key_ top)
                (<[index := LineState.add_call line]> (FrameState.lines top))
                (FrameState.internal_ top) :: rest)
             (with_last_instruction kLine m))) ∧
  (¬ (FrameState.starting_line_ top < f_lineno frame
        ≤ FrameState.starting_line_ top
          + Z.of_nat (length (FrameState.lines top))) →
   profile_line frame m =
   Throw out_of_range
     (with_frame_stack (moved :: rest) (with_last_instruction kLine m))).
Proof.
  intros Hst H0 Hn Hl moved index.
  unfold profile_line, top_current_line; fields. rewrite Hst.
  rewrite (to_size_t_small (f_lineno frame)) by done. fold moved.
  unfold FrameState.lines in *.
  split.
  - intros Hr.
    assert (FrameState.current_index moved =
            f_lineno frame - FrameState.starting_line_ top - 1) as Hidx.
    { unfold FrameState.current_index; simpl. apply to_size_t_small. lia. }
    destruct (FrameState.lines_ top !! index) as [line|] eqn:Hline.
    2: { apply lookup_ge_None_1 in Hline. unfold index in Hline. lia. }
    exists line. split; [done|].
    unfold FrameState.current_line, FrameState.set_current. rewrite Hidx.
    simpl. fold index. by rewrite Hline.
  - intros Hr.
    assert (FrameState.current_line moved = None) as ->; [|done].
    destruct (Z_lt_le_dec (FrameState.starting_line_ top) (f_lineno frame))
      as [Hlt|Hle].
    + unfold FrameState.current_line, FrameState.current_index; simpl.
      rewrite to_size_t_small by lia. apply lookup_ge_None_2. lia.
    + apply current_index_underflow; [|done].
      unfold representable, FrameState.lines; simpl. lia.
Qed.

Lemma line_event_bounds_witness :
  profile_line (frame_f 10) after_enter =
  Throw out_of_range
    (with_frame_stack
       (FrameState.move_to 10 (top_of after_enter) :: rest_of after_enter)
       (with_last_instruction kLine after_enter)).
Proof.
  apply (line_event_bounds (frame_f 10) after_enter (top_of after_enter)
           (rest_of after_enter)).
  - reflexivity.
  - vm_compute. discriminate.
  - vm_compute. reflexivity.
  - vm_compute. split; [discriminate|reflexivity].
  - vm_compute. intros [H _]. discriminate H.
Defined.

(** ** Call events *)



(** ** Well-formed registries and the report *)

Lemma merged_lines_in_range records ls :
  Forall (λ r, count_in_range (LineState.n_calls_ (LineRecord.state r)))
         records →
  Forall (λ r, count_in_range (LineState.n_calls_ (LineRecord.state r)))
         (merged_lines records ls).
Proof.
  rewrite !Forall_lookup. intros H i r. rewrite merged_lines_lookup.
  destruct (records !! i) as [r0|] eqn:Hr; simpl; [|done].
  intros [= <-]. destruct (ls !! i); [|by eapply H].
  simpl. apply to_size_t_range.
Qed.

Lemma Function_make_in_range name0 texts code :
  Forall (λ r, count_in_range (LineState.n_calls_ (LineRecord.state r)))
         (Function.lines_ (Function.make name0 texts code)).
Proof.
  rewrite Function_make_lines. unfold count_in_range.
  induction texts; simpl; by constructor.
Qed.

Lemma finished_registry_wf frame0 m m' :
  finished frame0 m m' → registry_wf m → registry_wf m'.
Proof.
  intros Hfin [Hfs Hcs].
  assert (∀ k0 f0 g,
    functions_ m !! k0 = Some f0 →
    Function.code_ g = Function.code_ f0 →
    BaseFunction.n_calls_ (Function.base g) =
      BaseFunction.n_calls_ (Function.base f0) →
    Forall (λ r, count_in_range (LineState.n_calls_ (LineRecord.state r)))
           (Function.lines_ g) →
    ∀ k f, <[k0 := g]> (functions_ m) !! k = Some f →
           Function.code_ f = k ∧
           count_in_range (BaseFunction.n_calls_ (Function.base f)) ∧
           Forall (λ r, count_in_range
                          (LineState.n_calls_ (LineRecord.state r)))
                  (Function.lines_ f)) as Hins.
  { intros k0 f0 g Hf0 Hc Hn Hl k f.
    destruct (decide (k0 = k)) as [->|Hne].
    - rewrite lookup_insert_eq. intros [= <-].
      destruct (Hfs _ _ Hf0) as (? & ? & ?). rewrite Hc, Hn. by split.
    - rewrite lookup_insert_ne by done. apply Hfs. }
  destruct Hfin as
    [ Hk | Hk Hst | top rest line Hk Hst Hl | function Hk Hf
    | top function Hk Hst Hf Hlen
    | top caller rest function line Hk Hst Hf Hlen Hl
    | c top rest line Hk Hc Hst Hl | top rest Hk Hst ];
    split; fields; try done.
  - apply (Hins _ function); try done. by destruct (Hfs _ _ Hf) as (_ & _ & ?).
  - apply (Hins _ function); try done. simpl.
    apply merged_lines_in_range. by destruct (Hfs _ _ Hf) as (_ & _ & ?).
  - apply (Hins _ function); try done. simpl.
    apply merged_lines_in_range. by destruct (Hfs _ _ Hf) as (_ & _ & ?).
  - intros k c0. destruct (decide (last_c_name_ m = k)) as [<-|Hne].
    + rewrite lookup_insert_eq. intros [= <-]. simpl. by apply Hcs.
    + rewrite lookup_insert_ne by done. apply Hcs.
Qed.

Lemma begun_registry_wf frame0 arg0 m what0 m' :
  begun frame0 arg0 m what0 m' → registry_wf m → registry_wf m'.
Proof.
  intros Hbeg [Hfs Hcs].
  destruct Hbeg as
    [ Hst | top rest line Hst Hl | texts starting_line Hg | | | | | | ];
    split; fields; try done.
  - intros k f. rewrite lookup_alter. case_decide as Hk.
    + subst k.
      destruct (functions_ m !! f_code frame0) as [f0|] eqn:Hf0.
      * rewrite Hf0. simpl. intros [= <-]. simpl.
        destruct (Hfs _ _ Hf0) as (? & ? & ?).
        split; [done|]. split; [apply to_size_t_range|done].
      * rewrite lookup_insert_eq. simpl. intros [= <-].
        split; [done|]. split; [apply to_size_t_range|].
        apply Function_make_in_range.
    + destruct (functions_ m !! f_code frame0); [apply Hfs|].
      rewrite lookup_insert_ne by done. apply Hfs.
  - intros k c. rewrite lookup_alter. case_decide as Hk.
    + subst k.
      destruct (c_functions_ m !! c_call_name arg0) as [c0|] eqn:Hc0.
      * rewrite Hc0. simpl. intros [= <-]. simpl.
        destruct (Hcs _ _ Hc0) as (? & ?).
        split; [done|apply to_size_t_range].
      * rewrite lookup_insert_eq. simpl. intros [= <-].
        split; [done|apply to_size_t_range].
    + destruct (c_functions_ m !! c_call_name arg0); [apply Hcs|].
      rewrite lookup_insert_ne by done. apply Hcs.
Qed.

Lemma run_registry_wf evs : ∀ m m',
  run evs m = Done m' → registry_wf m → registry_wf m'.
Proof.
  induction evs as [|ev evs IH]; intros m m'; simpl.
  - by intros [= <-].
  - destruct (deliver ev m) as [m1| |] eqn:Hd; cbn [and_then]; try done.
    intros Hr Hwf. apply (IH _ _ Hr).
    destruct (deliver_steps _ _ _ Hd)
      as [(Hp & m2 & m3 & Hf & Hb & ->)|[Hp ->]]; [|done].
    apply finished_registry_wf in Hf; [|exact Hwf].
    apply begun_registry_wf in Hb; [|exact Hf]. exact Hb.
Qed.

Lemma start_registry_wf : registry_wf (start Module_init).
Proof. split; intros k x; simpl; by rewrite lookup_empty. Qed.

(** X9.  In every state that a session reaches, each function is stored
    under its own code identity and each native function under its own
    name, and every call count, of a function, of a native function or of
    a line record, is a [size_t] value. *)
Theorem registry_stays_well_formed evs m :
  run evs (start Module_init) = Done m → registry_wf m.
Proof. intros Hr. eapply run_registry_wf; [done|apply start_registry_wf]. Qed.

Lemma registry_stays_well_formed_witness : registry_wf after_leave.
Proof.
  apply (registry_stays_well_formed
           (session_enter ++ session_native ++ session_leave)).
  vm_compute. reflexivity.
Defined.

(** X10.  The report of [dump], in any state that a session reaches, has
    one entry per registered function, under its code identity, with the
    stored name and call count and one line entry per line record, with
    the stored text and hit count; and one entry per native function,
    under and with its name, with the stored call count and no lines.  It
    has no other entry. *)
Theorem dump_reports_the_registry evs m path :
  run evs (start Module_init) = Done m →
  let report := (dump path m).1 in
  dom (functions report) = dom (functions_ m) ∧
  dom (c_functions report) = dom (c_functions_ m) ∧
  (∀ k f,
     functions_ m !! k = Some f →
     ∃ entry line_entries,
       functions report !! k = Some entry ∧
       name entry = BaseFunction.name_ (Function.base f) ∧
       n_calls entry = BaseFunction.n_calls_ (Function.base f) ∧
       lines entry = Some line_entries ∧
       length line_entries = Function.n_lines f ∧
       ∀ i r,
         Function.lines_ f !! i = Some r →
         ∃ line_entry,
           line_entries !! i = Some line_entry ∧
           line_str line_entry = LineRecord.text r ∧
           line_n_calls line_entry =
             LineState.n_calls_ (LineRecord.state r)) ∧
  (∀ k c,
     c_functions_ m !! k = Some c →
     ∃ entry,
       c_functions report !! k = Some entry ∧
       name entry = k ∧
       n_calls entry = BaseFunction.n_calls_ c ∧
       lines entry = None).
Proof.
  intros Hr report.
  destruct (run_registry_wf _ _ _ Hr start_registry_wf) as [Hfs Hcs].
  assert (report =
          {| functions := function_dict <$> functions_ m;
             c_functions := CreateFunctionDict <$> c_functions_ m |}) as ->.
  { unfold report, dump; simpl. by rewrite !map_fold_insert_fmap. }
  simpl. split; [by rewrite dom_fmap_L|]. split; [by rewrite dom_fmap_L|].
  split.
  - intros k f Hf. destruct (Hfs _ _ Hf) as (_ & Hn & Hl).
    exists (function_dict f), (line_dict <$> Function.lines_ f).
    rewrite lookup_fmap, Hf. split; [done|]. split; [done|].
    split.
    { unfold function_dict, CreateFunctionDict, PyLong_FromUnsignedLongLong.
      simpl. by apply to_size_t_small. }
    split; [apply function_dict_lines|].
    split; [by rewrite length_fmap|].
    intros i r Hi. exists (line_dict r).
    rewrite list_lookup_fmap, Hi. split; [done|]. split; [done|].
    rewrite Forall_lookup in Hl.
    unfold line_dict, PyLong_FromUnsignedLongLong; simpl.
    apply to_size_t_small. by apply (Hl i).
  - intros k c Hc. destruct (Hcs _ _ Hc) as (Hname & Hn).
    exists (CreateFunctionDict c).
    rewrite lookup_fmap, Hc. split; [done|]. split; [done|].
    split; [|done].
    unfold CreateFunctionDict, PyLong_FromUnsignedLongLong. simpl.
    by apply to_size_t_small.
Qed.

Lemma dump_reports_the_registry_witness :
  dom (functions (dump "" after_leave).1) = dom (functions_ after_leave).
Proof.
  apply (dump_reports_the_registry
           (session_enter ++ session_native ++ session_leave) after_leave "").
  vm_compute. reflexivity.
Defined.

(** ** Line hits are conserved *)

Lemma calls_sum_hits_nonneg ls : hits_nonneg ls → 0 ≤ calls_sum ls.
Proof. induction 1 as [|l ls Hl _ IH]; simpl; lia. Qed.

Lemma calls_sum_hits_lookup_le ls i l :
  hits_nonneg ls → ls !! i = Some l → LineState.n_calls_ l ≤ calls_sum ls.
Proof.
  intros Hok. revert i.
  induction Hok as [|x ls Hx Hok IH]; intros [|i] H; simpl in *; try done.
  - injection H as ->. pose proof (calls_sum_hits_nonneg _ Hok). lia.
  - specialize (IH _ H). lia.
Qed.

Lemma stack_calls_hits_nonneg k st :
  Forall (λ fr, hits_nonneg (FrameState.lines fr)) st → 0 ≤ stack_calls k st.
Proof.
  induction 1 as [|fr st Hfr _ IH]; simpl; [done|].
  pose proof (calls_sum_hits_nonneg _ Hfr). case_decide; lia.
Qed.

Lemma registered_calls_nonneg n m k : hits_inv n m → 0 ≤ registered_calls k m.
Proof.
  intros [_ Hfs _]. unfold registered_calls.
  destruct (functions_ m !! k) as [f|] eqn:Hf; [|done].
  apply record_calls_sum_nonneg. by eapply Hfs.
Qed.

Lemma merged_lines_hits ls : ∀ records,
  (length ls ≤ length records)%nat →
  hits_nonneg ls → Forall record_ok records →
  record_calls_sum records + calls_sum ls < 2 ^ 64 →
  record_calls_sum (merged_lines records ls) =
    record_calls_sum records + calls_sum ls ∧
  Forall record_ok (merged_lines records ls).
Proof.
  induction ls as [|l ls IH]; intros records Hlen Hls Hrs Hsum.
  - rewrite merged_lines_nil_r. simpl. split; [lia|done].
  - destruct records as [|r records]; [simpl in Hlen; lia|].
    rewrite merged_lines_cons. simpl in *.
    inversion Hls as [|? ? Hl0 Hls']; subst.
    inversion Hrs as [|? ? Hr Hrs']; subst. unfold record_ok in Hr.
    pose proof (calls_sum_hits_nonneg _ Hls').
    pose proof (record_calls_sum_nonneg _ Hrs').
    destruct (IH records) as (IH1 & IH2); [lia|done|done|lia|].
    rewrite IH1.
    rewrite (to_size_t_small
               (LineState.n_calls_ (LineRecord.state r) + LineState.n_calls_ l))
      by lia.
    split; [lia|]. constructor; [|done]. unfold record_ok; simpl.
    apply to_size_t_range.
Qed.

(** A step that keeps the functions' line records and the hits of the top
    frame keeps the hits held for every callable. *)
Lemma hits_inv_top n m m' top top' rest :
  hits_inv n m →
  frame_stack_ m = top :: rest → frame_stack_ m' = top' :: rest →
  functions_ m' = functions_ m →
  FrameState.key top' = FrameState.key top →
  FrameState.lines top' = FrameState.lines top ∨
  (∃ l l', FrameState.current_line top = Some l ∧
           top' = FrameState.set_current l' top ∧
           LineState.n_calls_ l' = LineState.n_calls_ l) →
  hits_inv n m' ∧ ∀ k, held_hits k m' = held_hits k m.
Proof.
  intros [Hfr Hfs Hb] Hst Hst' Hf Hk Hl.
  rewrite Hst in Hfr. inversion Hfr as [|? ? Htop Hrest]; subst.
  assert (calls_sum (FrameState.lines top') = calls_sum (FrameState.lines top)
          ∧ hits_nonneg (FrameState.lines top')) as [Hsum Hnn].
  { destruct Hl as [->|(l & l' & Hcur & -> & Hn)]; [done|].
    rewrite (set_current_calls _ _ _ Hcur). split; [lia|].
    unfold FrameState.lines, FrameState.set_current; simpl.
    apply Forall_insert; [done|]. rewrite Hn.
    unfold FrameState.current_line in Hcur.
    unfold hits_nonneg, FrameState.lines in Htop.
    rewrite Forall_lookup in Htop. by apply (Htop _ _ Hcur). }
  assert (∀ k, held_hits k m' = held_hits k m) as Heq.
  { intros k. unfold held_hits. rewrite Hst, Hst'.
    rewrite (stack_calls_head_same k top top' rest) by done.
    by rewrite (registered_calls_ext m m'). }
  split; [|done]. split.
  - rewrite Hst'. by constructor.
  - intros k f. rewrite Hf. apply Hfs.
  - intros k. rewrite Heq. apply Hb.
Qed.

Lemma finished_hits frame0 n m m' :
  hits_inv n m → n < 2 ^ 64 →
  finished frame0 m m' →
  hits_inv n m' ∧ ∀ k, held_hits k m' = held_hits k m.
Proof.
  intros Hinv Hn Hfin. pose proof Hinv as [Hfr Hfs Hb].
  destruct Hfin as
    [ Hk | Hk Hst | top rest line Hk Hst Hl | function Hk Hf
    | top function Hk Hst Hf Hlen
    | top caller rest function line Hk Hst Hf Hlen Hl
    | c top rest line Hk Hc Hst Hl | top rest Hk Hst ].
  - done.
  - done.
  - eapply (hits_inv_top n m _ top _ rest); try done.
    right. by eexists _, _.
  - assert (∀ k, held_hits k
              (with_functions
                 (<[f_code frame0 :=
                      Function.add_elapsed_internal (elapsed m) function]>
                    (functions_ m)) m) = held_hits k m) as Heq.
    { intros k. unfold held_hits; fields. f_equal.
      erewrite registered_calls_insert by reflexivity.
      case_decide; [|done]. subst k. unfold registered_calls.
      by rewrite Hf. }
    split; [|done]. split; fields; [done| |].
    + intros k f. destruct (decide (f_code frame0 = k)) as [<-|Hne].
      * rewrite lookup_insert_eq. intros [= <-]. simpl. by eapply Hfs.
      * rewrite lookup_insert_ne by done. apply Hfs.
    + intros k. rewrite Heq. apply Hb.
  - rewrite Hst in Hfr. inversion Hfr as [|? ? Htop Hrest]; subst.
    pose proof (Hb (FrameState.key top)) as Hkey.
    unfold held_hits, registered_calls in Hkey. rewrite Hf, Hst in Hkey.
    rewrite stack_calls_cons, decide_True in Hkey by done.
    cbn [stack_calls foldr] in Hkey.
    destruct (merged_lines_hits (FrameState.lines top)
                (Function.lines_ function)) as [Hsum Hok];
      [done|done|by eapply Hfs|lia|].
    assert (∀ k, held_hits k
              (with_frame_stack []
                 (with_functions
                    (<[FrameState.key top :=
                         merged_function
                           (FrameState.add_internal (elapsed m) top)
                           function]> (functions_ m)) m)) = held_hits k m)
      as Heq.
    { intros k. unfold held_hits; fields. rewrite Hst.
      erewrite registered_calls_insert by reflexivity.
      rewrite stack_calls_cons. cbn [stack_calls foldr].
      case_decide as Hkk.
      - subst k. unfold registered_calls. rewrite Hf.
        unfold merged_function; cbn [Function.lines_].
        change (FrameState.lines (FrameState.add_internal (elapsed m) top))
          with (FrameState.lines top).
        rewrite Hsum. lia.
      - lia. }
    split; [|done]. split; fields; [done| |].
    + intros k f. destruct (decide (FrameState.key top = k)) as [<-|Hne].
      * rewrite lookup_insert_eq. by intros [= <-].
      * rewrite lookup_insert_ne by done. apply Hfs.
    + intros k. rewrite Heq. apply Hb.
  - rewrite Hst in Hfr. inversion Hfr as [|? ? Htop Hrest]; subst.
    inversion Hrest as [|? ? Hcaller Hrest']; subst.
    pose proof (stack_calls_hits_nonneg (FrameState.key top) _ Hrest) as Hnn.
    pose proof (Hb (FrameState.key top)) as Hkey.
    unfold held_hits, registered_calls in Hkey. rewrite Hf, Hst in Hkey.
    rewrite stack_calls_cons, decide_True in Hkey by done.
    destruct (merged_lines_hits (FrameState.lines top)
                (Function.lines_ function)) as [Hsum Hok];
      [done|done|by eapply Hfs|lia|].
    set (caller' :=
           FrameState.set_current
             (LineState.add_external
                (observed_time (FrameState.lines top)) line) caller).
    assert (calls_sum (FrameState.lines caller') =
            calls_sum (FrameState.lines caller)) as Hcs.
    { unfold caller'. rewrite (set_current_calls _ _ _ Hl). simpl. lia. }
    assert (∀ k, held_hits k
              (with_frame_stack (caller' :: rest)
                 (with_functions
                    (<[FrameState.key top :=
                         merged_function
                           (FrameState.add_internal (elapsed m) top)
                           function]> (functions_ m)) m)) = held_hits k m)
      as Heq.
    { intros k. unfold held_hits; fields. rewrite Hst.
      erewrite registered_calls_insert by reflexivity.
      rewrite (stack_calls_cons k top).
      rewrite (stack_calls_head_same k caller caller' rest) by done.
      case_decide as Hkk.
      - subst k. unfold registered_calls. rewrite Hf.
        unfold merged_function; cbn [Function.lines_].
        change (FrameState.lines (FrameState.add_internal (elapsed m) top))
          with (FrameState.lines top).
        rewrite Hsum. lia.
      - lia. }
    split; [|done]. split; fields.
    + constructor; [|done].
      unfold caller', FrameState.lines, FrameState.set_current; simpl.
      apply Forall_insert; [done|]. simpl.
      unfold FrameState.current_line in Hl.
      unfold hits_nonneg, FrameState.lines in Hcaller.
      rewrite Forall_lookup in Hcaller. by apply (Hcaller _ _ Hl).
    + intros k f. destruct (decide (FrameState.key top = k)) as [<-|Hne].
      * rewrite lookup_insert_eq. by intros [= <-].
      * rewrite lookup_insert_ne by done. apply Hfs.
    + intros k. rewrite Heq. apply Hb.
  - eapply (hits_inv_top n m _ top _ rest); try done.
    right. by eexists _, _.
  - eapply (hits_inv_top n m _ top _ rest); try done. by left.
Qed.

Lemma hits_inv_weaken n n' m : n ≤ n' → hits_inv n m → hits_inv n' m.
Proof.
  intros Hn [H1 H2 H3]. split; [done..|]. intros k. specialize (H3 k). lia.
Qed.

Lemma hits_nonneg_replicate n : hits_nonneg (replicate n LineState.zero).
Proof. apply Forall_replicate. done. Qed.

Lemma begun_hits frame0 arg0 n m what0 m' :
  hits_inv n m → 0 ≤ n → n + 1 < 2 ^ 64 →
  begun frame0 arg0 m what0 m' →
  hits_inv (n + 1) m' ∧
  ∀ k,
    held_hits k m' =
    held_hits k m
    + (if is_line what0
          && bool_decide (head (FrameState.key <$> frame_stack_ m') = Some k)
       then 1 else 0).
Proof.
  intros Hinv H0 Hn Hbeg.
  pose proof (hits_inv_weaken n (n + 1) m ltac:(lia) Hinv) as Hweak.
  pose proof Hinv as [Hfr Hfs Hb].
  assert (∀ m1, functions_ m1 = functions_ m →
                frame_stack_ m1 = frame_stack_ m →
                hits_inv (n + 1) m1 ∧ ∀ k, held_hits k m1 = held_hits k m + 0)
    as Hsame.
  { intros m1 Hf1 Hs1.
    assert (∀ k, held_hits k m1 = held_hits k m) as Heq.
    { intros k. unfold held_hits.
      by rewrite Hs1, (registered_calls_ext m m1). }
    split.
    - destruct Hweak as [W1 W2 W3]. split.
      + by rewrite Hs1.
      + intros k f. rewrite Hf1. apply W2.
      + intros k. rewrite Heq. apply W3.
    - intros k. rewrite Heq. lia. }
  destruct Hbeg as
    [ Hst | top rest line Hst Hl | texts starting_line Hg | | | | | | ];
    cbn [is_line andb]; try (by apply Hsame).
  - fields. rewrite Hst. cbn [fmap list_fmap head].
    destruct (Hsame (with_last_instruction kLine m) eq_refl eq_refl)
      as [HA HB].
    split; [done|]. intros k. rewrite bool_decide_false by done. apply HB.
  - rewrite Hst in Hfr. inversion Hfr as [|? ? Htop Hrest]; subst.
    set (moved := FrameState.move_to (to_size_t (f_lineno frame0)) top) in *.
    set (top' := FrameState.set_current (LineState.add_call line) moved).
    assert (hits_nonneg (FrameState.lines moved)) as Hmoved by done.
    assert (0 ≤ LineState.n_calls_ line) as L0.
    { unfold FrameState.current_line in Hl.
      unfold hits_nonneg, FrameState.lines in Hmoved.
      rewrite Forall_lookup in Hmoved. by apply (Hmoved _ _ Hl). }
    assert (LineState.n_calls_ line ≤ n) as Hline.
    { pose proof (Hb (FrameState.key top)) as Hkey.
      unfold held_hits in Hkey. rewrite Hst in Hkey.
      rewrite stack_calls_cons, decide_True in Hkey by done.
      pose proof (stack_calls_hits_nonneg (FrameState.key top) _ Hrest).
      pose proof (registered_calls_nonneg n m (FrameState.key top) Hinv).
      pose proof (calls_sum_hits_lookup_le _ _ _ Hmoved Hl) as Hle.
      change (FrameState.lines moved) with (FrameState.lines top) in Hle.
      lia. }
    assert (calls_sum (FrameState.lines top') =
            calls_sum (FrameState.lines top) + 1) as Hsum.
    { unfold top'. rewrite (set_current_calls _ _ _ Hl). simpl.
      rewrite to_size_t_small by lia. unfold FrameState.lines. lia. }
    assert (∀ k, held_hits k
              (with_frame_stack (top' :: rest) (with_last_instruction kLine m))
            = held_hits k m
              + (if bool_decide (Some (FrameState.key top) = Some k)
                 then 1 else 0)) as Heq.
    { intros k. unfold held_hits; fields. rewrite Hst.
      rewrite (registered_calls_ext m) by done.
      rewrite (stack_calls_head k top top' rest 1) by done.
      case_decide as Hk.
      - rewrite bool_decide_true by congruence. lia.
      - rewrite bool_decide_false by congruence. lia. }
    split.
    + split; fields.
      * constructor; [|done].
        unfold top', FrameState.lines, FrameState.set_current; simpl.
        apply Forall_insert; [done|]. simpl.
        pose proof (to_size_t_range (LineState.n_calls_ line + 1)). lia.
      * done.
      * intros k. rewrite Heq. specialize (Hb k).
        case_bool_decide; lia.
    + intros k. fields. cbn [fmap list_fmap head]. apply Heq.
  - set (code := f_code frame0) in *.
    set (fs' := match functions_ m !! code with
                | Some _ => functions_ m
                | None =>
                  <[code := Function.make (co_name frame0) texts code]>
                    (functions_ m)
                end).
    assert (∀ k f, alter Function.add_call code fs' !! k = Some f →
              Forall record_ok (Function.lines_ f) ∧
              record_calls_sum (Function.lines_ f) = registered_calls k m)
      as Hfs'.
    { intros k f. rewrite lookup_alter. unfold fs', registered_calls.
      destruct (functions_ m !! code) as [f0|] eqn:Hc.
      - case_decide as Hk.
        + subst k. rewrite Hc. simpl. intros [= <-]. simpl.
          split; [by eapply Hfs|done].
        + intros Hf. rewrite Hf. split; [by eapply Hfs|done].
      - case_decide as Hk.
        + subst k. rewrite lookup_insert_eq, Hc. simpl. intros [= <-].
          destruct (Function_make_counters (co_name frame0) texts code)
            as (_ & ? & ?). by split.
        + rewrite lookup_insert_ne by done. intros Hf. rewrite Hf.
          split; [by eapply Hfs|done]. }
    assert (∀ k, alter Function.add_call code fs' !! k = None →
                 functions_ m !! k = None) as Hnone.
    { intros k. rewrite lookup_alter. unfold fs'.
      destruct (functions_ m !! code) as [f0|] eqn:Hc.
      - case_decide as Hk; [|done]. subst k. by rewrite Hc.
      - case_decide as Hk; [subst k; by rewrite lookup_insert_eq|].
        by rewrite lookup_insert_ne. }
    assert (∀ k, held_hits k
              (with_last_instruction kCall
                 (with_frame_stack
                    (FrameState.make code (length texts) starting_line
                       :: frame_stack_ m)
                    (with_functions (alter Function.add_call code fs') m)))
            = held_hits k m) as Heq.
    { intros k. unfold held_hits; fields. rewrite stack_calls_cons.
      unfold FrameState.lines at 1; simpl. rewrite calls_sum_replicate.
      assert (registered_calls k
                (with_last_instruction kCall
                   (with_frame_stack
                      (FrameState.make code (length texts) starting_line
                         :: frame_stack_ m)
                      (with_functions (alter Function.add_call code fs') m)))
              = registered_calls k m) as ->.
      { unfold registered_calls at 1; fields.
        destruct (alter Function.add_call code fs' !! k) as [f|] eqn:Hf.
        - by destruct (Hfs' _ _ Hf).
        - unfold registered_calls. by rewrite (Hnone _ Hf). }
      case_decide; lia. }
    split.
    + split; fields.
      * constructor; [|done].
        unfold FrameState.lines; simpl. apply hits_nonneg_replicate.
      * intros k f Hf. by destruct (Hfs' _ _ Hf).
      * intros k. rewrite Heq. specialize (Hb k). lia.
    + intros k. rewrite Heq. lia.
Qed.

Lemma deliver_hits ev n m m' :
  deliver ev m = Done m' →
  hits_inv n m → 0 ≤ n → n + 1 < 2 ^ 64 →
  hits_inv (n + 1) m' ∧
  ∀ k,
    held_hits k m' =
    held_hits k m
    + (if processed ev && is_line (what ev)
          && bool_decide (head (nesting_codes (nesting_of m')) = Some k)
       then 1 else 0).
Proof.
  intros Hd Hinv H0 Hn.
  destruct (deliver_steps _ _ _ Hd) as [(Hp & m1 & m2 & Hf & Hb & ->)|[Hp ->]].
  - destruct (finished_hits (frame ev) n
                (with_last_instruction_end (now_in ev) m) m1)
      as [Hinv1 Heq1]; [|lia|done|].
    { destruct Hinv as [I1 I2 I3]. by split. }
    destruct (begun_hits _ _ n m1 _ m2 Hinv1 H0 Hn Hb) as [Hinv2 Heq2].
    split.
    + destruct Hinv2 as [I1 I2 I3]. by split.
    + intros k. rewrite Hp. cbn [andb]. unfold nesting_of; fields.
      cbn [nesting_codes].
      change (held_hits k (with_last_instruction_start (now_out ev) m2))
        with (held_hits k m2).
      rewrite Heq2, Heq1. done.
  - split; [by apply (hits_inv_weaken n); [lia|]|].
    intros k. rewrite Hp. cbn [andb]. lia.
Qed.

Lemma hits_fold k evs : ∀ a c,
  foldl (hits_event k) (a, c) evs =
  ((foldl (hits_event k) (a, 0) evs).1,
   c + (foldl (hits_event k) (a, 0) evs).2).
Proof.
  induction evs as [|ev evs IH]; intros a c; simpl.
  - f_equal. lia.
  - unfold hits_event at 2 4 6. cbn [fst snd].
    destruct (processed ev && is_line (what ev)
              && bool_decide
                   (head (nesting_codes (nesting_event a ev)) = Some k)).
    + rewrite (IH _ (c + 1)), (IH _ (0 + 1)). cbn [fst snd]. f_equal. lia.
    + rewrite (IH _ c). done.
Qed.

Lemma run_hits k evs : ∀ n m m',
  run evs m = Done m' →
  hits_inv n m → 0 ≤ n → n + Z.of_nat (length evs) < 2 ^ 64 →
  held_hits k m' =
  held_hits k m + (foldl (hits_event k) (nesting_of m, 0) evs).2.
Proof.
  induction evs as [|ev evs IH]; intros n m m' Hr Hinv H0 Hn.
  - injection Hr as <-. simpl. lia.
  - simpl in Hr.
    destruct (deliver ev m) as [m1| |] eqn:Hd; cbn [and_then] in Hr;
      try done.
    rewrite length_cons, Nat2Z.inj_succ in Hn.
    destruct (deliver_hits _ n _ _ Hd Hinv H0) as [Hinv1 Heq1]; [lia|].
    rewrite (IH (n + 1) m1 m' Hr Hinv1) by lia.
    rewrite Heq1.
    assert (hits_event k (nesting_of m, 0) ev =
            (nesting_of m1,
             if processed ev && is_line (what ev)
                && bool_decide (head (nesting_codes (nesting_of m1)) = Some k)
             then 0 + 1 else 0)) as Hev.
    { unfold hits_event; cbn [fst snd].
      by rewrite <- (deliver_nesting _ _ _ Hd). }
    change (foldl (hits_event k) (nesting_of m, 0) (ev :: evs))
      with (foldl (hits_event k) (hits_event k (nesting_of m, 0) ev) evs).
    rewrite Hev.
    destruct (processed ev && is_line (what ev)
              && bool_decide (head (nesting_codes (nesting_of m1)) = Some k));
      [rewrite (hits_fold k evs _ (0 + 1)); cbn [snd]|]; lia.
Qed.

Lemma start_hits_inv : hits_inv 0 (start Module_init).
Proof.
  split; simpl; [done|..].
  - intros k f. by rewrite lookup_empty.
  - intros k. unfold held_hits, registered_calls; simpl.
    by rewrite lookup_empty.
Qed.

(** X11.  No line hit is lost and none is counted twice: after a session
    of fewer than [2^64] events that completes, the hits in the line
    records of a callable together with the hits in its frames still on
    the stack are exactly the Line events that reached the engine while
    one of its calls was the innermost open call. *)
Theorem line_hits_are_conserved evs m k :
  run evs (start Module_init) = Done m →
  Z.of_nat (length evs) < 2 ^ 64 →
  held_hits k m = line_hits k evs.
Proof.
  intros Hr Hlen.
  rewrite (run_hits k evs 0 _ _ Hr start_hits_inv) by lia.
  unfold held_hits, registered_calls, line_hits; simpl.
  rewrite lookup_empty. done.
Qed.

Lemma line_hits_are_conserved_witness :
  held_hits 4096 after_leave = 2 ∧ held_hits 8192 after_leave = 3.
Proof.
  split.
  - apply (line_hits_are_conserved
             (session_enter ++ session_native ++ session_leave)
             after_leave 4096); vm_compute; reflexivity.
  - apply (line_hits_are_conserved
             (session_enter ++ session_native ++ session_leave)
             after_leave 8192); vm_compute; reflexivity.
Defined.

(** ** Where the intervals go *)

Lemma begun_c_name frame0 arg0 m what0 m' :
  begun frame0 arg0 m what0 m' →
  last_c_name_ m' =
  match what0 with
  | PyTrace_C_CALL => c_call_name arg0
  | _ => last_c_name_ m
  end.
Proof. by destruct 1. Qed.

Lemma deliver_timing ev m m' :
  deliver ev m = Done m' → timing_of m' = timing_event (timing_of m) ev.
Proof.
  intros Hd. pose proof (deliver_nesting _ _ _ Hd) as Hn.
  unfold timing_of, timing_event.
  destruct (deliver_steps _ _ _ Hd) as [(Hp & m1 & m2 & Hf & Hb & ->)|[Hp ->]].
  - rewrite Hp. cbn [timing_nesting]. rewrite Hn. fields.
    apply finished_fields in Hf as (_ & _ & _ & Hc). fields.
    apply begun_c_name in Hb. by rewrite Hb, Hc.
  - by rewrite Hp.
Qed.

Lemma charged_fold charge evs : ∀ a c,
  foldl (charged charge) (a, c) evs =
  ((foldl (charged charge) (a, 0) evs).1,
   c + (foldl (charged charge) (a, 0) evs).2).
Proof.
  induction evs as [|ev evs IH]; intros a c; simpl.
  - f_equal. lia.
  - unfold charged at 2 4 6. cbn [fst snd].
    rewrite (IH _ (c + charge a ev)), (IH _ (0 + charge a ev)).
    cbn [fst snd]. f_equal. lia.
Qed.

(** A quantity that every event changes by what the rule takes from it is,
    after a session, what the rule takes from the session. *)
Lemma run_charged (measure : ModuleState → Z) charge :
  (∀ ev m m', deliver ev m = Done m' →
              measure m' = measure m + charge (timing_of m) ev) →
  ∀ evs m m',
    run evs m = Done m' →
    measure m' =
    measure m + (foldl (charged charge) (timing_of m, 0) evs).2.
Proof.
  intros Hstep. induction evs as [|ev evs IH]; intros m m' Hr.
  - injection Hr as <-. simpl. lia.
  - simpl in Hr.
    destruct (deliver ev m) as [m1| |] eqn:Hd; cbn [and_then] in Hr;
      try done.
    rewrite (IH _ _ Hr), (Hstep _ _ _ Hd).
    change (foldl (charged charge) (timing_of m, 0) (ev :: evs))
      with (foldl (charged charge) (charged charge (timing_of m, 0) ev) evs).
    unfold charged at 3. cbn [fst snd].
    rewrite <- (deliver_timing _ _ _ Hd).
    rewrite (charged_fold charge evs _ (0 + charge (timing_of m) ev)).
    cbn [snd]. lia.
Qed.

Lemma finished_c_function_time frame0 m m' k :
  finished frame0 m m' →
  c_function_time k m' =
  c_function_time k m
  + (if bool_decide (last_instruction_ m = kCCall ∧ last_c_name_ m = k)
     then elapsed m else 0).
Proof.
  unfold c_function_time.
  destruct 1 as
    [ Hk | Hk Hst | top rest line Hk Hst Hl | function Hk Hf
    | top function Hk Hst Hf Hlen
    | top caller rest function line Hk Hst Hf Hlen Hl
    | c top rest line Hk Hc Hst Hl | top rest Hk Hst ]; fields;
    try (rewrite bool_decide_false by (intros [? _]; congruence); lia).
  - rewrite bool_decide_false; [lia|]. intros [Hk' _].
    rewrite Hk' in Hk. done.
  - case_bool_decide as Hb.
    + destruct Hb as [_ <-]. rewrite lookup_insert_eq, Hc. done.
    + rewrite lookup_insert_ne; [lia|]. intros Heq. by destruct Hb.
Qed.

Lemma begun_c_function_time frame0 arg0 m what0 m' k :
  begun frame0 arg0 m what0 m' → c_function_time k m' = c_function_time k m.
Proof.
  intros Hb. destruct (begun_c_functions _ _ _ _ _ k Hb) as (H1 & _ & H3).
  unfold c_function_time.
  destruct (c_functions_ m !! k) as [c|] eqn:Hc.
  - destruct (H1 _ eq_refl) as (c' & -> & _ & ->). done.
  - destruct (c_functions_ m' !! k) as [c'|] eqn:Hc'; [|done].
    destruct Hb; fields; try congruence.
    rewrite lookup_alter in Hc'. case_decide as Hk.
    + subst k. rewrite Hc in Hc'. rewrite lookup_insert_eq in Hc'.
      by injection Hc' as <-.
    + destruct (c_functions_ m !! c_call_name arg0); [congruence|].
      rewrite lookup_insert_ne in Hc' by done. congruence.
Qed.

Lemma deliver_c_function_time k ev m m' :
  deliver ev m = Done m' →
  c_function_time k m' =
  c_function_time k m + native_charge k (timing_of m) ev.
Proof.
  intros Hd. unfold native_charge, interval, timing_of; simpl.
  destruct (deliver_steps _ _ _ Hd) as [(Hp & m1 & m2 & Hf & Hb & ->)|[Hp ->]].
  - rewrite Hp.
    change (c_function_time k (with_last_instruction_start (now_out ev) m2))
      with (c_function_time k m2).
    rewrite (begun_c_function_time _ _ _ _ _ k Hb).
    by rewrite (finished_c_function_time _ _ _ k Hf).
  - rewrite Hp. case_bool_decide; lia.
Qed.

(** X12.  After a session that completes, the self time of a native
    function is the sum of the intervals that end at an event processed
    while the recorded kind is NativeCall and the remembered name is its
    name: the time from each of its NativeCall events to the next
    processed event, dispatch time excluded. *)
Theorem native_self_time_is_charged_time evs m name :
  run evs (start Module_init) = Done m →
  c_function_time name m = total_charged (native_charge name) evs.
Proof.
  intros Hr.
  rewrite (run_charged (c_function_time name) (native_charge name)
             (deliver_c_function_time name) _ _ _ Hr).
  unfold c_function_time; simpl. by rewrite lookup_empty.
Qed.

Lemma native_self_time_is_charged_time_witness :
  c_function_time "<C-function builtins.len>" after_native = 8.
Proof.
  apply (native_self_time_is_charged_time (session_enter ++ session_native)
           after_native).
  vm_compute. reflexivity.
Defined.

Lemma stack_overhead_cons k fr st :
  stack_overhead k (fr :: st) =
  (if decide (FrameState.key fr = k) then FrameState.internal fr else 0)
  + stack_overhead k st.
Proof. done. Qed.

Lemma function_time_insert k k0 f m m' :
  functions_ m' = <[k0 := f]> (functions_ m) →
  function_time k m' =
  if decide (k0 = k) then BaseFunction.internal_time_ (Function.base f)
  else function_time k m.
Proof.
  intros Hfs. unfold function_time. rewrite Hfs. case_decide as Hk.
  - subst. by rewrite lookup_insert_eq.
  - by rewrite lookup_insert_ne.
Qed.

Lemma finished_held_self_time frame0 m m' k :
  finished frame0 m m' →
  held_self_time k m' =
  held_self_time k m
  + match last_instruction_ m with
    | kCall => if bool_decide (f_code frame0 = k) then elapsed m else 0
    | kReturn | kCReturn =>
      if bool_decide (head (FrameState.key <$> frame_stack_ m) = Some k)
      then elapsed m else 0
    | _ => 0
    end.
Proof.
  unfold held_self_time.
  destruct 1 as
    [ Hk | Hk Hst | top rest line Hk Hst Hl | function Hk Hf
    | top function Hk Hst Hf Hlen
    | top caller rest function line Hk Hst Hf Hlen Hl
    | c top rest line Hk Hc Hst Hl | top rest Hk Hst ]; fields.
  - destruct (last_instruction_ m); try done; lia.
  - rewrite Hk. lia.
  - rewrite Hk, Hst. unfold function_time; fields.
    rewrite !stack_overhead_cons.
    unfold FrameState.key, FrameState.internal; simpl. lia.
  - rewrite Hk. erewrite function_time_insert by reflexivity.
    case_decide as Hkk.
    + rewrite bool_decide_true by done. subst k.
      unfold function_time. rewrite Hf. simpl. lia.
    + rewrite bool_decide_false by done. lia.
  - rewrite Hk, Hst. erewrite function_time_insert by reflexivity.
    rewrite stack_overhead_cons. cbn [fmap list_fmap head stack_overhead foldr].
    case_decide as Hkk.
    + rewrite bool_decide_true by congruence. subst k.
      unfold function_time. rewrite Hf.
      unfold merged_function, FrameState.internal; simpl. lia.
    + rewrite bool_decide_false by congruence. lia.
  - rewrite Hk, Hst. erewrite function_time_insert by reflexivity.
    rewrite !stack_overhead_cons. cbn [fmap list_fmap head].
    change (FrameState.key
              (FrameState.set_current
                 (LineState.add_external
                    (observed_time (FrameState.lines top)) line) caller))
      with (FrameState.key caller).
    change (FrameState.internal
              (FrameState.set_current
                 (LineState.add_external
                    (observed_time (FrameState.lines top)) line) caller))
      with (FrameState.internal caller).
    generalize (if decide (FrameState.key caller = k)
                then FrameState.internal caller else 0).
    intros z. case_decide as Hkk.
    + rewrite bool_decide_true by congruence. subst k.
      unfold function_time. rewrite Hf.
      unfold merged_function, FrameState.internal; simpl. lia.
    + rewrite bool_decide_false by congruence. simpl. lia.
  - rewrite Hk, Hst. unfold function_time; fields.
    rewrite !stack_overhead_cons.
    unfold FrameState.key, FrameState.internal; simpl. lia.
  - rewrite Hk, Hst. rewrite !stack_overhead_cons.
    cbn [fmap list_fmap head]. unfold function_time; fields.
    unfold FrameState.internal, FrameState.key; simpl.
    case_decide as Hkk.
    + rewrite bool_decide_true by congruence. lia.
    + rewrite bool_decide_false by congruence. lia.
Qed.

Lemma begun_held_self_time frame0 arg0 m what0 m' k :
  begun frame0 arg0 m what0 m' → held_self_time k m' = held_self_time k m.
Proof.
  unfold held_self_time, function_time.
  destruct 1 as
    [ Hst | top rest line Hst Hl | texts starting_line Hg | | | | | | ];
    fields; try done.
  - rewrite Hst. by rewrite !stack_overhead_cons.
  - rewrite stack_overhead_cons.
    unfold FrameState.internal at 1, FrameState.key at 1; simpl.
    rewrite lookup_alter.
    assert (∀ z : Z, (if decide (f_code frame0 = k) then 0 else 0) + z = z)
      as Hz by (intros; case_decide; lia).
    rewrite Hz. f_equal.
    destruct (functions_ m !! f_code frame0) as [f0|] eqn:Hf0;
      case_decide as Hk.
    + subst k. by rewrite Hf0.
    + done.
    + subst k. by rewrite lookup_insert_eq, Hf0.
    + by rewrite lookup_insert_ne.
Qed.

Lemma deliver_held_self_time k ev m m' :
  deliver ev m = Done m' →
  held_self_time k m' = held_self_time k m + self_charge k (timing_of m) ev.
Proof.
  intros Hd. unfold self_charge, interval, timing_of, nesting_of; simpl.
  destruct (deliver_steps _ _ _ Hd) as [(Hp & m1 & m2 & Hf & Hb & ->)|[Hp ->]].
  - rewrite Hp.
    change (held_self_time k (with_last_instruction_start (now_out ev) m2))
      with (held_self_time k m2).
    rewrite (begun_held_self_time _ _ _ _ _ k Hb).
    rewrite (finished_held_self_time _ _ _ k Hf). fields.
    change (held_self_time k (with_last_instruction_end (now_in ev) m))
      with (held_self_time k m).
    done.
  - rewrite Hp. destruct (last_instruction_ m); try lia;
      case_bool_decide; lia.
Qed.

(** X13.  Self time is conserved: after a session that completes, the
    aggregate self time of a callable together with the overhead held by
    its frames still on the stack is the sum of the intervals that the
    rules charge to it, namely the interval after a Call when the next
    event comes from a frame of its code, and the intervals after a
    NativeReturn (or NativeException) and after a Return while one of its
    calls is the innermost open call. *)
Theorem self_time_is_charged_time evs m k :
  run evs (start Module_init) = Done m →
  held_self_time k m = total_charged (self_charge k) evs.
Proof.
  intros Hr.
  rewrite (run_charged (held_self_time k) (self_charge k)
             (deliver_held_self_time k) _ _ _ Hr).
  unfold held_self_time, function_time; simpl. by rewrite lookup_empty.
Qed.

Lemma self_time_is_charged_time_witness :
  held_self_time 4096 after_leave = 26 ∧ held_self_time 8192 after_leave = 17.
Proof.
  split.
  - apply (self_time_is_charged_time
             (session_enter ++ session_native ++ session_leave)
             after_leave 4096).
    vm_compute. reflexivity.
  - apply (self_time_is_charged_time
             (session_enter ++ session_native ++ session_leave)
             after_leave 8192).
    vm_compute. reflexivity.
Defined.

(** ** Calls without source *)

(** X14.  A Call event completes exactly when the host answers the source
    query.  When it does not, [runtime_error] is thrown and no frame is
    pushed; the module is then unchanged if the code was not registered,
    but if it was, the call has already been counted. *)
Theorem call_fails_only_without_source frame m :
  (is_done (profile_call frame m) ↔ is_Some (getsourcelines frame)) ∧
  (getsourcelines frame = None →
   profile_call frame m =
   Throw runtime_error
     (match functions_ m !! f_code frame with
      | None => m
      | Some _ =>
        with_functions
          (alter Function.add_call (f_code frame) (functions_ m)) m
      end)).
Proof.
  unfold profile_call, add_function, emplace_frame, get_lines.
  destruct (getsourcelines frame) as [[lines_py line_start]|];
    destruct (functions_ m !! f_code frame); cbn [and_then]; simpl.
  - split; [split; eauto|done].
  - split; [split; eauto|done].
  - split; [|done]. split; [done|]. by intros [? [=]].
  - split; [|done]. split; [done|]. by intros [? [=]].
Qed.

Lemma call_fails_only_without_source_witness :
  profile_call frame_f_no_source after_leave =
  Throw runtime_error
    (with_functions
       (alter Function.add_call 4096 (functions_ after_leave)) after_leave).
Proof.
  exact (proj2 (call_fails_only_without_source frame_f_no_source after_leave)
           eq_refl).
Defined.
